(** * FQGAN triple tokenizer: [tokenizer/vq_model_triple.py]

    A shallow embedding of [VectorQuantizer] (construction, [forward],
    [get_codebook_entry]), of [VQModel] (construction, [forward], [encode],
    [decode], [decode_code], [compute_disentangle_loss]) and of the
    network behind it ([Encoder], [Decoder] and their blocks, over the
    layers of torch as parameters), followed by the properties of the
    specification that concern them and by further properties of the code.

    Tensors are row-major lists with an explicit shape.  The element type is
    abstract (class [Scalar]); two instances are given: the real numbers
    (exact arithmetic) and IEEE 754 binary32 (torch's default dtype). *)

From Stdlib Require Import String.
From Stdlib Require Import ZArith List Bool Lia QArith.
From Stdlib Require Import Reals Lra.
From Stdlib Require Import Floats.SpecFloat.
Import ListNotations.

Local Open Scope nat_scope.

(* ------------------------------------------------------------------ *)
(** ** Exceptions *)

Inductive error : Type :=
| IndexError            (* index out of range, empty reduction dimension *)
| ShapeError            (* RuntimeError: view / reshape / einsum on a wrong shape *)
| SizeMismatch          (* RuntimeError: sizes that cannot be broadcast *)
| LeafInplaceError      (* RuntimeError: in-place write through a view of a leaf
                           that requires grad *)
| AttributeError
| ValueError
| UnboundLocalError
| ZeroDivisionError
| NotImplementedError.

Inductive result (A : Type) : Type :=
| Ok (a : A)
| Err (e : error).
Arguments Ok {A} a.
Arguments Err {A} e.

Definition bind {A B : Type} (m : result A) (k : A -> result B) : result B :=
  match m with
  | Ok a => k a
  | Err e => Err e
  end.

Notation "x <- m ;; k" := (bind m (fun x => k))
  (at level 61, m at next level, right associativity).
Notation "' p <- m ;; k" := (bind m (fun x => let p := x in k))
  (at level 61, p pattern, m at next level, right associativity).

Fixpoint mapM {A B : Type} (f : A -> result B) (l : list A) : result (list B) :=
  match l with
  | [] => Ok []
  | a :: l' => b <- f a ;; bs <- mapM f l' ;; Ok (b :: bs)
  end.

(* ------------------------------------------------------------------ *)
(** ** Scalars *)

(** The arithmetic a tensor element supports.  [lit n d] is the scalar a
    Python float literal of value [n/d] becomes; [eqb] and [ltb] are the
    comparisons [==] and [<] (both false on a NaN). *)
Class Scalar (F : Type) : Type := {
  of_Z : Z -> F;
  lit : Z -> Z -> F;
  add : F -> F -> F;
  sub : F -> F -> F;
  mul : F -> F -> F;
  div : F -> F -> F;
  opp : F -> F;
  sqrt : F -> F;
  exp : F -> F;
  log : F -> F;
  eqb : F -> F -> bool;
  ltb : F -> F -> bool;
  eq_dec : forall x y : F, {x = y} + {x <> y}
}.

(* ------------------------------------------------------------------ *)
(** ** Lists as tensor storage *)

Section ListOps.
Context {A : Type}.

(** [n] consecutive rows of width [m]. *)
Fixpoint chunk (n m : nat) (l : list A) : list (list A) :=
  match n with
  | O => []
  | S n' => firstn m l :: chunk n' m (skipn m l)
  end.

Fixpoint map2 {B C : Type} (f : A -> B -> C) (l1 : list A) (l2 : list B) : list C :=
  match l1, l2 with
  | a :: l1', b :: l2' => f a b :: map2 f l1' l2'
  | _, _ => []
  end.

(** The elements [f i j k l] in the order of four nested loops. *)
Definition tabulate4 (n1 n2 n3 n4 : nat) (f : nat -> nat -> nat -> nat -> A) : list A :=
  flat_map (fun i =>
    flat_map (fun j =>
      flat_map (fun k => map (f i j k) (seq 0 n4)) (seq 0 n3)) (seq 0 n2)) (seq 0 n1).

(** Python slice bounds: a negative bound counts from the end, and both
    are clamped to [0, len]. *)
Definition slice_bound (len : nat) (i : Z) : nat :=
  if (i <? 0)%Z then Z.to_nat (Z.max 0 (i + Z.of_nat len))
  else Z.to_nat (Z.min i (Z.of_nat len)).

Definition slice_range (len : nat) (start stop : option Z) : nat * nat :=
  let s := match start with Some i => slice_bound len i | None => 0 end in
  let e := match stop with Some i => slice_bound len i | None => len end in
  (s, e - s).

(** [l[start:stop]] *)
Definition getslice (l : list A) (start stop : option Z) : list A :=
  let '(s, k) := slice_range (length l) start stop in
  firstn k (skipn s l).

(** [l[start:stop] = rhs] on a 1-d tensor: the right-hand side has the
    size of the slice or is broadcast from size 1. *)
Definition setslice (l : list A) (start stop : option Z) (rhs : list A) : result (list A) :=
  let '(s, k) := slice_range (length l) start stop in
  if length rhs =? k then Ok (firstn s l ++ rhs ++ skipn (s + k) l)
  else match rhs with
       | [x] => Ok (firstn s l ++ repeat x k ++ skipn (s + k) l)
       | _ => Err SizeMismatch
       end.
End ListOps.

(* ------------------------------------------------------------------ *)
(** ** Tensors and the torch operations used by the quantizer *)

Section Torch.
Context {F : Type} {SF : Scalar F}.

Definition zero : F := of_Z 0%Z.

Record Tensor : Type := mkTensor { shape : list nat; data : list F }.

(** An integer (int64) tensor. *)
Record IndexTensor : Type := mkIndexTensor { ishape : list nat; idata : list Z }.

Definition numel (sh : list nat) : nat := fold_right Nat.mul 1 sh.

(** Element [i,j,k,l] of a 4-d tensor. *)
Definition get4 (t : Tensor) (i j k l : nat) : F :=
  match shape t with
  | [_; n2; n3; n4] => nth (((i * n2 + j) * n3 + k) * n4 + l) (data t) zero
  | _ => zero
  end.

(** [torch.einsum('b c h w -> b h w c', z).contiguous()] *)
Definition einsum_bchw_bhwc (z : Tensor) : result Tensor :=
  match shape z with
  | [b; c; h; w] =>
      Ok (mkTensor [b; h; w; c] (tabulate4 b h w c (fun i y x k => get4 z i k y x)))
  | _ => Err ShapeError
  end.

(** [z.permute(0, 3, 1, 2)]: from (b, h, w, c) to (b, c, h, w). *)
Definition permute_0312 (z : Tensor) : result Tensor :=
  match shape z with
  | [b; h; w; c] =>
      Ok (mkTensor [b; c; h; w] (tabulate4 b c h w (fun i k y x => get4 z i y x k)))
  | _ => Err ShapeError
  end.

(** [torch.einsum('b h w c -> b c h w', z_q)] *)
Definition einsum_bhwc_bchw (z : Tensor) : result Tensor := permute_0312 z.

(** [t.view(-1, m)] as its list of rows: the row count is inferred, which
    torch refuses when [m] is 0 or does not divide the number of elements
    (a tensor without elements has no row). *)
Definition view_rows (t : Tensor) (m : nat) : result (list (list F)) :=
  let n := numel (shape t) in
  if m =? 0 then Err ShapeError
  else if n mod m =? 0 then Ok (chunk (n / m) m (data t))
  else Err ShapeError.

(** [t.view(sh)] / [t.reshape(sh)]: the same elements under another shape. *)
Definition reshape (t : Tensor) (sh : list nat) : result Tensor :=
  if length (data t) =? numel sh then Ok (mkTensor sh (data t)) else Err ShapeError.

(** [torch.sum] of a vector. *)
Definition sum (v : list F) : F := fold_left add v zero.

(** [torch.mean] of all the elements. *)
Definition mean (v : list F) : F := div (sum v) (of_Z (Z.of_nat (length v))).

Definition square (x : F) : F := mul x x.

Definition sum_sq (v : list F) : F := sum (map square v).

Definition dot (u v : list F) : F := sum (map2 mul u v).

Definition clamp_min (x lo : F) : F := if ltb x lo then lo else x.

(** [F.normalize(v, p=2, dim=-1)] on one vector of the last dimension:
    [v / max(||v||_2, eps)] with [eps = 1e-12]. *)
Definition norm2 (v : list F) : F := sqrt (sum_sq v).

Definition eps12 : F := lit 1 1000000000000.

Definition normalize (v : list F) : list F :=
  let denom := clamp_min (norm2 v) eps12 in
  map (fun x => div x denom) v.

(** [F.normalize(t, p=2, dim=-1)] on a tensor. *)
Definition normalize_last (t : Tensor) : Tensor :=
  let m := last (shape t) 1 in
  mkTensor (shape t) (concat (map normalize (chunk (numel (shape t) / m) m (data t)))).

Definition isnan (x : F) : bool := negb (eqb x x).

(** [torch.argmin] along a row: a scan that keeps the earliest smallest
    value; a NaN counts as smaller than every number. *)
Fixpoint argmin_scan (best_i : nat) (best : F) (i : nat) (l : list F) : nat :=
  match l with
  | [] => best_i
  | x :: l' =>
      if (if isnan x then negb (isnan best) else ltb x best)
      then argmin_scan i x (S i) l'
      else argmin_scan best_i best (S i) l'
  end.

Definition argmin (row : list F) : result Z :=
  match row with
  | [] => Err IndexError
  | x :: l => Ok (Z.of_nat (argmin_scan 0 x 1 l))
  end.

(** [table[indices]]: a negative index counts from the end; an index
    outside [-n, n) raises. *)
Definition index_row (table : list (list F)) (i : Z) : result (list F) :=
  let n := Z.of_nat (length table) in
  if ((- n <=? i) && (i <? n))%Z
  then Ok (nth (Z.to_nat (if (i <? 0)%Z then i + n else i)) table [])
  else Err IndexError.

Definition index_rows (table : list (list F)) (indices : list Z) : result (list (list F)) :=
  mapM (index_row table) indices.

(** [table[indices]] as a tensor of shape [indices.shape + (width,)]. *)
Definition index_tensor (table : list (list F)) (width : nat) (indices : IndexTensor)
  : result Tensor :=
  rows <- index_rows table (idata indices) ;;
  Ok (mkTensor (ishape indices ++ [width]) (concat rows)).

(** Element-wise product of two 2-d tensors given by their rows, with
    torch's broadcasting of a dimension of size 1. *)
Definition broadcast_dim (n m : nat) : result nat :=
  if n =? m then Ok n
  else if n =? 1 then Ok m
  else if m =? 1 then Ok n
  else Err SizeMismatch.

Definition expand_to {A : Type} (l : list A) (n : nat) : list A :=
  if length l =? n then l
  else match l with
       | [x] => repeat x n
       | _ => l
       end.

Definition mul_rows (a : list (list F)) (na ca : nat) (b : list (list F)) (nb cb : nat)
  : result (list (list F)) :=
  n <- broadcast_dim na nb ;;
  c <- broadcast_dim ca cb ;;
  Ok (map2 (fun ra rb => map2 mul (expand_to ra c) (expand_to rb c))
           (expand_to a n) (expand_to b n)).

(** [len(torch.unique(v))]; on the values the usage buffer holds (zero and
    non-negative indices) equality is the comparison [==]. *)
Definition count_unique (v : list F) : nat := length (nodup eq_dec v).
End Torch.

Arguments Tensor F : clear implicits.

(* ------------------------------------------------------------------ *)
(** ** [compute_entropy_loss] *)

Section EntropyLoss.
Context {F : Type} {SF : Scalar F}.

(** [F.softmax(row, dim=-1)] *)
Definition softmax (row : list F) : list F :=
  let e := map exp row in
  let s := sum e in
  map (fun x => div x s) e.

(** [F.log_softmax(row, dim=-1)] *)
Definition log_softmax (row : list F) : list F :=
  let s := log (sum (map exp row)) in
  map (fun x => sub x s) row.

(** [torch.mean(rows, dim=0)] *)
Definition mean_dim0 (rows : list (list F)) : list F :=
  map (fun j => mean (map (fun r => nth j r zero) rows))
      (seq 0 (length (hd [] rows))).

Definition compute_entropy_loss (affinity : list (list F)) (loss_type : string)
           (temperature : F) : result F :=
  let flat_affinity := map (map (fun x => div x temperature)) affinity in
  let probs := map softmax flat_affinity in
  let log_probs :=
    map (fun r => log_softmax (map (fun x => add x (lit 1 100000)) r)) flat_affinity in
  target_probs <-
    (if String.eqb loss_type "softmax" then Ok probs else Err ValueError) ;;
  let avg_probs := mean_dim0 target_probs in
  let avg_entropy :=
    opp (sum (map (fun p => mul p (log (add p (lit 1 100000)))) avg_probs)) in
  let sample_entropy :=
    opp (mean (map2 (fun p lp => sum (map2 mul p lp)) target_probs log_probs)) in
  Ok (sub sample_entropy avg_entropy).
End EntropyLoss.

(* ------------------------------------------------------------------ *)
(** ** [class VectorQuantizer] *)

Section VectorQuantizer.
Context {F : Type} {SF : Scalar F}.

Record VectorQuantizer : Type := mkVQ {
  n_e : nat;
  e_dim : nat;
  beta : F;
  entropy_loss_ratio : F;
  l2_norm : bool;
  show_usage : bool;
  embedding_weight : list (list F);       (* self.embedding.weight, n_e rows *)
  codebook_used : option (list F);        (* the buffer, registered under show_usage *)
  training : bool;
  codebook_used_leaf : bool;              (* the buffer is the [nn.Parameter] that
                                             [__init__] registered: a leaf that
                                             requires grad *)
  grad_enabled : bool                     (* [torch.is_grad_enabled()] at the calls *)
}.

Definition set_codebook_used (self : VectorQuantizer) (used : list F) : VectorQuantizer :=
  mkVQ (n_e self) (e_dim self) (beta self) (entropy_loss_ratio self) (l2_norm self)
       (show_usage self) (embedding_weight self) (Some used) (training self)
       (codebook_used_leaf self) (grad_enabled self).

(** [self.train(mode)] / [self.eval()] *)
Definition train (mode : bool) (self : VectorQuantizer) : VectorQuantizer :=
  mkVQ (n_e self) (e_dim self) (beta self) (entropy_loss_ratio self) (l2_norm self)
       (show_usage self) (embedding_weight self) (codebook_used self) mode
       (codebook_used_leaf self) (grad_enabled self).

(** [self.to(device)] with another device than the one the module is on,
    as [self.cuda()] on a new module: [Module._apply] puts a copy in the
    place of every buffer, and the copy is no leaf that requires grad. *)
Definition to_device (self : VectorQuantizer) : VectorQuantizer :=
  mkVQ (n_e self) (e_dim self) (beta self) (entropy_loss_ratio self) (l2_norm self)
       (show_usage self) (embedding_weight self) (codebook_used self) (training self)
       false (grad_enabled self).

(** Calls under [torch.set_grad_enabled(mode)]; [torch.no_grad()] is
    [set_grad_enabled false]. *)
Definition set_grad_enabled (mode : bool) (self : VectorQuantizer) : VectorQuantizer :=
  mkVQ (n_e self) (e_dim self) (beta self) (entropy_loss_ratio self) (l2_norm self)
       (show_usage self) (embedding_weight self) (codebook_used self) (training self)
       (codebook_used_leaf self) mode.

(** Length of the [codebook_used] buffer. *)
Definition buffer_size : nat := Z.to_nat 65536.

(** [__init__]; [uniform] holds the values [uniform_] has drawn, one row
    per code; its bound [1.0 / n_e] divides by zero when there is no code.
    A new module is in training mode; the buffer it registers is an
    [nn.Parameter], and torch records gradients unless told otherwise. *)
Definition VectorQuantizer_init (n_e e_dim : nat) (beta entropy_loss_ratio : F)
           (l2_norm show_usage : bool) (uniform : list (list F))
  : result VectorQuantizer :=
  if n_e =? 0 then Err ZeroDivisionError
  else
    Ok (mkVQ n_e e_dim beta entropy_loss_ratio l2_norm show_usage
             (if l2_norm then map normalize uniform else uniform)
             (if show_usage then Some (repeat zero buffer_size) else None)
             true true true).

Record ForwardOutput : Type := mkForwardOutput {
  z_q : Tensor F;
  vq_loss : option F;
  commit_loss : option F;
  entropy_loss : option F;
  codebook_usage : Q;                 (* 0, or the quotient of two Python ints *)
  perplexity : option F;
  min_encodings : option (Tensor F);
  min_encoding_indices : IndexTensor
}.

(** The matrix [d]: [sum(z**2) + sum(e**2) - 2 * z.e] for every input
    vector and every codebook row (both of width [e_dim]). *)
Definition distances (z_flattened embedding : list (list F)) : list (list F) :=
  map (fun zr =>
         map (fun e => sub (add (sum_sq zr) (sum_sq e)) (mul (of_Z 2) (dot zr e)))
             embedding)
      z_flattened.

(** [self.codebook_used[start:stop] = rhs], an in-place write through a
    view of the buffer: the right-hand side is first expanded to the size
    of the slice; the copy into the view is then refused by autograd when
    the buffer is a leaf that requires grad and gradients are recorded. *)
Definition buffer_setslice (self : VectorQuantizer) (used : list F)
           (start stop : option Z) (rhs : list F) : result (list F) :=
  used' <- setslice used start stop rhs ;;
  if codebook_used_leaf self && grad_enabled self then Err LeafInplaceError
  else Ok used'.

(** Lines 511-515: the update of the usage buffer and the usage ratio. *)
Definition update_usage (self : VectorQuantizer) (min_encoding_indices : list Z)
  : result (Q * VectorQuantizer) :=
  match codebook_used self with
  | None => Err AttributeError
  | Some used =>
      let cur_len := Z.of_nat (length min_encoding_indices) in
      used <- buffer_setslice self used None (Some (- cur_len)%Z)
                              (getslice used (Some cur_len) None) ;;
      used <- buffer_setslice self used (Some (- cur_len)%Z) None
                              (map of_Z min_encoding_indices) ;;
      if n_e self =? 0 then Err ZeroDivisionError
      else Ok (Qmake (Z.of_nat (count_unique used)) (Pos.of_nat (n_e self)),
               set_codebook_used self used)
  end.

Definition forward (self : VectorQuantizer) (z : Tensor F)
  : result (ForwardOutput * VectorQuantizer) :=
  z <- einsum_bchw_bhwc z ;;
  z_flattened <- view_rows z (e_dim self) ;;
  let '(z, z_flattened, embedding) :=
    if l2_norm self
    then (normalize_last z, map normalize z_flattened,
          map normalize (embedding_weight self))
    else (z, z_flattened, embedding_weight self) in
  let d := distances z_flattened embedding in
  idx <- mapM argmin d ;;
  let min_encoding_indices := mkIndexTensor [length idx] idx in
  g <- index_tensor embedding (e_dim self) min_encoding_indices ;;
  z_q <- reshape g (shape z) ;;
  ' (codebook_usage, self') <-
    (if show_usage self && training self
     then update_usage self idx
     else Ok (0%Q, self)) ;;
  ' (vq_loss, commit_loss, entropy_loss) <-
    (if training self
     then
       let sq := map2 (fun q x => square (sub q x)) (data z_q) (data z) in
       ent <- compute_entropy_loss (map (map opp) d) "softmax" (lit 1 100) ;;
       Ok (Some (mean sq), Some (mul (beta self) (mean sq)),
           Some (mul (entropy_loss_ratio self) ent))
     else Ok (None, None, None)) ;;
  (* preserve gradients: z + (z_q - z).detach() *)
  let z_q := mkTensor (shape z) (map2 (fun x q => add x (sub q x)) (data z) (data z_q)) in
  z_q <- einsum_bhwc_bchw z_q ;;
  Ok (mkForwardOutput z_q vq_loss commit_loss entropy_loss codebook_usage
                      None None min_encoding_indices,
      self').

Definition get_codebook_entry (self : VectorQuantizer) (indices : IndexTensor)
           (shape : option (list nat)) (channel_first : bool) : result (Tensor F) :=
  let embedding :=
    if l2_norm self then map normalize (embedding_weight self)
    else embedding_weight self in
  z_q <- index_tensor embedding (e_dim self) indices ;;
  match shape with
  | Some sh =>
      if channel_first then
        match sh with
        | s0 :: s1 :: s2 :: s3 :: _ =>
            z_q <- reshape z_q [s0; s2; s3; s1] ;;
            permute_0312 z_q
        | _ => Err IndexError
        end
      else reshape z_q sh
  | None => Ok z_q
  end.
End VectorQuantizer.

Arguments VectorQuantizer F : clear implicits.
Arguments ForwardOutput F : clear implicits.
Arguments buffer_size : simpl never.

(* ------------------------------------------------------------------ *)
(** ** [class VQModel]: configuration and [compute_disentangle_loss] *)

Section VQModel.
Context {F : Type} {SF : Scalar F}.

Record ModelArgs : Type := mkModelArgs {
  codebook_size : nat;
  codebook_embed_dim : nat;
  codebook_l2_norm : bool;
  codebook_show_usage : bool;
  commit_loss_beta : F;
  args_entropy_loss_ratio : F;
  encoder_ch_mult : list nat;
  decoder_ch_mult : list nat;
  z_channels : nat;
  dropout_p : F;
  with_clip_supervision : bool;
  with_disentanglement : bool;
  disentanglement_ratio : F
}.

(** The chain [if num_resolutions == 5 ... elif num_resolutions == 4 ...
    else raise NotImplementedError] of both [__init__] methods. *)
Definition down_factor (num_resolutions : nat) : result nat :=
  if num_resolutions =? 5 then Ok 16
  else if num_resolutions =? 4 then Ok 8
  else Err NotImplementedError.

(** What [forward] and [compute_disentangle_loss] read of the module, and
    the three quantizers that [forward] updates.  The layers of the module
    are the record [Layers] below; [VQModel.__init__] builds both. *)
Record VQModel : Type := mkVQModel {
  config : ModelArgs;
  quantize_vis : VectorQuantizer F;
  quantize_sem_mid : VectorQuantizer F;
  quantize_sem_high : VectorQuantizer F;
  num_resolutions : nat
}.

(** [rearrange(t, 'b c h w -> (b h w) c')]: the rows and their shape. *)
Definition rearrange_bchw_bhw_c (t : Tensor F) : result (list (list F) * nat * nat) :=
  match shape t with
  | [b; c; h; w] =>
      Ok (chunk (b * h * w) c (tabulate4 b h w c (fun i y x k => get4 t i k y x)),
          b * h * w, c)
  | _ => Err ShapeError
  end.

Definition compute_disentangle_loss (self : VQModel) (quant_vis quant_sem : Tensor F)
  : result F :=
  ' (quant_vis, n_vis, c_vis) <- rearrange_bchw_bhw_c quant_vis ;;
  ' (quant_sem, n_sem, c_sem) <- rearrange_bchw_bhw_c quant_sem ;;
  let quant_vis := map normalize quant_vis in
  let quant_sem := map normalize quant_sem in
  prod <- mul_rows quant_vis n_vis c_vis quant_sem n_sem c_sem ;;
  let dot_product := map sum prod in
  Ok (mul (mean (map square dot_product)) (disentanglement_ratio (config self))).
(** The defaults of [ModelArgs]. *)
Definition default_args : ModelArgs :=
  mkModelArgs (Z.to_nat 16384) 8 true true (lit 1 4) (lit 0 1)
              [1; 1; 2; 2; 4] [1; 1; 2; 2; 4] 256 (lit 0 1)
              false false (lit 0 1).

Definition with_ch_mult (args : ModelArgs) (enc dec : list nat) : ModelArgs :=
  mkModelArgs (codebook_size args) (codebook_embed_dim args) (codebook_l2_norm args)
              (codebook_show_usage args) (commit_loss_beta args)
              (args_entropy_loss_ratio args) enc dec (z_channels args)
              (dropout_p args) (with_clip_supervision args)
              (with_disentanglement args) (disentanglement_ratio args).

End VQModel.

Arguments ModelArgs F : clear implicits.
Arguments VQModel F : clear implicits.

(* ------------------------------------------------------------------ *)
(** ** The two scalar instances *)

(** Exact arithmetic on the real numbers. *)
Module RealScalar.
Definition Rltb (a b : R) : bool := if Rlt_dec a b then true else false.
Definition Reqb (a b : R) : bool := if Req_dec_T a b then true else false.

#[export] Instance R_Scalar : Scalar R := {|
  of_Z := IZR;
  lit := fun n d => (IZR n / IZR d)%R;
  add := Rplus;
  sub := Rminus;
  mul := Rmult;
  div := Rdiv;
  opp := Ropp;
  sqrt := R_sqrt.sqrt;
  exp := Rtrigo_def.exp;
  log := ln;
  eqb := Reqb;
  ltb := Rltb;
  eq_dec := Req_dec_T
|}.
End RealScalar.

(** IEEE 754 binary32 with round-to-nearest-even, the arithmetic of a
    [torch.float32] tensor.  The standard fixes the four operations, the
    square root and the comparisons; it does not fix [exp] and [log], which
    this instance leaves undefined (NaN): it is used in evaluation mode only,
    where the entropy loss is not computed. *)
Module Binary32.
Definition float32 : Type := spec_float.

Definition of_Z32 (z : Z) : float32 := binary_normalize 24 128 z 0 false.

(** A Python float is a binary64 number; it is rounded to binary32 when it
    meets a float32 tensor. *)
Definition of_float64 (x : spec_float) : float32 :=
  match x with
  | S754_finite s m e => binary_normalize 24 128 (cond_Zopp s (Zpos m)) e s
  | _ => x
  end.

Definition lit32 (n d : Z) : float32 :=
  of_float64 (SFdiv 53 1024 (binary_normalize 53 1024 n 0 false)
                            (binary_normalize 53 1024 d 0 false)).

Definition float32_eq_dec (x y : float32) : {x = y} + {x <> y}.
Proof.
  decide equality; try apply Bool.bool_dec; try apply Z.eq_dec; apply Pos.eq_dec.
Defined.

#[export] Instance Binary32_Scalar : Scalar float32 := {|
  of_Z := of_Z32;
  lit := lit32;
  add := SFadd 24 128;
  sub := SFsub 24 128;
  mul := SFmul 24 128;
  div := SFdiv 24 128;
  opp := SFopp;
  sqrt := SFsqrt 24 128;
  exp := fun _ => S754_nan;
  log := fun _ => S754_nan;
  eqb := SFeqb;
  ltb := SFltb;
  eq_dec := float32_eq_dec
|}.
End Binary32.

(* ------------------------------------------------------------------ *)
(** ** The vocabulary of the properties *)

(** Three nested loops; the rows of [tabulate4] are of this form. *)
Definition tabulate3 {B : Type} (n1 n2 n3 : nat) (f : nat -> nat -> nat -> B) : list B :=
  flat_map (fun i => flat_map (fun j => map (f i j) (seq 0 n3)) (seq 0 n2)) (seq 0 n1).

Section Vocabulary.
Context {F : Type} {SF : Scalar F}.

(** The codebook has [n_e] rows of width [e_dim], as [nn.Embedding] builds it. *)
Definition codebook_ok (vq : VectorQuantizer F) : Prop :=
  0 < n_e vq /\ 0 < e_dim vq /\
  length (embedding_weight vq) = n_e vq /\
  Forall (fun r => length r = e_dim vq) (embedding_weight vq).

(** The codebook as [forward] and [get_codebook_entry] read it. *)
Definition codebook (vq : VectorQuantizer F) : list (list F) :=
  if l2_norm vq then map normalize (embedding_weight vq) else embedding_weight vq.

(** The vectors of a (b, c, h, w) feature map, one per position, in the
    order batch, row, column. *)
Definition flat_rows (z : Tensor F) (B C H W : nat) : list (list F) :=
  tabulate3 B H W (fun i y x => map (fun k => get4 z i k y x) (seq 0 C)).

(** [z_flattened] as the distances see it. *)
Definition input_rows (vq : VectorQuantizer F) (z : Tensor F) (B C H W : nat)
  : list (list F) :=
  if l2_norm vq then map normalize (flat_rows z B C H W) else flat_rows z B C H W.

Definition gather (table : list (list F)) (idx : list Z) : list (list F) :=
  map (fun i => nth (Z.to_nat i) table []) idx.

(** What follows the gathering of the code vectors in [forward]. *)
Definition forward_tail (self : VectorQuantizer F) (zsh : list nat) (zdata : list F)
           (d : list (list F)) (idx : list Z) (qdata : list F)
  : result (ForwardOutput F * VectorQuantizer F) :=
  ' (codebook_usage, self') <-
    (if show_usage self && training self
     then update_usage self idx
     else Ok (0%Q, self)) ;;
  ' (vq_loss, commit_loss, entropy_loss) <-
    (if training self
     then
       let sq := map2 (fun q x => square (sub q x)) qdata zdata in
       ent <- compute_entropy_loss (map (map opp) d) "softmax" (lit 1 100) ;;
       Ok (Some (mean sq), Some (mul (beta self) (mean sq)),
           Some (mul (entropy_loss_ratio self) ent))
     else Ok (None, None, None)) ;;
  let z_q := mkTensor zsh (map2 (fun x q => add x (sub q x)) zdata qdata) in
  z_q <- einsum_bhwc_bchw z_q ;;
  Ok (mkForwardOutput z_q vq_loss commit_loss entropy_loss codebook_usage
                      None None (mkIndexTensor [length idx] idx),
      self').

(** The map [forward] returns, from the input vectors [zdata] and the
    gathered code vectors [qdata], both in (b, h, w, c) order. *)
Definition quantized_map (B C H W : nat) (zdata qdata : list F) : Tensor F :=
  mkTensor [B; C; H; W]
    (tabulate4 B C H W (fun i k y x =>
       get4 (mkTensor [B; H; W; C] (map2 (fun x q => add x (sub q x)) zdata qdata))
            i y x k)).

(** The values the buffer can hold: zero and the indices assigned so far. *)
Definition index_values (n : nat) (used : list F) : Prop :=
  Forall (fun x => exists i, (0 <= i < Z.of_nat n)%Z /\ x = of_Z i) used.

(** The state of the buffer in a module built by [__init__] and updated by
    [forward] only. *)
Definition buffer_state (vq : VectorQuantizer F) : Prop :=
  exists used, codebook_used vq = Some used /\
               length used = buffer_size /\
               index_values (n_e vq) used.

(** What one call of [forward] does to the buffer, and what it reports. *)
Definition usage_step (vq : VectorQuantizer F) (out : ForwardOutput F)
           (vq' : VectorQuantizer F) : Prop :=
  exists used used',
    codebook_used vq = Some used /\
    codebook_used vq' = Some used' /\
    used' = skipn (length (idata (min_encoding_indices out))) used
            ++ map of_Z (idata (min_encoding_indices out)) /\
    length used' = buffer_size /\
    codebook_usage out = Qmake (Z.of_nat (count_unique used')) (Pos.of_nat (n_e vq)) /\
    (0 <= codebook_usage out <= 1)%Q.

(** Successive calls on the same module. *)
Fixpoint forward_calls (vq : VectorQuantizer F) (zs : list (Tensor F))
  : result (list (ForwardOutput F * VectorQuantizer F)) :=
  match zs with
  | [] => Ok []
  | z :: zs' =>
      r <- forward vq z ;;
      rest <- forward_calls (snd r) zs' ;;
      Ok (r :: rest)
  end.


Definition batch_fits (vq : VectorQuantizer F) (z : Tensor F) : Prop :=
  exists B H W, shape z = [B; e_dim vq; H; W] /\ 1 <= B * H * W <= buffer_size.

(** Autograd lets [forward] write to the buffer: the buffer is no leaf
    that requires grad (the module has been moved to its device), or no
    gradients are recorded. *)
Definition buffer_writable (vq : VectorQuantizer F) : Prop :=
  codebook_used_leaf vq && grad_enabled vq = false.

(** When usage tracking is active, the buffer is there, has its 65536
    entries and can be written to, and the batch has between 1 and 65536
    positions. *)
Definition usage_ready (vq : VectorQuantizer F) (N : nat) : Prop :=
  show_usage vq && training vq = true ->
  exists used, codebook_used vq = Some used /\
               length used = buffer_size /\ 1 <= N <= buffer_size /\
               buffer_writable vq.

(** What a returning call hands back: the indices are the row-wise
    [argmin] of the distance matrix, and the quantized map is built from
    the input vectors and the code vectors of these indices. *)
Definition forward_result (vq : VectorQuantizer F) (z : Tensor F) (B H W : nat)
           (out : ForwardOutput F) (idx : list Z) : Prop :=
  mapM argmin (distances (input_rows vq z B (e_dim vq) H W) (codebook vq)) = Ok idx /\
  length idx = B * H * W /\
  Forall (fun i => (0 <= i < Z.of_nat (n_e vq))%Z) idx /\
  min_encoding_indices out = mkIndexTensor [B * H * W] idx /\
  z_q out = quantized_map B (e_dim vq) H W
              (concat (input_rows vq z B (e_dim vq) H W))
              (concat (gather (codebook vq) idx)).

(** The squared Euclidean distance of two vectors. *)
Definition sq_dist (u v : list F) : F :=
  sum (map2 (fun a b => square (sub a b)) u v).

(** The input vector at a position, as the distances see it. *)
Definition input_vector (vq : VectorQuantizer F) (z : Tensor F) (b h w : nat) : list F :=
  let v := map (fun c => get4 z b c h w) (seq 0 (e_dim vq)) in
  if l2_norm vq then normalize v else v.

End Vocabulary.

(* ------------------------------------------------------------------ *)
(** ** Concrete quantizers and feature maps *)

Import RealScalar.
Import Binary32.

(** A quantizer over the reals with the codes 0 and 1, as [__init__]
    builds it. *)
Definition built_vq : VectorQuantizer R :=
  mkVQ 2 1 (1 / 4)%R 0%R false true [[0%R]; [1%R]]
       (Some (repeat 0%R buffer_size)) true true true.

(** The same quantizer after the move to its device. *)
Definition demo_vq : VectorQuantizer R :=
  mkVQ 2 1 (1 / 4)%R 0%R false true [[0%R]; [1%R]]
       (Some (repeat 0%R buffer_size)) true false true.

(** One image of two positions, with values 0 and 1. *)
Definition demo_z : Tensor R := mkTensor [1; 1; 1; 2] [0%R; 1%R].


(** A quantizer over the reals with normalization and the single code 1,
    moved to its device. *)
Definition unit_vq : VectorQuantizer R :=
  mkVQ 1 1 (1 / 4)%R 0%R true true (map normalize [[1%R]])
       (Some (repeat 0%R buffer_size)) true false true.

Definition two_z : Tensor R := mkTensor [1; 1; 1; 1] [2%R].

(** A model whose disentanglement ratio is 1/2. *)
Definition half_ratio_model : VQModel R :=
  let cfg := mkModelArgs 1 1 true true (1 / 4)%R 0%R [1; 1; 2; 2; 4] [1; 1; 2; 2; 4]
                         256 0%R false true (1 / 2)%R in
  mkVQModel cfg unit_vq unit_vq unit_vq 5.

(** A quantizer in binary32 with the single code 2^-30, without
    normalization and usage tracking, in evaluation mode. *)
Definition tiny_vq : VectorQuantizer float32 :=
  train false
    (mkVQ 1 1 (lit 1 4) (of_Z 0) false false
          [[S754_finite false 8388608 (-53)]] None true true true).

(** A feature map of one position with the value 1.0. *)
Definition one_z : Tensor float32 := mkTensor [1; 1; 1; 1] [of_Z 1].

(** A binary32 codebook with the two codes 1.0 and 2.0. *)
Definition pair_vq : VectorQuantizer float32 :=
  train false
    (mkVQ 2 1 (lit 1 4) (of_Z 0) false false [[of_Z 1]; [of_Z 2]] None true true true).

(** A binary32 quantizer with the two codes 4097.0 and 4096.0, without
    normalization and usage tracking, in evaluation mode. *)
Definition near_vq : VectorQuantizer float32 :=
  train false
    (mkVQ 2 1 (lit 1 4) (of_Z 0) false false [[of_Z 4097]; [of_Z 4096]] None true
          true true).

(** A feature map of one position with the value 4096.0. *)
Definition near_z : Tensor float32 := mkTensor [1; 1; 1; 1] [of_Z 4096].

(** A binary32 model whose disentanglement ratio is 1. *)
Definition unit_ratio_model : VQModel float32 :=
  let cfg := mkModelArgs 2 1 false false (lit 1 4) (of_Z 0) [1; 1; 2; 2; 4]
                         [1; 1; 2; 2; 4] 256 (of_Z 0) false true (of_Z 1) in
  mkVQModel cfg near_vq near_vq near_vq 5.

(** A map of one position that holds the vector (1, 4) as binary32
    normalizes it. *)
Definition unit_pair_z : Tensor float32 :=
  mkTensor [1; 2; 1; 1] (normalize [of_Z 1; of_Z 4]).


(** A binary32 quantizer with normalization whose single stored row is 0. *)
Definition zero_vq : VectorQuantizer float32 :=
  train false
    (mkVQ 1 1 (lit 1 4) (of_Z 0) true false (map normalize [[of_Z 0]]) None true
          true true).

(* ------------------------------------------------------------------ *)
(* ------------------------------------------------------------------ *)
(** ** More vocabulary *)

(** The row a (possibly negative) index selects in a table of [n] rows. *)
Definition row_index (n : nat) (i : Z) : nat :=
  Z.to_nat (if (i <? 0)%Z then i + Z.of_nat n else i)%Z.

(** Indices that a table of [n] rows accepts. *)
Definition wrap_range (n : nat) (idx : list Z) : Prop :=
  Forall (fun i => (- Z.of_nat n <= i < Z.of_nat n)%Z) idx.

(** The rows selected by a list of indices that may count from the end. *)
Definition gather_wrap {F : Type} (table : list (list F)) (idx : list Z) : list (list F) :=
  map (fun i => nth (row_index (length table) i) table []) idx.

(** The module after a run of calls. *)
Fixpoint final_state {F : Type} (vq : VectorQuantizer F)
         (trace : list (ForwardOutput F * VectorQuantizer F)) : VectorQuantizer F :=
  match trace with
  | [] => vq
  | (_, vq') :: rest => final_state vq' rest
  end.

(** Every index a run of calls has assigned, in order, as the buffer
    stores them. *)
Definition assigned {F : Type} {SF : Scalar F}
           (trace : list (ForwardOutput F * VectorQuantizer F)) : list F :=
  flat_map (fun r => map of_Z (idata (min_encoding_indices (fst r)))) trace.

(* ------------------------------------------------------------------ *)
(** ** The calls of [VQModel] *)

Section VQModelCalls.
Context {F : Type} {SF : Scalar F}.

(** The layers of the network: the encoder with its three heads, the
    four 1x1 convolutions, the pixel decoder and the two feature
    prediction heads. Each enters as a function of its input, which may
    raise. *)
Record Layers : Type := mkLayers {
  encoder_forward : Tensor F -> result (Tensor F * Tensor F * Tensor F);
  quant_conv_vis : Tensor F -> result (Tensor F);
  quant_conv_sem_mid : Tensor F -> result (Tensor F);
  quant_conv_sem_high : Tensor F -> result (Tensor F);
  post_quant_conv : Tensor F -> result (Tensor F);
  decoder_forward : Tensor F -> result (Tensor F);
  mid_sem_feat_pred : Tensor F -> result (Tensor F);
  high_sem_feat_pred : Tensor F -> result (Tensor F)
}.

(** [torch.cat] passes over a 1-d tensor without elements. *)
Definition cat_skipped (t : Tensor F) : bool :=
  match shape t with
  | [O] => true
  | _ => false
  end.

(** [torch.cat([first, *others], dim=1)]: the tensors agree in the number
    of dimensions and in every size but the second; the result holds,
    for each index of the first dimension, the slices of the tensors one
    after the other. *)
Definition cat_dim1_of (first : Tensor F) (others : list (Tensor F))
  : result (Tensor F) :=
  match filter (fun t => negb (cat_skipped t)) (first :: others) with
  | [] => Ok (mkTensor [0] [])
  | t0 :: rest =>
      match shape t0 with
      | d0 :: _ :: tail =>
          if forallb (fun t =>
                        match shape t with
                        | e0 :: _ :: etail =>
                            (e0 =? d0) &&
                            (if list_eq_dec Nat.eq_dec etail tail then true else false)
                        | _ => false
                        end) rest
          then
            let size1 t := nth 1 (shape t) 0 in
            Ok (mkTensor
                  (d0 :: list_sum (map size1 (t0 :: rest)) :: tail)
                  (flat_map
                     (fun i =>
                        flat_map (fun t => nth i (chunk d0 (size1 t * numel tail) (data t)) [])
                                 (t0 :: rest))
                     (seq 0 d0)))
          else Err ShapeError
      | _ => Err IndexError
      end
  end.

(** [torch.cat([a, b, c], dim=1)] *)
Definition cat_dim1 (a b c : Tensor F) : result (Tensor F) := cat_dim1_of a [b; c].

(** The tuples [forward] of the quantizer returns beside the map. *)
Definition emb_loss (out : ForwardOutput F) : option F * option F * option F * Q :=
  (vq_loss out, commit_loss out, entropy_loss out, codebook_usage out).

Definition info (out : ForwardOutput F) : option F * option (Tensor F) * IndexTensor :=
  (perplexity out, min_encodings out, min_encoding_indices out).

(** The model after calls of its three quantizers. *)
Definition set_quantizers (self : VQModel F) (q_vis q_mid q_high : VectorQuantizer F)
  : VQModel F :=
  mkVQModel (config self) q_vis q_mid q_high (num_resolutions self).

Record VQModelOutput : Type := mkVQModelOutput {
  dec : Tensor F;
  emb_loss_vis : option F * option F * option F * Q;
  emb_loss_sem_mid : option F * option F * option F * Q;
  emb_loss_sem_high : option F * option F * option F * Q;
  disentangle_loss : F;               (* 0 without disentanglement *)
  mid_lvl_sem_feat : option (Tensor F);
  high_lvl_sem_feat : option (Tensor F)
}.

(** [VQModel.decode] *)
Definition VQModel_decode (net : Layers) (quant : Tensor F) : result (Tensor F) :=
  quant <- post_quant_conv net quant ;;
  decoder_forward net quant.

(** [VQModel.forward] *)
Definition VQModel_forward (net : Layers) (self : VQModel F) (input : Tensor F)
  : result (VQModelOutput * VQModel F) :=
  ' (h_vis, h_sem_mid, h_sem_high) <- encoder_forward net input ;;
  h_vis <- quant_conv_vis net h_vis ;;
  h_sem_mid <- quant_conv_sem_mid net h_sem_mid ;;
  h_sem_high <- quant_conv_sem_high net h_sem_high ;;
  ' (out_vis, q_vis) <- forward (quantize_vis self) h_vis ;;
  ' (out_mid, q_mid) <- forward (quantize_sem_mid self) h_sem_mid ;;
  ' (out_high, q_high) <- forward (quantize_sem_high self) h_sem_high ;;
  let quant_vis := z_q out_vis in
  let quant_sem_mid := z_q out_mid in
  let quant_sem_high := z_q out_high in
  ' (mid_lvl_sem_feat, high_lvl_sem_feat) <-
    (if with_clip_supervision (config self)
     then
       m <- mid_sem_feat_pred net quant_sem_mid ;;
       h <- high_sem_feat_pred net quant_sem_high ;;
       Ok (Some m, Some h)
     else Ok (None, None)) ;;
  disentangle_loss <-
    (if with_disentanglement (config self)
     then
       l1 <- compute_disentangle_loss self quant_vis quant_sem_mid ;;
       l2 <- compute_disentangle_loss self quant_vis quant_sem_high ;;
       l3 <- compute_disentangle_loss self quant_sem_mid quant_sem_high ;;
       Ok (div (add (add l1 l2) l3) (of_Z 3))
     else Ok zero) ;;
  quant <- cat_dim1 quant_vis quant_sem_mid quant_sem_high ;;
  dec <- VQModel_decode net quant ;;
  Ok (mkVQModelOutput dec (emb_loss out_vis) (emb_loss out_mid) (emb_loss out_high)
                      disentangle_loss mid_lvl_sem_feat high_lvl_sem_feat,
      set_quantizers self q_vis q_mid q_high).

(** [VQModel.encode] *)
Definition VQModel_encode (net : Layers) (self : VQModel F) (x : Tensor F)
  : result ((Tensor F * Tensor F * Tensor F
             * (option F * option (Tensor F) * IndexTensor)
             * (option F * option (Tensor F) * IndexTensor)
             * (option F * option (Tensor F) * IndexTensor))
            * VQModel F) :=
  ' (h_vis, h_sem_mid, h_sem_high) <- encoder_forward net x ;;
  h_vis <- quant_conv_vis net h_vis ;;
  h_sem_mid <- quant_conv_sem_mid net h_sem_mid ;;
  h_sem_high <- quant_conv_sem_high net h_sem_high ;;
  ' (out_vis, q_vis) <- forward (quantize_vis self) h_vis ;;
  ' (out_mid, q_mid) <- forward (quantize_sem_mid self) h_sem_mid ;;
  ' (out_high, q_high) <- forward (quantize_sem_high self) h_sem_high ;;
  Ok ((z_q out_vis, z_q out_mid, z_q out_high, info out_vis, info out_mid, info out_high),
      set_quantizers self q_vis q_mid q_high).

(** [VQModel.decode_code] *)
Definition VQModel_decode_code (net : Layers) (self : VQModel F)
           (indices_vis indices_sem_mid indices_sem_high : IndexTensor)
           (shape_vis shape_sem_mid shape_sem_high : option (list nat))
           (channel_first : bool) : result (Tensor F) :=
  quant_vis <-
    get_codebook_entry (quantize_vis self) indices_vis shape_vis channel_first ;;
  quant_sem_mid <-
    get_codebook_entry (quantize_sem_mid self) indices_sem_mid shape_sem_mid
                       channel_first ;;
  quant_sem_high <-
    get_codebook_entry (quantize_sem_high self) indices_sem_high shape_sem_high
                       channel_first ;;
  quant <- cat_dim1 quant_vis quant_sem_mid quant_sem_high ;;
  VQModel_decode net quant.

(** The heads of the encoder, after their convolutions, hand the three
    quantizers maps of one shape. *)
Definition heads_ready (net : Layers) (x : Tensor F) (B C H W : nat)
           (z_vis z_mid z_high : Tensor F) : Prop :=
  exists h_vis h_mid h_high,
    encoder_forward net x = Ok (h_vis, h_mid, h_high) /\
    quant_conv_vis net h_vis = Ok z_vis /\
    quant_conv_sem_mid net h_mid = Ok z_mid /\
    quant_conv_sem_high net h_high = Ok z_high /\
    shape z_vis = [B; C; H; W] /\ shape z_mid = [B; C; H; W] /\
    shape z_high = [B; C; H; W].

(** The three quantizers of a model as [__init__] builds them: codebooks
    of one width. *)
Definition quantizers_ok (self : VQModel F) (C : nat) : Prop :=
  codebook_ok (quantize_vis self) /\ codebook_ok (quantize_sem_mid self) /\
  codebook_ok (quantize_sem_high self) /\
  e_dim (quantize_vis self) = C /\ e_dim (quantize_sem_mid self) = C /\
  e_dim (quantize_sem_high self) = C.

Definition eval_mode (self : VQModel F) : Prop :=
  training (quantize_vis self) = false /\
  training (quantize_sem_mid self) = false /\
  training (quantize_sem_high self) = false.

End VQModelCalls.

Arguments Layers F : clear implicits.
Arguments VQModelOutput F : clear implicits.

(** Layers that hand their input on: the encoder gives its input to each
    of its three heads. *)
Definition passthrough : Layers R :=
  mkLayers (fun x => Ok (x, x, x)) (fun x => Ok x) (fun x => Ok x) (fun x => Ok x)
           (fun x => Ok x) (fun x => Ok x) (fun x => Ok x) (fun x => Ok x).

(** A model in evaluation mode, without feature heads and without the
    disentanglement term. *)
Definition eval_model : VQModel R :=
  let cfg := mkModelArgs 1 1 true true (1 / 4)%R 0%R [1; 1; 2; 2; 4] [1; 1; 2; 2; 4]
                         256 0%R false false 0%R in
  mkVQModel cfg (train false unit_vq) (train false unit_vq) (train false unit_vq) 5.

(* ------------------------------------------------------------------ *)
(** ** The activation *)

Section Activation.
Context {F : Type} {SF : Scalar F}.

(** [torch.sigmoid] on one element. *)
Definition sigmoid (x : F) : F := div (of_Z 1) (add (of_Z 1) (exp (opp x))).

(** [nonlinearity]: swish, element by element. *)
Definition nonlinearity (x : Tensor F) : Tensor F :=
  mkTensor (shape x) (map2 mul (data x) (map sigmoid (data x))).
End Activation.

(** What [VectorQuantizer.__init__] builds from the configuration of a
    model, for a codebook size other than 0. *)
Definition fresh_quantizer {F : Type} {SF : Scalar F} (cfg : ModelArgs F)
           (u : list (list F)) : VectorQuantizer F :=
  mkVQ (codebook_size cfg) (codebook_embed_dim cfg) (commit_loss_beta cfg)
       (args_entropy_loss_ratio cfg) (codebook_l2_norm cfg) (codebook_show_usage cfg)
       (if codebook_l2_norm cfg then map normalize u else u)
       (if codebook_show_usage cfg then Some (repeat zero buffer_size) else None)
       true true true.

(* ------------------------------------------------------------------ *)
(** ** The layers of the network *)

Module Net.
Section Layers.
Context {F : Type} {SF : Scalar F}.

(** A layer of the network: a function of its input that may raise. *)
Definition NNModule : Type := Tensor F -> result (Tensor F).

(** The layers and functions of torch that the network is built from.
    They enter as parameters, with the weights they hold; a layer is
    given by the arguments of its constructor. What a property needs of
    them is stated with it. *)
Record Torch : Type := mkTorch {
  (* nn.Conv2d(in_channels, out_channels, kernel_size, stride, padding) *)
  Conv2d : nat -> nat -> nat -> nat -> nat -> NNModule;
  (* nn.GroupNorm(num_groups, num_channels, eps=1e-6, affine=True); the
     constructor checks its arguments *)
  GroupNorm : nat -> nat -> result NNModule;
  (* nn.SyncBatchNorm(num_features) *)
  SyncBatchNorm : nat -> NNModule;
  (* nn.Dropout(p); the constructor checks its argument *)
  Dropout : F -> result NNModule;
  (* nn.LayerNorm(normalized_shape) *)
  LayerNorm : nat -> NNModule;
  (* nn.MultiheadAttention(embed_dim, num_heads), called as
     attn(x, x, x, need_weights=False)[0]; the constructor checks its
     arguments *)
  MultiheadAttention : nat -> nat -> result NNModule;
  (* nn.Linear(in_features, out_features) *)
  Linear : nat -> nat -> NNModule;
  GELU : NNModule;
  ReLU : NNModule;
  (* torch.randn(size) *)
  randn : list nat -> Tensor F;
  (* x + y, with broadcasting *)
  tensor_add : Tensor F -> Tensor F -> result (Tensor F);
  (* F.pad(x, (0, 1, 0, 1), mode="constant", value=0) *)
  pad_0101 : NNModule;
  (* F.avg_pool2d(x, kernel_size=2, stride=2) *)
  avg_pool2d : NNModule;
  (* F.interpolate(x, scale_factor=2.0, mode="nearest") *)
  interpolate : NNModule
}.

Variable T : Torch.

(** A tensor of a given shape, with as many elements as the shape holds. *)
Definition has_shape (t : Tensor F) (sh : list nat) : Prop :=
  shape t = sh /\ length (data t) = numel sh.

(** Element [i,j,k] of a 3-d tensor. *)
Definition get3 (t : Tensor F) (i j k : nat) : F :=
  match shape t with
  | [_; n2; n3] => nth ((i * n2 + j) * n3 + k) (data t) zero
  | _ => zero
  end.

(** [t.permute(0, 2, 1)] *)
Definition permute_021 (t : Tensor F) : result (Tensor F) :=
  match shape t with
  | [b; n; m] => Ok (mkTensor [b; m; n] (tabulate3 b m n (fun i j k => get3 t i k j)))
  | _ => Err ShapeError
  end.

(** [t.permute(1, 0, 2)] *)
Definition permute_102 (t : Tensor F) : result (Tensor F) :=
  match shape t with
  | [n; b; m] => Ok (mkTensor [b; n; m] (tabulate3 b n m (fun i j k => get3 t j i k)))
  | _ => Err ShapeError
  end.

(** [torch.bmm(x, y)]: the products of the matrices of two batches. *)
Definition bmm (x y : Tensor F) : result (Tensor F) :=
  match shape x, shape y with
  | [b; n; m], [b'; m'; p] =>
      if (b =? b') && (m =? m')
      then Ok (mkTensor [b; n; p]
                 (tabulate3 b n p (fun i r c =>
                    sum (map (fun l => mul (get3 x i r l) (get3 y i l c)) (seq 0 m)))))
      else Err ShapeError
  | _, _ => Err ShapeError
  end.

(** [F.softmax(t, dim=2)] of a 3-d tensor. *)
Definition softmax_dim2 (t : Tensor F) : result (Tensor F) :=
  match shape t with
  | [b; n; m] => Ok (mkTensor [b; n; m] (concat (map softmax (chunk (b * n) m (data t)))))
  | _ => Err ShapeError
  end.

(** [t * s] for a number [s]. *)
Definition scale_by (t : Tensor F) (s : F) : Tensor F :=
  mkTensor (shape t) (map (fun x => mul x s) (data t)).

(** [c ** (-0.5)] for an int [c]. *)
Definition rsqrt_int (c : nat) : result F :=
  if c =? 0 then Err ZeroDivisionError
  else Ok (div (of_Z 1) (sqrt (of_Z (Z.of_nat c)))).

(** The two values of [norm_type] that [Normalize] asserts. *)
Inductive NormType : Type := group | batch.

(** [Normalize] *)
Definition Normalize (in_channels : nat) (norm_type : NormType) : result NNModule :=
  match norm_type with
  | group => GroupNorm T 32 in_channels
  | batch => Ok (SyncBatchNorm T in_channels)
  end.

(** *** AttnBlock *)

Record AttnBlock : Type := mkAttnBlock {
  ab_norm : NNModule;
  ab_q : NNModule;
  ab_k : NNModule;
  ab_v : NNModule;
  ab_proj_out : NNModule
}.

Definition AttnBlock_init (in_channels : nat) (norm_type : NormType) : result AttnBlock :=
  norm <- Normalize in_channels norm_type ;;
  Ok (mkAttnBlock norm
        (Conv2d T in_channels in_channels 1 1 0)
        (Conv2d T in_channels in_channels 1 1 0)
        (Conv2d T in_channels in_channels 1 1 0)
        (Conv2d T in_channels in_channels 1 1 0)).

Definition AttnBlock_forward (self : AttnBlock) (x : Tensor F) : result (Tensor F) :=
  let h_ := x in
  h_ <- ab_norm self h_ ;;
  q <- ab_q self h_ ;;
  k <- ab_k self h_ ;;
  v <- ab_v self h_ ;;
  (* compute attention *)
  match shape q with
  | [b; c; h; w] =>
      q <- reshape q [b; c; h * w] ;;
      q <- permute_021 q ;;
      k <- reshape k [b; c; h * w] ;;
      w_ <- bmm q k ;;
      s <- rsqrt_int c ;;
      let w_ := scale_by w_ s in
      w_ <- softmax_dim2 w_ ;;
      (* attend to values *)
      v <- reshape v [b; c; h * w] ;;
      w_ <- permute_021 w_ ;;
      h_ <- bmm v w_ ;;
      h_ <- reshape h_ [b; c; h; w] ;;
      h_ <- ab_proj_out self h_ ;;
      tensor_add T x h_
  | _ => Err ValueError
  end.

(** *** ResnetBlock *)

Record ResnetBlock : Type := mkResnetBlock {
  rb_in_channels : nat;
  rb_out_channels : nat;
  rb_use_conv_shortcut : bool;
  rb_norm1 : NNModule;
  rb_conv1 : NNModule;
  rb_norm2 : NNModule;
  rb_dropout : NNModule;
  rb_conv2 : NNModule;
  rb_conv_shortcut : option NNModule;
  rb_nin_shortcut : option NNModule
}.

Definition ResnetBlock_init (in_channels : nat) (out_channels : option nat)
           (conv_shortcut : bool) (dropout : F) (norm_type : NormType)
  : result ResnetBlock :=
  let out_channels :=
    match out_channels with None => in_channels | Some c => c end in
  norm1 <- Normalize in_channels norm_type ;;
  let conv1 := Conv2d T in_channels out_channels 3 1 1 in
  norm2 <- Normalize out_channels norm_type ;;
  dropout <- Dropout T dropout ;;
  let conv2 := Conv2d T out_channels out_channels 3 1 1 in
  let differ := negb (in_channels =? out_channels) in
  Ok (mkResnetBlock in_channels out_channels conv_shortcut
        norm1 conv1 norm2 dropout conv2
        (if differ && conv_shortcut
         then Some (Conv2d T in_channels out_channels 3 1 1) else None)
        (if differ && negb conv_shortcut
         then Some (Conv2d T in_channels out_channels 1 1 0) else None)).

(** The call of a layer that is an attribute only in some cases. *)
Definition call (f : option NNModule) (x : Tensor F) : result (Tensor F) :=
  match f with
  | Some f => f x
  | None => Err AttributeError
  end.

Definition ResnetBlock_forward (self : ResnetBlock) (x : Tensor F) : result (Tensor F) :=
  let h := x in
  h <- rb_norm1 self h ;;
  let h := nonlinearity h in
  h <- rb_conv1 self h ;;
  h <- rb_norm2 self h ;;
  let h := nonlinearity h in
  h <- rb_dropout self h ;;
  h <- rb_conv2 self h ;;
  x <- (if negb (rb_in_channels self =? rb_out_channels self)
        then
          if rb_use_conv_shortcut self then call (rb_conv_shortcut self) x
          else call (rb_nin_shortcut self) x
        else Ok x) ;;
  tensor_add T x h.

(** *** Upsample and Downsample *)

Record Upsample : Type := mkUpsample {
  us_with_conv : bool;
  us_conv : option NNModule
}.

Definition Upsample_init (in_channels : nat) (with_conv : bool) : Upsample :=
  mkUpsample with_conv
    (if with_conv then Some (Conv2d T in_channels in_channels 3 1 1) else None).

Definition Upsample_forward (self : Upsample) (x : Tensor F) : result (Tensor F) :=
  x <- interpolate T x ;;
  if us_with_conv self then call (us_conv self) x else Ok x.

Record Downsample : Type := mkDownsample {
  ds_with_conv : bool;
  ds_conv : option NNModule
}.

Definition Downsample_init (in_channels : nat) (with_conv : bool) : Downsample :=
  mkDownsample with_conv
    (if with_conv then Some (Conv2d T in_channels in_channels 3 2 0) else None).

Definition Downsample_forward (self : Downsample) (x : Tensor F) : result (Tensor F) :=
  if ds_with_conv self
  then
    x <- pad_0101 T x ;;
    call (ds_conv self) x
  else avg_pool2d T x.

(** *** ResidualAttentionBlock *)

Record ResidualAttentionBlock : Type := mkResidualAttentionBlock {
  rab_ln_1 : NNModule;
  rab_attn : NNModule;
  rab_mlp_ratio : Q;
  rab_ln_2 : option NNModule;
  rab_c_fc : option NNModule;
  rab_c_proj : option NNModule
}.

Definition ResidualAttentionBlock_init (d_model n_head : nat) (mlp_ratio : Q)
  : result ResidualAttentionBlock :=
  let ln_1 := LayerNorm T d_model in
  attn <- MultiheadAttention T d_model n_head ;;
  if Qlt_le_dec 0 mlp_ratio
  then
    let ln_2 := LayerNorm T d_model in
    (* int(d_model * mlp_ratio) *)
    let mlp_width :=
      Z.to_nat (Z.of_nat d_model * Qnum mlp_ratio / Zpos (Qden mlp_ratio)) in
    Ok (mkResidualAttentionBlock ln_1 attn mlp_ratio (Some ln_2)
          (Some (Linear T d_model mlp_width)) (Some (Linear T mlp_width d_model)))
  else Ok (mkResidualAttentionBlock ln_1 attn mlp_ratio None None None).

Definition ResidualAttentionBlock_forward (self : ResidualAttentionBlock)
           (x : Tensor F) : result (Tensor F) :=
  attn_output <- (h <- rab_ln_1 self x ;; rab_attn self h) ;;
  x <- tensor_add T x attn_output ;;
  if Qlt_le_dec 0 (rab_mlp_ratio self)
  then
    h <- call (rab_ln_2 self) x ;;
    h <- call (rab_c_fc self) h ;;
    h <- GELU T h ;;
    h <- call (rab_c_proj self) h ;;
    tensor_add T x h
  else Ok x.

(** [for i in range(num_layers): x = self.transformer[i](x)] *)
Fixpoint transformer_loop (transformer : list ResidualAttentionBlock)
         (indices : list nat) (x : Tensor F) : result (Tensor F) :=
  match indices with
  | [] => Ok x
  | i :: rest =>
      match nth_error transformer i with
      | Some blk =>
          x <- ResidualAttentionBlock_forward blk x ;;
          transformer_loop transformer rest x
      | None => Err IndexError
      end
  end.

(** [_expand_token] *)
Definition _expand_token (token : Tensor F) (batch_size : nat) : result (Tensor F) :=
  match shape token with
  | [a; w] =>
      Ok (mkTensor [batch_size; a; w] (concat (repeat (data token) batch_size)))
  | [w] =>
      Ok (mkTensor [batch_size; 1; w] (concat (repeat (data token) batch_size)))
  | _ => Err ShapeError
  end.

(** [rearrange(x, 'b c h w -> b (h w) c')] *)
Definition rearrange_bchw_b_hw_c (x : Tensor F) : result (Tensor F) :=
  match shape x with
  | [b; c; h; w] =>
      Ok (mkTensor [b; h * w; c] (tabulate4 b h w c (fun i y x' k => get4 x i k y x')))
  | _ => Err ShapeError
  end.

(** [rearrange(x, 'b (h w) c -> b c h w', h=h)] *)
Definition rearrange_b_hw_c_bchw (x : Tensor F) (h : nat) : result (Tensor F) :=
  match shape x with
  | [b; l; c] =>
      if (h =? 0) || negb (l mod h =? 0) then Err ShapeError
      else permute_0312 (mkTensor [b; h; l / h; c] (data x))
  | _ => Err ShapeError
  end.

(** [n] layers built by the same call. *)
Fixpoint build_layers {A : Type} (n : nat) (new : result A) : result (list A) :=
  match n with
  | O => Ok []
  | S n' => a <- new ;; rest <- build_layers n' new ;; Ok (a :: rest)
  end.

(** [256 // down_factor] *)
Definition grid_of (down_factor : nat) : result nat :=
  if down_factor =? 0 then Err ZeroDivisionError else Ok (256 / down_factor).

(** *** FactorizedAdapter *)

Record FactorizedAdapter : Type := mkFactorizedAdapter {
  fa_grid_size : nat;
  fa_width : nat;
  fa_num_layers : nat;
  fa_num_heads : nat;
  fa_positional_embedding : Tensor F;
  fa_ln_pre : NNModule;
  fa_transformer : list ResidualAttentionBlock;
  fa_ln_post : NNModule
}.

Definition FactorizedAdapter_init (down_factor : nat) : result FactorizedAdapter :=
  grid_size <- grid_of down_factor ;;
  let width := 512 in
  let num_layers := 6 in
  let num_heads := 8 in
  scale <- rsqrt_int width ;;
  let positional_embedding := scale_by (randn T [grid_size * grid_size; width]) scale in
  let ln_pre := LayerNorm T width in
  transformer <-
    build_layers num_layers (ResidualAttentionBlock_init width num_heads (4 # 1)) ;;
  let ln_post := LayerNorm T width in
  Ok (mkFactorizedAdapter grid_size width num_layers num_heads positional_embedding
        ln_pre transformer ln_post).

Definition FactorizedAdapter_forward (self : FactorizedAdapter) (x : Tensor F)
  : result (Tensor F) :=
  match rev (shape x) with
  | [] => Err IndexError
  | h :: _ =>
      x <- rearrange_bchw_b_hw_c x ;;
      x <- tensor_add T x (fa_positional_embedding self) ;;
      x <- fa_ln_pre self x ;;
      x <- permute_102 x ;;
      x <- transformer_loop (fa_transformer self) (seq 0 (fa_num_layers self)) x ;;
      x <- permute_102 x ;;
      x <- fa_ln_post self x ;;
      rearrange_b_hw_c_bchw x h
  end.

(** *** FeatPredHead *)

Record FeatPredHead : Type := mkFeatPredHead {
  fp_grid_size : nat;
  fp_width : nat;
  fp_num_layers : nat;
  fp_num_heads : nat;
  fp_upscale_0 : NNModule;
  fp_upscale_2 : NNModule;
  fp_class_embedding : Tensor F;
  fp_positional_embedding : Tensor F;
  fp_ln_pre : NNModule;
  fp_transformer : list ResidualAttentionBlock;
  fp_ln_post : NNModule
}.

Definition FeatPredHead_init (input_dim out_dim down_factor : nat) : result FeatPredHead :=
  grid_size <- grid_of down_factor ;;
  let width := out_dim in
  let num_layers := 3 in
  let num_heads := 8 in
  let in_dim := input_dim in
  let out_dim := width in
  let upscale_0 := Linear T in_dim out_dim in
  let upscale_2 := Linear T out_dim out_dim in
  scale <- rsqrt_int width ;;
  let class_embedding := scale_by (randn T [1; width]) scale in
  let positional_embedding :=
    scale_by (randn T [grid_size * grid_size + 1; width]) scale in
  let ln_pre := LayerNorm T width in
  transformer <-
    build_layers num_layers (ResidualAttentionBlock_init width num_heads (4 # 1)) ;;
  let ln_post := LayerNorm T width in
  Ok (mkFeatPredHead grid_size width num_layers num_heads upscale_0 upscale_2
        class_embedding positional_embedding ln_pre transformer ln_post).

Definition FeatPredHead_forward (self : FeatPredHead) (x : Tensor F) : result (Tensor F) :=
  x <- rearrange_bchw_b_hw_c x ;;
  x <- (h <- fp_upscale_0 self x ;; h <- ReLU T h ;; fp_upscale_2 self h) ;;
  token <- _expand_token (fp_class_embedding self) (hd 0 (shape x)) ;;
  x <- cat_dim1_of token [x] ;;
  x <- tensor_add T x (fp_positional_embedding self) ;;
  x <- fp_ln_pre self x ;;
  x <- permute_102 x ;;
  x <- transformer_loop (fp_transformer self) (seq 0 (fp_num_layers self)) x ;;
  x <- permute_102 x ;;
  fp_ln_post self x.

(** *** Encoder and Decoder *)

(** The blocks of one level. *)
Record ConvBlock : Type := mkConvBlock {
  cb_res : list ResnetBlock;
  cb_attn : list AttnBlock;
  cb_downsample : option Downsample;
  cb_upsample : option Upsample
}.

(** A block of the list [mid]. *)
Inductive MidBlock : Type :=
| MidResnet (blk : ResnetBlock)
| MidAttn (blk : AttnBlock).

Definition MidBlock_forward (blk : MidBlock) (x : Tensor F) : result (Tensor F) :=
  match blk with
  | MidResnet r => ResnetBlock_forward r x
  | MidAttn a => AttnBlock_forward a x
  end.

(** A loop whose body may raise. *)
Fixpoint foldM {A S : Type} (f : S -> A -> result S) (l : list A) (s : S) : result S :=
  match l with
  | [] => Ok s
  | a :: l' => s' <- f s a ;; foldM f l' s'
  end.

(** [i == n - 1] on Python ints. *)
Definition is_last (i n : nat) : bool := (Z.of_nat i =? Z.of_nat n - 1)%Z.

(** [l[i]] for [i >= 0]. *)
Definition item {A : Type} (l : list A) (i : nat) : result A :=
  match nth_error l i with
  | Some a => Ok a
  | None => Err IndexError
  end.

(** The inner loop of both [__init__] methods: [count] residual blocks
    from [block_in] to [block_out] channels, each followed by an
    attention block on the last level. *)
Definition build_level (block_in block_out count : nat) (last_level : bool)
           (dropout : F) (norm_type : NormType)
  : result (nat * list ResnetBlock * list AttnBlock) :=
  foldM (fun '(block_in, res_block, attn_block) _ =>
           r <- ResnetBlock_init block_in (Some block_out) false dropout norm_type ;;
           let block_in := block_out in
           if last_level
           then
             a <- AttnBlock_init block_in norm_type ;;
             Ok (block_in, res_block ++ [r], attn_block ++ [a])
           else Ok (block_in, res_block ++ [r], attn_block))
        (seq 0 count) (block_in, [], []).

Record Encoder : Type := mkEncoder {
  num_resolutions : nat;
  num_res_blocks : nat;
  conv_in : NNModule;
  conv_blocks : list ConvBlock;
  mid : list MidBlock;
  semantic_head_mid : list FactorizedAdapter;
  semantic_head_high : list FactorizedAdapter;
  visual_head : list FactorizedAdapter;
  norm_out_sem_mid : NNModule;
  conv_out_sem_mid : NNModule;
  norm_out_sem_high : NNModule;
  conv_out_sem_high : NNModule;
  norm_out_vis : NNModule;
  conv_out_vis : NNModule
}.

Definition Encoder_init (in_channels ch : nat) (ch_mult : list nat)
           (num_res_blocks : nat) (norm_type : NormType) (dropout : F)
           (resamp_with_conv : bool) (z_channels : nat) : result Encoder :=
  let num_resolutions := length ch_mult in
  let conv_in := Conv2d T in_channels ch 3 1 1 in
  (* downsampling *)
  let in_ch_mult := 1 :: ch_mult in
  ' (block_in, conv_blocks) <-
    foldM (fun '(_, conv_blocks) i_level =>
             m_in <- item in_ch_mult i_level ;;
             m_out <- item ch_mult i_level ;;
             let block_in := ch * m_in in
             let block_out := ch * m_out in
             ' (block_in, res_block, attn_block) <-
               build_level block_in block_out num_res_blocks
                           (is_last i_level num_resolutions) dropout norm_type ;;
             let downsample :=
               if negb (is_last i_level num_resolutions)
               then Some (Downsample_init block_in resamp_with_conv) else None in
             Ok (Some block_in,
                 conv_blocks ++ [mkConvBlock res_block attn_block downsample None]))
          (seq 0 num_resolutions) (None, []) ;;
  (* middle *)
  block_in <- match block_in with Some c => Ok c | None => Err UnboundLocalError end ;;
  m1 <- ResnetBlock_init block_in (Some block_in) false dropout norm_type ;;
  m2 <- AttnBlock_init block_in norm_type ;;
  m3 <- ResnetBlock_init block_in (Some block_in) false dropout norm_type ;;
  let mid := [MidResnet m1; MidAttn m2; MidResnet m3] in
  down_factor <- down_factor num_resolutions ;;
  sem_mid <- FactorizedAdapter_init down_factor ;;
  sem_high <- FactorizedAdapter_init down_factor ;;
  vis <- FactorizedAdapter_init down_factor ;;
  (* end *)
  norm_out_sem_mid <- Normalize block_in norm_type ;;
  let conv_out_sem_mid := Conv2d T block_in z_channels 3 1 1 in
  norm_out_sem_high <- Normalize block_in norm_type ;;
  let conv_out_sem_high := Conv2d T block_in z_channels 3 1 1 in
  norm_out_vis <- Normalize block_in norm_type ;;
  let conv_out_vis := Conv2d T block_in z_channels 3 1 1 in
  Ok (mkEncoder num_resolutions num_res_blocks conv_in conv_blocks mid
        [sem_mid] [sem_high] [vis]
        norm_out_sem_mid conv_out_sem_mid norm_out_sem_high conv_out_sem_high
        norm_out_vis conv_out_vis).

(** The inner loop of both [forward] methods: the residual blocks of a
    level, each followed by its attention block if the level has any. *)
Definition run_level (block : ConvBlock) (count : nat) (h : Tensor F)
  : result (Tensor F) :=
  foldM (fun h i_block =>
           r <- item (cb_res block) i_block ;;
           h <- ResnetBlock_forward r h ;;
           if 0 <? length (cb_attn block)
           then
             a <- item (cb_attn block) i_block ;;
             AttnBlock_forward a h
           else Ok h)
        (seq 0 count) h.

(** [for i_level, block in enumerate(blocks)] *)
Definition enumerate {A : Type} (l : list A) : list (nat * A) :=
  combine (seq 0 (length l)) l.

Definition Encoder_forward (self : Encoder) (x : Tensor F)
  : result (Tensor F * Tensor F * Tensor F) :=
  h <- conv_in self x ;;
  (* downsampling *)
  h <- foldM (fun h '(i_level, block) =>
                h <- run_level block (num_res_blocks self) h ;;
                if negb (is_last i_level (num_resolutions self))
                then
                  match cb_downsample block with
                  | Some d => Downsample_forward d h
                  | None => Err AttributeError
                  end
                else Ok h)
             (enumerate (conv_blocks self)) h ;;
  (* middle *)
  h <- foldM (fun h mid_block => MidBlock_forward mid_block h) (mid self) h ;;
  let h_vis := h in
  let h_sem_mid := h in
  let h_sem_high := h in
  (* semantic head mid-level *)
  h_sem_mid <- foldM (fun h blk => FactorizedAdapter_forward blk h)
                     (semantic_head_mid self) h_sem_mid ;;
  h_sem_mid <- norm_out_sem_mid self h_sem_mid ;;
  let h_sem_mid := nonlinearity h_sem_mid in
  h_sem_mid <- conv_out_sem_mid self h_sem_mid ;;
  (* semantic head high-level *)
  h_sem_high <- foldM (fun h blk => FactorizedAdapter_forward blk h)
                      (semantic_head_high self) h_sem_high ;;
  h_sem_high <- norm_out_sem_high self h_sem_high ;;
  let h_sem_high := nonlinearity h_sem_high in
  h_sem_high <- conv_out_sem_high self h_sem_high ;;
  (* visual head *)
  h_vis <- foldM (fun h blk => FactorizedAdapter_forward blk h)
                 (visual_head self) h_vis ;;
  h_vis <- norm_out_vis self h_vis ;;
  let h_vis := nonlinearity h_vis in
  h_vis <- conv_out_vis self h_vis ;;
  Ok (h_vis, h_sem_mid, h_sem_high).

Record Decoder : Type := mkDecoder {
  d_num_resolutions : nat;
  d_num_res_blocks : nat;
  d_conv_in : NNModule;
  d_mid : list MidBlock;
  d_conv_blocks : list ConvBlock;
  norm_out : NNModule;
  conv_out : NNModule
}.

Definition Decoder_init (z_channels ch : nat) (ch_mult : list nat)
           (num_res_blocks : nat) (norm_type : NormType) (dropout : F)
           (resamp_with_conv : bool) (out_channels : nat) : result Decoder :=
  let num_resolutions := length ch_mult in
  m <- match ch_mult with [] => Err IndexError | _ => Ok (last ch_mult 0) end ;;
  let block_in := ch * m in
  (* z to block_in *)
  let conv_in := Conv2d T z_channels block_in 3 1 1 in
  (* middle *)
  m1 <- ResnetBlock_init block_in (Some block_in) false dropout norm_type ;;
  m2 <- AttnBlock_init block_in norm_type ;;
  m3 <- ResnetBlock_init block_in (Some block_in) false dropout norm_type ;;
  let mid := [MidResnet m1; MidAttn m2; MidResnet m3] in
  (* upsampling *)
  ' (block_in, conv_blocks) <-
    foldM (fun '(block_in, conv_blocks) i_level =>
             m_out <- item ch_mult i_level ;;
             let block_out := ch * m_out in
             ' (block_in, res_block, attn_block) <-
               build_level block_in block_out (num_res_blocks + 1)
                           (is_last i_level num_resolutions) dropout norm_type ;;
             let upsample :=
               if negb (i_level =? 0)
               then Some (Upsample_init block_in resamp_with_conv) else None in
             Ok (block_in,
                 conv_blocks ++ [mkConvBlock res_block attn_block None upsample]))
          (rev (seq 0 num_resolutions)) (block_in, []) ;;
  (* end *)
  norm_out <- Normalize block_in norm_type ;;
  let conv_out := Conv2d T block_in out_channels 3 1 1 in
  Ok (mkDecoder num_resolutions num_res_blocks conv_in mid conv_blocks norm_out conv_out).

Definition Decoder_forward (self : Decoder) (z : Tensor F) : result (Tensor F) :=
  (* z to block_in *)
  h <- d_conv_in self z ;;
  (* middle *)
  h <- foldM (fun h mid_block => MidBlock_forward mid_block h) (d_mid self) h ;;
  (* upsampling *)
  h <- foldM (fun h '(i_level, block) =>
                h <- run_level block (d_num_res_blocks self + 1) h ;;
                if negb (is_last i_level (d_num_resolutions self))
                then
                  match cb_upsample block with
                  | Some u => Upsample_forward u h
                  | None => Err AttributeError
                  end
                else Ok h)
             (enumerate (d_conv_blocks self)) h ;;
  (* end *)
  h <- norm_out self h ;;
  let h := nonlinearity h in
  conv_out self h.

(** *** [VQModel.__init__] and the presets *)

(** [VQModel.__init__]; the three arguments after the configuration are
    the values drawn for the three codebooks.  It returns the layers it
    has built and, with the quantizers, what [forward] reads of the
    module. *)
Definition VQModel_init (config : ModelArgs F) (u_vis u_mid u_high : list (list F))
  : result (Layers F * VQModel F) :=
  (* Two head encoder *)
  encoder <- Encoder_init 3 128 (encoder_ch_mult config) 2 group (dropout_p config)
                          true (z_channels config) ;;
  let new_quantizer u :=
    VectorQuantizer_init (codebook_size config) (codebook_embed_dim config)
      (commit_loss_beta config) (args_entropy_loss_ratio config)
      (codebook_l2_norm config) (codebook_show_usage config) u in
  (* Quantizer for visual detail head *)
  quantize_vis <- new_quantizer u_vis ;;
  let quant_conv_vis := Conv2d T (z_channels config) (codebook_embed_dim config) 1 1 0 in
  (* Quantizer for mid-level semantic head *)
  quantize_sem_mid <- new_quantizer u_mid ;;
  let quant_conv_sem_mid :=
    Conv2d T (z_channels config) (codebook_embed_dim config) 1 1 0 in
  (* Quantizer for high-level semantic head *)
  quantize_sem_high <- new_quantizer u_high ;;
  let quant_conv_sem_high :=
    Conv2d T (z_channels config) (codebook_embed_dim config) 1 1 0 in
  (* Pixel decoder *)
  let input_dim := codebook_embed_dim config * 3 in
  let post_quant_conv := Conv2d T input_dim (z_channels config) 1 1 0 in
  decoder <- Decoder_init (z_channels config) 128 (decoder_ch_mult config) 2 group
                          (dropout_p config) true 3 ;;
  let num_resolutions := length (encoder_ch_mult config) in
  down_factor <- down_factor num_resolutions ;;
  (* Semantic feature prediction *)
  ' (mid_sem_feat_pred, high_sem_feat_pred) <-
    (if with_clip_supervision config
     then
       m <- FeatPredHead_init (codebook_embed_dim config) 384 down_factor ;;
       h <- FeatPredHead_init (codebook_embed_dim config) 768 down_factor ;;
       Ok (Some m, Some h)
     else Ok (None, None)) ;;
  let head (p : option FeatPredHead) : NNModule :=
    fun x => match p with
             | Some p => FeatPredHead_forward p x
             | None => Err AttributeError
             end in
  Ok (mkLayers (Encoder_forward encoder) quant_conv_vis quant_conv_sem_mid
               quant_conv_sem_high post_quant_conv (Decoder_forward decoder)
               (head mid_sem_feat_pred) (head high_sem_feat_pred),
      mkVQModel config quantize_vis quantize_sem_mid quantize_sem_high
                num_resolutions).



(** *** Vocabulary of the properties of the layers *)

(** Element [i, k, j] of a (b, c, h, w) map read as (b, c, n), [n = h*w]. *)
Definition at_position (t : Tensor F) (c n i k j : nat) : F :=
  nth ((i * c + k) * n + j) (data t) zero.

(** The score of position [l] for position [j] in image [i]: the product
    of the vectors of [q] at [j] and of [k] at [l], times [c ** (-0.5)]. *)
Definition score (q k : Tensor F) (c n i j l : nat) : F :=
  mul (sum (map (fun cc => mul (at_position q c n i cc j) (at_position k c n i cc l))
                (seq 0 c)))
      (div (of_Z 1) (sqrt (of_Z (Z.of_nat c)))).

(** The softmax of the scores of position [j] over all positions. *)
Definition attention_weight (q k : Tensor F) (c n i j l : nat) : F :=
  div (exp (score q k c n i j l))
      (sum (map (fun l' => exp (score q k c n i j l')) (seq 0 n))).

(** The attended values: what [AttnBlock.forward] hands to [proj_out]. *)
Definition attended (q k v : Tensor F) (b c h w : nat) : Tensor F :=
  let n := h * w in
  let q := mkTensor [b; c; n] (data q) in
  let q := mkTensor [b; n; c] (tabulate3 b n c (fun i j k => get3 q i k j)) in
  let k := mkTensor [b; c; n] (data k) in
  let w_ :=
    mkTensor [b; n; n]
      (tabulate3 b n n (fun i r c' =>
         sum (map (fun l => mul (get3 q i r l) (get3 k i l c')) (seq 0 c)))) in
  let w_ := scale_by w_ (div (of_Z 1) (sqrt (of_Z (Z.of_nat c)))) in
  let w_ := mkTensor [b; n; n] (concat (map softmax (chunk (b * n) n (data w_)))) in
  let v := mkTensor [b; c; n] (data v) in
  let w_ := mkTensor [b; n; n] (tabulate3 b n n (fun i j k => get3 w_ i k j)) in
  mkTensor [b; c; h; w]
    (tabulate3 b c n (fun i r c' =>
       sum (map (fun l => mul (get3 v i r l) (get3 w_ i l c')) (seq 0 n)))).
(** A layer takes every tensor of shape [sh] to a tensor of shape [sh']. *)
Definition maps (f : NNModule) (sh sh' : list nat) : Prop :=
  forall t, has_shape t sh -> exists t', f t = Ok t' /\ has_shape t' sh'.

(** What the properties of the network need of the layers of torch: the
    shapes they return for the inputs they accept, as the documentation
    of torch gives them. *)
Record TorchShapes : Prop := mkTorchShapes {
  conv_shape : forall cin cout k s p b h w,
    1 <= b -> 1 <= cin -> 1 <= cout -> 1 <= s -> 1 <= k ->
    k <= h + 2 * p -> k <= w + 2 * p ->
    maps (Conv2d T cin cout k s p) [b; cin; h; w]
         [b; cout; (h + 2 * p - k) / s + 1; (w + 2 * p - k) / s + 1];
  group_norm_shape : forall g c,
    1 <= g -> c mod g = 0 ->
    exists f, GroupNorm T g c = Ok f /\
              forall b h w, 1 <= b -> 1 <= h -> 1 <= w -> 2 <= c / g ->
                            maps f [b; c; h; w] [b; c; h; w];
  dropout_shape : forall p,
    ltb p zero = false -> ltb (of_Z 1) p = false ->
    exists f, Dropout T p = Ok f /\ forall sh, maps f sh sh;
  layer_norm_shape : forall d sh, maps (LayerNorm T d) (sh ++ [d]) (sh ++ [d]);
  attention_shape : forall d n,
    1 <= n -> 1 <= d -> d mod n = 0 ->
    exists f, MultiheadAttention T d n = Ok f /\
              forall l b, 1 <= l -> 1 <= b -> maps f [l; b; d] [l; b; d];
  linear_shape : forall i o sh, maps (Linear T i o) (sh ++ [i]) (sh ++ [o]);
  gelu_shape : forall sh, maps (GELU T) sh sh;
  relu_shape : forall sh, maps (ReLU T) sh sh;
  randn_shape : forall sh, has_shape (randn T sh) sh;
  add_same : forall x y sh,
    has_shape x sh -> has_shape y sh ->
    exists t, tensor_add T x y = Ok t /\ has_shape t sh;
  add_batch : forall x y b sh,
    has_shape x (b :: sh) -> has_shape y sh ->
    exists t, tensor_add T x y = Ok t /\ has_shape t (b :: sh);
  pad_shape : forall b c h w, maps (pad_0101 T) [b; c; h; w] [b; c; h + 1; w + 1];
  avg_pool_shape : forall b c h w,
    2 <= h -> 2 <= w -> maps (avg_pool2d T) [b; c; h; w] [b; c; h / 2; w / 2];
  interpolate_shape : forall b c h w,
    1 <= h -> 1 <= w -> maps (interpolate T) [b; c; h; w] [b; c; 2 * h; 2 * w]
}.

(** A dropout probability that [nn.Dropout] accepts. *)
Definition dropout_ok (p : F) : Prop :=
  ltb p zero = false /\ ltb (of_Z 1) p = false.

(** Channel counts that [GroupNorm] with 32 groups takes, with more than
    one channel in a group. *)
Definition channels_ok (c : nat) : Prop := c mod 32 = 0 /\ 2 <= c / 32.
End Layers.
End Net.

(** Stand-ins for the layers of torch over the reals: each returns a
    tensor of zeros of the shape that the layer of torch returns, and
    refuses the inputs that the properties below do not need. *)
Definition zeros (sh : list nat) : Tensor R := mkTensor sh (repeat 0%R (numel sh)).

Definition same_shape : Net.NNModule (F := R) := fun t => Ok (zeros (shape t)).

Definition conv_zeros (cin cout k s p : nat) : Net.NNModule (F := R) :=
  fun t =>
    match shape t with
    | [b; c; h; w] =>
        if (c =? cin) && (k <=? h + 2 * p) && (k <=? w + 2 * p) && (1 <=? s)
        then Ok (zeros [b; cout; (h + 2 * p - k) / s + 1; (w + 2 * p - k) / s + 1])
        else Err ShapeError
    | _ => Err ShapeError
    end.

Definition linear_zeros (i o : nat) : Net.NNModule (F := R) :=
  fun t =>
    match rev (shape t) with
    | d :: sh => if d =? i then Ok (zeros (rev sh ++ [o])) else Err ShapeError
    | [] => Err ShapeError
    end.

Definition add_zeros (x y : Tensor R) : result (Tensor R) :=
  if list_eq_dec Nat.eq_dec (shape x) (shape y) then Ok (zeros (shape x))
  else if list_eq_dec Nat.eq_dec (tl (shape x)) (shape y) then Ok (zeros (shape x))
  else Err SizeMismatch.

Definition resize_zeros (f : nat -> nat) : Net.NNModule (F := R) :=
  fun t =>
    match shape t with
    | [b; c; h; w] => Ok (zeros [b; c; f h; f w])
    | _ => Err ShapeError
    end.

Definition plain_torch : Net.Torch (F := R) :=
  Net.mkTorch conv_zeros
              (fun g c => if c mod g =? 0 then Ok same_shape else Err ValueError)
              (fun _ => same_shape)
              (fun p => if Rltb p 0 || Rltb 1 p then Err ValueError else Ok same_shape)
              (fun _ => same_shape)
              (fun d n => if d mod n =? 0 then Ok same_shape else Err ValueError)
              linear_zeros same_shape same_shape zeros add_zeros
              (resize_zeros S) (resize_zeros (fun n => n / 2))
              (resize_zeros (fun n => 2 * n)).

(** An attention block whose layers hand their input on. *)
Definition plain_attn : Net.AttnBlock (F := R) :=
  Net.mkAttnBlock (fun x => Ok x) (fun x => Ok x) (fun x => Ok x) (fun x => Ok x)
                  (fun x => Ok x).

(** * Properties *)

(** ** Row-major storage *)

Lemma index_bound a b n m : a < n -> b < m -> a * m + b < n * m.
Proof.
  intros Ha Hb. apply Nat.lt_le_trans with (S a * m); [simpl; lia|].
  apply Nat.mul_le_mono_r. lia.
Qed.

Section ListFacts.
Context {A : Type}.
Implicit Types (l : list A) (rows : list (list A)).

Lemma chunk_length n m l : length (chunk n m l) = n.
Proof. revert l; induction n; simpl; intros; [reflexivity | now rewrite IHn]. Qed.

Lemma chunk_width n m l :
  length l = n * m -> Forall (fun r => length r = m) (chunk n m l).
Proof.
  revert l; induction n; simpl; intros l Hl; constructor.
  - rewrite length_firstn. lia.
  - apply IHn. rewrite length_skipn. lia.
Qed.

Lemma concat_chunk n m l : length l = n * m -> concat (chunk n m l) = l.
Proof.
  revert l; induction n; simpl; intros l Hl.
  - destruct l; [reflexivity | discriminate].
  - rewrite IHn by (rewrite length_skipn; lia). apply firstn_skipn.
Qed.

Lemma chunk_concat m rows :
  Forall (fun r => length r = m) rows -> chunk (length rows) m (concat rows) = rows.
Proof.
  induction 1 as [|r rows Hr _ IH]; simpl; [reflexivity|].
  rewrite firstn_app, skipn_app, Hr, Nat.sub_diag, firstn_all2, skipn_all2 by lia.
  simpl. rewrite app_nil_r. now rewrite IH.
Qed.

Lemma concat_length_uniform m rows :
  Forall (fun r => length r = m) rows -> length (concat rows) = length rows * m.
Proof. induction 1; simpl; [reflexivity|]. rewrite length_app. lia. Qed.

Lemma nth_concat_uniform m rows p k d :
  Forall (fun r => length r = m) rows -> p < length rows -> k < m ->
  nth (p * m + k) (concat rows) d = nth k (nth p rows []) d.
Proof.
  intros H; revert p; induction H as [|r rows Hr _ IH]; simpl; intros p Hp Hk; [lia|].
  destruct p as [|p]; simpl.
  - apply app_nth1. lia.
  - rewrite app_nth2 by lia.
    replace (m + p * m + k - length r) with (p * m + k) by lia.
    apply IH; lia.
Qed.

Lemma flat_map_length_uniform {B : Type} (g : B -> list A) m (xs : list B) :
  (forall x, length (g x) = m) -> length (flat_map g xs) = length xs * m.
Proof.
  intros Hg. rewrite flat_map_concat_map.
  rewrite (concat_length_uniform m), length_map; [reflexivity|].
  apply Forall_forall. intros r Hr. apply in_map_iff in Hr as (x & <- & _). apply Hg.
Qed.

Lemma nth_flat_map_seq (g : nat -> list A) m n i j d :
  (forall x, length (g x) = m) -> i < n -> j < m ->
  nth (i * m + j) (flat_map g (seq 0 n)) d = nth j (g i) d.
Proof.
  intros Hg Hi Hj. rewrite flat_map_concat_map.
  rewrite (nth_concat_uniform m).
  - rewrite (nth_indep _ [] (g 0)) by (now rewrite length_map, length_seq).
    rewrite map_nth, seq_nth by lia. reflexivity.
  - apply Forall_forall. intros r Hr. apply in_map_iff in Hr as (x & <- & _). apply Hg.
  - now rewrite length_map, length_seq.
  - exact Hj.
Qed.

Lemma tabulate4_length n1 n2 n3 n4 (f : nat -> nat -> nat -> nat -> A) :
  length (tabulate4 n1 n2 n3 n4 f) = n1 * n2 * n3 * n4.
Proof.
  unfold tabulate4.
  rewrite (flat_map_length_uniform _ (n2 * n3 * n4)), length_seq; [lia|].
  intros i. rewrite (flat_map_length_uniform _ (n3 * n4)), length_seq; [lia|].
  intros j. rewrite (flat_map_length_uniform _ n4), length_seq; [lia|].
  intros k. now rewrite length_map, length_seq.
Qed.

Lemma nth_tabulate4 n1 n2 n3 n4 (f : nat -> nat -> nat -> nat -> A) i j k c d :
  i < n1 -> j < n2 -> k < n3 -> c < n4 ->
  nth (((i * n2 + j) * n3 + k) * n4 + c) (tabulate4 n1 n2 n3 n4 f) d = f i j k c.
Proof.
  intros Hi Hj Hk Hc. unfold tabulate4.
  replace (((i * n2 + j) * n3 + k) * n4 + c)
    with (i * (n2 * n3 * n4) + ((j * n3 + k) * n4 + c)) by lia.
  rewrite (nth_flat_map_seq _ (n2 * n3 * n4)); try assumption.
  2:{ intros x. rewrite (flat_map_length_uniform _ (n3 * n4)), length_seq; [lia|].
      intros y. rewrite (flat_map_length_uniform _ n4), length_seq; [lia|].
      intros z. now rewrite length_map, length_seq. }
  2:{ replace (n2 * n3 * n4) with ((n2 * n3) * n4) by lia.
      apply index_bound; [apply index_bound|]; assumption. }
  replace ((j * n3 + k) * n4 + c) with (j * (n3 * n4) + (k * n4 + c)) by lia.
  rewrite (nth_flat_map_seq _ (n3 * n4)); try assumption.
  2:{ intros y. rewrite (flat_map_length_uniform _ n4), length_seq; [lia|].
      intros z. now rewrite length_map, length_seq. }
  2:{ apply index_bound; assumption. }
  rewrite (nth_flat_map_seq _ n4); try assumption.
  2:{ intros z. now rewrite length_map, length_seq. }
  rewrite (nth_indep _ d (f i j k 0)) by (now rewrite length_map, length_seq).
  rewrite (map_nth (f i j k) (seq 0 n4) 0), seq_nth by lia. reflexivity.
Qed.

End ListFacts.

Lemma flat_map_concat {A B : Type} (g : B -> list (list A)) (xs : list B) :
  flat_map (fun x => concat (g x)) xs = concat (flat_map g xs).
Proof.
  induction xs as [|x xs IH]; simpl; [reflexivity|].
  now rewrite concat_app, IH.
Qed.

(** The rows of a tensor tabulated with the last index innermost. *)
Lemma chunk_tabulate4 {A : Type} n1 n2 n3 n4 (f : nat -> nat -> nat -> nat -> A) :
  chunk (n1 * n2 * n3) n4 (tabulate4 n1 n2 n3 n4 f) =
  flat_map (fun i => flat_map (fun j =>
    map (fun k => map (f i j k) (seq 0 n4)) (seq 0 n3)) (seq 0 n2)) (seq 0 n1).
Proof.
  set (rows := flat_map _ _).
  assert (Hw : Forall (fun r => length r = n4) rows).
  { apply Forall_forall. intros r Hr. unfold rows in Hr.
    apply in_flat_map in Hr as (i & _ & Hr).
    apply in_flat_map in Hr as (j & _ & Hr).
    apply in_map_iff in Hr as (k & <- & _).
    now rewrite length_map, length_seq. }
  assert (Hn : length rows = n1 * n2 * n3).
  { unfold rows. rewrite (flat_map_length_uniform _ (n2 * n3)), length_seq; [lia|].
    intros i. rewrite (flat_map_length_uniform _ n3), length_seq; [lia|].
    intros j. now rewrite length_map, length_seq. }
  assert (Hc : tabulate4 n1 n2 n3 n4 f = concat rows).
  { unfold tabulate4, rows. rewrite <- flat_map_concat.
    apply flat_map_ext. intros i. rewrite <- flat_map_concat.
    apply flat_map_ext. intros j. apply flat_map_concat_map. }
  rewrite Hc, <- Hn. apply chunk_concat, Hw.
Qed.

Lemma tabulate3_length {B : Type} n1 n2 n3 (f : nat -> nat -> nat -> B) :
  length (tabulate3 n1 n2 n3 f) = n1 * n2 * n3.
Proof.
  unfold tabulate3.
  rewrite (flat_map_length_uniform _ (n2 * n3)), length_seq; [lia|].
  intros i. rewrite (flat_map_length_uniform _ n3), length_seq; [lia|].
  intros j. now rewrite length_map, length_seq.
Qed.

Lemma nth_tabulate3 {B : Type} n1 n2 n3 (f : nat -> nat -> nat -> B) i j k d :
  i < n1 -> j < n2 -> k < n3 ->
  nth ((i * n2 + j) * n3 + k) (tabulate3 n1 n2 n3 f) d = f i j k.
Proof.
  intros Hi Hj Hk. unfold tabulate3.
  replace ((i * n2 + j) * n3 + k) with (i * (n2 * n3) + (j * n3 + k)) by lia.
  rewrite (nth_flat_map_seq _ (n2 * n3)); try assumption.
  2:{ intros x. rewrite (flat_map_length_uniform _ n3), length_seq; [lia|].
      intros y. now rewrite length_map, length_seq. }
  2:{ apply index_bound; assumption. }
  rewrite (nth_flat_map_seq _ n3); try assumption.
  2:{ intros y. now rewrite length_map, length_seq. }
  rewrite (nth_indep _ d (f i j 0)) by (now rewrite length_map, length_seq).
  rewrite (map_nth (f i j) (seq 0 n3) 0), seq_nth by lia. reflexivity.
Qed.

Lemma tabulate3_In {B : Type} n1 n2 n3 (f : nat -> nat -> nat -> B) r :
  In r (tabulate3 n1 n2 n3 f) -> exists i j k, i < n1 /\ j < n2 /\ k < n3 /\ r = f i j k.
Proof.
  unfold tabulate3. intros Hr.
  apply in_flat_map in Hr as (i & Hi & Hr).
  apply in_flat_map in Hr as (j & Hj & Hr).
  apply in_map_iff in Hr as (k & <- & Hk).
  apply in_seq in Hi, Hj, Hk. exists i, j, k. repeat split; lia.
Qed.

Lemma chunk_tabulate4_rows {A : Type} n1 n2 n3 n4 (f : nat -> nat -> nat -> nat -> A) :
  chunk (n1 * n2 * n3) n4 (tabulate4 n1 n2 n3 n4 f) =
  tabulate3 n1 n2 n3 (fun i j k => map (f i j k) (seq 0 n4)).
Proof. apply chunk_tabulate4. Qed.

Lemma tabulate4_concat_rows {A : Type} n1 n2 n3 n4 (f : nat -> nat -> nat -> nat -> A) :
  tabulate4 n1 n2 n3 n4 f =
  concat (tabulate3 n1 n2 n3 (fun i j k => map (f i j k) (seq 0 n4))).
Proof.
  rewrite <- chunk_tabulate4_rows. symmetry. apply concat_chunk.
  rewrite tabulate4_length. lia.
Qed.

(** ** The error monad over lists *)

Section MapM.
Context {A B : Type} (f : A -> result B).

Lemma mapM_Ok_map (g : A -> B) (l : list A) :
  (forall a, In a l -> f a = Ok (g a)) -> mapM f l = Ok (map g l).
Proof.
  induction l as [|a l IH]; simpl; intros H; [reflexivity|].
  rewrite (H a) by now left. simpl. rewrite IH by (intros; apply H; now right).
  reflexivity.
Qed.

Lemma mapM_Ok_inv (l : list A) (l' : list B) :
  mapM f l = Ok l' -> Forall2 (fun a b => f a = Ok b) l l'.
Proof.
  revert l'; induction l as [|a l IH]; simpl; intros l' H.
  - injection H as <-. constructor.
  - destruct (f a) as [b|e] eqn:Ea; simpl in H; [|discriminate].
    destruct (mapM f l) as [bs|e] eqn:El; simpl in H; [|discriminate].
    injection H as <-. constructor; [assumption|]. now apply IH.
Qed.

Lemma mapM_Err (e : error) (l : list A) :
  (forall a, In a l -> f a = Err e \/ exists b, f a = Ok b) ->
  (exists a, In a l /\ f a = Err e) ->
  mapM f l = Err e.
Proof.
  induction l as [|a l IH]; simpl; intros Hall (x & Hx & Ex); [contradiction|].
  destruct (Hall a (or_introl eq_refl)) as [Ea|(b & Ea)]; rewrite Ea; simpl;
    [reflexivity|].
  rewrite IH; [reflexivity| |].
  - intros a' Ha'. apply Hall. now right.
  - destruct Hx as [->|Hx]; [congruence|]. now exists x.
Qed.
End MapM.

(** ** [argmin] *)

Section Argmin.
Context {F : Type} {SF : Scalar F}.

Lemma argmin_scan_range (l : list F) bi b i :
  bi < i -> argmin_scan bi b i l < i + length l.
Proof.
  revert bi b i; induction l as [|x l IH]; simpl; intros bi b i Hb; [lia|].
  destruct (if isnan x then negb (isnan b) else ltb x b).
  - specialize (IH i x (S i)). lia.
  - specialize (IH bi b (S i)). lia.
Qed.

Lemma argmin_range (row : list F) (z : Z) :
  argmin row = Ok z -> (0 <= z < Z.of_nat (length row))%Z.
Proof.
  destruct row as [|x l]; simpl; intros H; [discriminate|].
  injection H as <-. pose proof (argmin_scan_range l 0 x 1). lia.
Qed.

Lemma argmin_total (row : list F) :
  row <> [] -> exists z, argmin row = Ok z.
Proof. destruct row; [congruence|]. intros _. eexists. reflexivity. Qed.

(** On scalars that [<] orders totally (no NaN), the scan returns the
    first position of a least element. *)
Section TotalOrder.
Hypothesis no_nan : forall x : F, isnan x = false.
Hypothesis ltb_irrefl : forall x : F, ltb x x = false.
Hypothesis ltb_trans : forall a b c : F, ltb a b = true -> ltb b c = true -> ltb a c = true.
Hypothesis ltb_total : forall a b c : F, ltb a b = true -> ltb c b = false -> ltb a c = true.

Lemma argmin_scan_least (l pre : list F) (bi : nat) (d : F) :
  bi < length pre ->
  (forall j, j < length pre -> ltb (nth j pre d) (nth bi pre d) = false) ->
  (forall j, j < bi -> ltb (nth bi pre d) (nth j pre d) = true) ->
  let r := argmin_scan bi (nth bi pre d) (length pre) l in
  r < length (pre ++ l) /\
  (forall j, j < length (pre ++ l) ->
             ltb (nth j (pre ++ l) d) (nth r (pre ++ l) d) = false) /\
  (forall j, j < r -> ltb (nth r (pre ++ l) d) (nth j (pre ++ l) d) = true).
Proof.
  revert pre bi; induction l as [|x l IH]; intros pre bi Hbi Hmin Hfirst; simpl.
  - rewrite app_nil_r. auto.
  - rewrite no_nan.
    replace (pre ++ x :: l) with ((pre ++ [x]) ++ l) by (now rewrite <- app_assoc).
    assert (Hlen : length (pre ++ [x]) = S (length pre))
      by (rewrite length_app; simpl; lia).
    assert (Hx : nth (length pre) (pre ++ [x]) d = x)
      by (rewrite app_nth2, Nat.sub_diag by lia; reflexivity).
    destruct (ltb x (nth bi pre d)) eqn:Elt.
    + specialize (IH (pre ++ [x]) (length pre)).
      rewrite Hx, Hlen in IH. apply IH; [lia| |].
      * intros j Hj. destruct (Nat.eq_dec j (length pre)) as [->|Hne].
        -- rewrite Hx. apply ltb_irrefl.
        -- rewrite app_nth1 by lia.
           destruct (ltb (nth j pre d) x) eqn:E; [|reflexivity].
           rewrite <- (Hmin j) by lia. symmetry. now apply ltb_trans with x.
      * intros j Hj. rewrite app_nth1 by lia.
        apply ltb_total with (nth bi pre d); [assumption|]. apply Hmin. lia.
    + specialize (IH (pre ++ [x]) bi).
      rewrite app_nth1, Hlen in IH by assumption. apply IH; [lia| |].
      * intros j Hj. destruct (Nat.eq_dec j (length pre)) as [->|Hne].
        -- now rewrite Hx.
        -- rewrite app_nth1 by lia. apply Hmin. lia.
      * intros j Hj. rewrite app_nth1 by lia. now apply Hfirst.
Qed.

Lemma argmin_least (row : list F) (z : Z) (d : F) :
  argmin row = Ok z ->
  let r := Z.to_nat z in
  r < length row /\
  (forall j, j < length row -> ltb (nth j row d) (nth r row d) = false) /\
  (forall j, j < r -> ltb (nth r row d) (nth j row d) = true).
Proof.
  destruct row as [|x l]; simpl; intros H; [discriminate|].
  injection H as <-. rewrite Nat2Z.id.
  apply (argmin_scan_least l [x] 0 d); simpl.
  - lia.
  - intros j Hj. replace j with 0 by lia. apply ltb_irrefl.
  - intros j Hj. lia.
Qed.
End TotalOrder.
End Argmin.

(** ** The steps of [forward] *)

Section ForwardFacts.
Context {F : Type} {SF : Scalar F}.

Lemma normalize_length (v : list F) : length (normalize v) = length v.
Proof. unfold normalize. apply length_map. Qed.

Lemma map_normalize_width m (rows : list (list F)) :
  Forall (fun r => length r = m) rows ->
  Forall (fun r => length r = m) (map normalize rows).
Proof.
  intros H. apply Forall_map. eapply Forall_impl; [|exact H].
  simpl. intros r Hr. now rewrite normalize_length.
Qed.

Lemma codebook_length vq : length (codebook vq) = length (embedding_weight vq).
Proof. unfold codebook. destruct (l2_norm vq); [apply length_map|reflexivity]. Qed.

Lemma codebook_width vq :
  codebook_ok vq -> Forall (fun r => length r = e_dim vq) (codebook vq).
Proof.
  intros (_ & _ & _ & Hw). unfold codebook.
  destruct (l2_norm vq); [now apply map_normalize_width|assumption].
Qed.

Lemma flat_rows_length z B C H W : length (flat_rows z B C H W) = B * H * W.
Proof. apply tabulate3_length. Qed.

Lemma flat_rows_width z B C H W :
  Forall (fun r => length r = C) (flat_rows z B C H W).
Proof.
  apply Forall_forall. intros r Hr.
  apply tabulate3_In in Hr as (i & j & k & _ & _ & _ & ->).
  now rewrite length_map, length_seq.
Qed.

Lemma input_rows_length vq z B C H W : length (input_rows vq z B C H W) = B * H * W.
Proof.
  unfold input_rows. destruct (l2_norm vq);
    [rewrite length_map|]; apply flat_rows_length.
Qed.

Lemma input_rows_width vq z B C H W :
  Forall (fun r => length r = C) (input_rows vq z B C H W).
Proof.
  unfold input_rows. destruct (l2_norm vq);
    [apply map_normalize_width|]; apply flat_rows_width.
Qed.

Lemma gather_width m (table : list (list F)) (idx : list Z) :
  Forall (fun r => length r = m) table ->
  Forall (fun i => (0 <= i < Z.of_nat (length table))%Z) idx ->
  Forall (fun r => length r = m) (gather table idx).
Proof.
  intros Ht Hi. apply Forall_map. eapply Forall_impl; [|exact Hi].
  simpl. intros i Hr. rewrite Forall_forall in Ht. apply Ht, nth_In. lia.
Qed.

Lemma einsum_bchw_bhwc_ok (z : Tensor F) B C H W :
  shape z = [B; C; H; W] ->
  einsum_bchw_bhwc z =
  Ok (mkTensor [B; H; W; C] (tabulate4 B H W C (fun i y x k => get4 z i k y x))).
Proof. intros Hs. unfold einsum_bchw_bhwc. now rewrite Hs. Qed.

Lemma numel4 (a b c d : nat) : numel [a; b; c; d] = a * b * c * d.
Proof. unfold numel; simpl. lia. Qed.

Lemma view_rows_ok B C H W (f : nat -> nat -> nat -> nat -> F) :
  0 < C ->
  view_rows (mkTensor [B; H; W; C] (tabulate4 B H W C f)) C =
  Ok (tabulate3 B H W (fun i y x => map (f i y x) (seq 0 C))).
Proof.
  intros HC. unfold view_rows. cbn [shape data]. rewrite numel4.
  assert (E1 : (C =? 0) = false) by (apply Nat.eqb_neq; lia).
  rewrite E1, Nat.Div0.mod_mul, Nat.div_mul by lia. simpl.
  now rewrite chunk_tabulate4_rows.
Qed.

Lemma normalize_last_ok B C H W (f : nat -> nat -> nat -> nat -> F) :
  0 < C ->
  normalize_last (mkTensor [B; H; W; C] (tabulate4 B H W C f)) =
  mkTensor [B; H; W; C]
    (concat (map normalize (tabulate3 B H W (fun i y x => map (f i y x) (seq 0 C))))).
Proof.
  intros HC. unfold normalize_last. cbn [shape data last].
  rewrite numel4, Nat.div_mul by lia. now rewrite chunk_tabulate4_rows.
Qed.

Lemma distances_argmin (rows cb : list (list F)) :
  cb <> [] ->
  exists idx, mapM argmin (distances rows cb) = Ok idx /\
              length idx = length rows /\
              Forall (fun i => (0 <= i < Z.of_nat (length cb))%Z) idx.
Proof.
  intros Hcb. unfold distances.
  induction rows as [|r rows (idx & E & Hl & Hr)]; cbn [map mapM].
  - exists []. repeat split; constructor.
  - set (row := map _ cb).
    destruct (argmin_total row) as (i & Ei).
    { unfold row. destruct cb; [congruence|discriminate]. }
    exists (i :: idx). rewrite Ei, E. cbn [bind length].
    repeat split; [now rewrite Hl|]. constructor; [|assumption].
    apply argmin_range in Ei. unfold row in Ei. now rewrite length_map in Ei.
Qed.

Lemma index_rows_ok (table : list (list F)) (idx : list Z) :
  Forall (fun i => (0 <= i < Z.of_nat (length table))%Z) idx ->
  index_rows table idx = Ok (gather table idx).
Proof.
  intros H. apply mapM_Ok_map. intros i Hi.
  rewrite Forall_forall in H. specialize (H i Hi). unfold index_row.
  replace (- Z.of_nat (length table) <=? i)%Z with true by (symmetry; apply Z.leb_le; lia).
  replace (i <? Z.of_nat (length table))%Z with true by (symmetry; apply Z.ltb_lt; lia).
  replace (i <? 0)%Z with false by (symmetry; apply Z.ltb_ge; lia).
  reflexivity.
Qed.

(** [forward] up to the gathered code vectors. *)
Lemma forward_eq (vq : VectorQuantizer F) (z : Tensor F) B C H W :
  codebook_ok vq -> shape z = [B; C; H; W] -> C = e_dim vq ->
  exists idx,
    mapM argmin (distances (input_rows vq z B C H W) (codebook vq)) = Ok idx /\
    length idx = B * H * W /\
    Forall (fun i => (0 <= i < Z.of_nat (n_e vq))%Z) idx /\
    forward vq z =
    forward_tail vq [B; H; W; C] (concat (input_rows vq z B C H W))
                 (distances (input_rows vq z B C H W) (codebook vq)) idx
                 (concat (gather (codebook vq) idx)).
Proof.
  intros Hcb Hs HC.
  pose proof Hcb as (Hn & He & Hlen & Hw).
  destruct (distances_argmin (input_rows vq z B C H W) (codebook vq))
    as (idx & Eidx & Hl & Hr).
  { intros E. pose proof (codebook_length vq) as E'. rewrite E in E'. simpl in E'. lia. }
  rewrite input_rows_length in Hl. rewrite codebook_length, Hlen in Hr.
  exists idx. repeat split; try assumption.
  assert (Hg : index_rows (codebook vq) idx = Ok (gather (codebook vq) idx)).
  { apply index_rows_ok. now rewrite codebook_length, Hlen. }
  assert (Hq : length (concat (gather (codebook vq) idx)) = B * H * W * C).
  { rewrite (concat_length_uniform C).
    - unfold gather. now rewrite length_map, Hl.
    - rewrite HC. apply gather_width; [now apply codebook_width|].
      now rewrite codebook_length, Hlen. }
  unfold forward. rewrite (einsum_bchw_bhwc_ok z B C H W Hs). cbn [bind].
  rewrite <- HC, view_rows_ok by lia. cbn [bind].
  unfold input_rows, codebook, flat_rows in *.
  destruct (l2_norm vq).
  - rewrite normalize_last_ok by lia. rewrite Eidx. cbn [bind].
    unfold index_tensor. cbn [idata ishape]. rewrite Hg. cbn [bind].
    unfold reshape. cbn [data shape]. rewrite numel4, Hq, Nat.eqb_refl. cbn [bind].
    reflexivity.
  - rewrite Eidx. cbn [bind].
    unfold index_tensor. cbn [idata ishape]. rewrite Hg. cbn [bind].
    unfold reshape. cbn [data shape]. rewrite numel4, Hq, Nat.eqb_refl. cbn [bind].
    rewrite <- tabulate4_concat_rows. reflexivity.
Qed.
End ForwardFacts.

(** ** The usage buffer *)

Lemma buffer_size_val : Z.of_nat buffer_size = 65536%Z.
Proof. unfold buffer_size. apply Z2Nat.id. lia. Qed.

Lemma buffer_size_pos : 0 < buffer_size.
Proof. unfold buffer_size. lia. Qed.

Section UsageBuffer.
Context {F : Type} {SF : Scalar F}.

(** With [n] new entries, [1 <= n <= length used], the two slice
    assignments drop the [n] oldest entries and append the new ones. *)
Lemma shift_append (used new : list F) :
  1 <= length new <= length used ->
  let n := Z.of_nat (length new) in
  (used1 <- setslice used None (Some (- n)%Z) (getslice used (Some n) None) ;;
   setslice used1 (Some (- n)%Z) None new)
  = Ok (skipn (length new) used ++ new).
Proof.
  intros Hn n. set (L := length used). set (k := length new) in *.
  assert (Hb1 : slice_bound L n = k) by (unfold slice_bound, n; fold k; destruct (Z.ltb_spec (Z.of_nat k) 0); lia).
  assert (Hb2 : slice_bound L (- n) = L - k) by (unfold slice_bound, n; fold k; destruct (Z.ltb_spec (- Z.of_nat k) 0); lia).
  assert (Hg : getslice used (Some n) None = skipn k used).
  { unfold getslice, slice_range. fold L. rewrite Hb1.
    apply firstn_all2. rewrite length_skipn. fold L. lia. }
  rewrite Hg.
  set (used1 := skipn k used ++ skipn (L - k) used).
  assert (E1 : setslice used None (Some (- n)%Z) (skipn k used) = Ok used1).
  { unfold setslice, slice_range. fold L. rewrite Hb2.
    rewrite length_skipn. fold L. now rewrite Nat.sub_0_r, Nat.eqb_refl. }
  rewrite E1. cbn [bind].
  assert (H1 : length used1 = L).
  { unfold used1. rewrite length_app, !length_skipn. fold L. lia. }
  unfold setslice, slice_range. rewrite H1, Hb2.
  replace (L - (L - k)) with k by lia. fold k. rewrite Nat.eqb_refl.
  replace (L - k + k) with L by lia.
  rewrite (skipn_all2 used1) by lia. rewrite app_nil_r.
  unfold used1. rewrite firstn_app, length_skipn. fold L.
  replace (L - k - (L - k)) with 0 by lia. cbn [firstn]. rewrite app_nil_r.
  rewrite firstn_all2 by (rewrite length_skipn; fold L; lia). reflexivity.
Qed.

(** With more new entries than the buffer holds, the first assignment
    changes nothing and the second one cannot be broadcast. *)
Lemma shift_append_overflow (used new : list F) :
  1 <= length used < length new ->
  let n := Z.of_nat (length new) in
  (used1 <- setslice used None (Some (- n)%Z) (getslice used (Some n) None) ;;
   setslice used1 (Some (- n)%Z) None new)
  = Err SizeMismatch.
Proof.
  intros Hn n. set (L := length used). set (k := length new) in *.
  assert (Hb1 : slice_bound L n = L) by (unfold slice_bound, n; fold k; destruct (Z.ltb_spec (Z.of_nat k) 0); lia).
  assert (Hb2 : slice_bound L (- n) = 0) by (unfold slice_bound, n; fold k; destruct (Z.ltb_spec (- Z.of_nat k) 0); lia).
  assert (Hg : getslice used (Some n) None = []).
  { unfold getslice, slice_range. fold L. rewrite Hb1, Nat.sub_diag. reflexivity. }
  rewrite Hg.
  assert (E1 : setslice used None (Some (- n)%Z) [] = Ok used).
  { unfold setslice, slice_range. fold L. rewrite Hb2. reflexivity. }
  rewrite E1. cbn [bind].
  unfold setslice, slice_range. fold L. rewrite Hb2, Nat.sub_0_r. fold k.
  replace (k =? L) with false by (symmetry; apply Nat.eqb_neq; lia).
  destruct new as [|x [|y new]]; try reflexivity.
  simpl in k. lia.
Qed.

Lemma count_unique_le (n : nat) (used : list F) :
  index_values n used -> count_unique used <= n.
Proof.
  intros H. unfold count_unique.
  replace n with (length (map (fun i => of_Z (Z.of_nat i)) (seq 0 n)))
    by (now rewrite length_map, length_seq).
  apply NoDup_incl_length; [apply NoDup_nodup|].
  intros x Hx. apply nodup_In in Hx.
  unfold index_values in H. rewrite Forall_forall in H.
  destruct (H x Hx) as (i & Hi & ->).
  apply in_map_iff. exists (Z.to_nat i). split.
  - f_equal. lia.
  - apply in_seq. lia.
Qed.

Lemma usage_ratio_range (c n : nat) :
  0 < n -> c <= n ->
  (0 <= Qmake (Z.of_nat c) (Pos.of_nat n) <= 1)%Q.
Proof.
  intros Hn Hc. unfold Qle; simpl.
  assert (E : Z.pos (Pos.of_nat n) = Z.of_nat n).
  { rewrite <- positive_nat_Z, Nat2Pos.id by lia. reflexivity. }
  rewrite E. lia.
Qed.

Lemma update_usage_ok (vq : VectorQuantizer F) (used : list F) (idx : list Z) :
  codebook_used vq = Some used -> 0 < n_e vq ->
  1 <= length idx <= length used ->
  buffer_writable vq ->
  update_usage vq idx =
  Ok (Qmake (Z.of_nat (count_unique (skipn (length idx) used ++ map of_Z idx)))
            (Pos.of_nat (n_e vq)),
      set_codebook_used vq (skipn (length idx) used ++ map of_Z idx)).
Proof.
  intros Hu Hn Hl Hw. unfold update_usage, buffer_setslice. rewrite Hu, Hw.
  pose proof (shift_append used (map of_Z idx)) as E.
  rewrite length_map in E. specialize (E Hl). cbv zeta in E.
  destruct (setslice used None _ _) as [used1|e]; [|discriminate].
  cbn [bind] in *. rewrite E. cbn [bind].
  replace (n_e vq =? 0) with false by (symmetry; apply Nat.eqb_neq; lia).
  reflexivity.
Qed.


(** With at least one new entry the two sides of the first assignment
    have the same size, so that the copy is attempted: autograd refuses
    it when the buffer is a leaf that requires grad and gradients are
    recorded. *)
Lemma update_usage_refused (vq : VectorQuantizer F) (used : list F) (idx : list Z) :
  codebook_used vq = Some used ->
  1 <= length used -> 1 <= length idx ->
  codebook_used_leaf vq && grad_enabled vq = true ->
  update_usage vq idx = Err LeafInplaceError.
Proof.
  intros Hu Hlu Hl Hw. unfold update_usage, buffer_setslice. rewrite Hu, Hw.
  destruct (Nat.le_gt_cases (length idx) (length used)) as [Hle|Hgt].
  - pose proof (shift_append used (map of_Z idx)) as E.
    rewrite length_map in E. specialize (E (conj Hl Hle)). cbv zeta in E.
    destruct (setslice used None _ _) as [used1|e]; [reflexivity|discriminate].
  - pose proof (shift_append_overflow used (map of_Z idx)) as E.
    rewrite length_map in E. specialize (E (conj Hlu Hgt)). cbv zeta in E.
    destruct (setslice used None _ _) as [used1|e] eqn:E1; [reflexivity|].
    exfalso. revert E1. clear E.
    unfold setslice, slice_range, getslice, slice_range.
    set (L := length used). set (k := length idx) in *.
    assert (Hb1 : slice_bound L (Z.of_nat k) = L)
      by (unfold slice_bound; destruct (Z.ltb_spec (Z.of_nat k) 0); lia).
    assert (Hb2 : slice_bound L (- Z.of_nat k) = 0)
      by (unfold slice_bound; destruct (Z.ltb_spec (- Z.of_nat k) 0); lia).
    rewrite Hb1, Hb2, Nat.sub_diag. cbn [firstn length Nat.sub Nat.eqb]. discriminate.
Qed.
End UsageBuffer.

(** ** The end of [forward] in the two modes *)

Section ForwardModes.
Context {F : Type} {SF : Scalar F}.

Lemma compute_entropy_loss_softmax (affinity : list (list F)) (t : F) :
  exists v, compute_entropy_loss affinity "softmax" t = Ok v.
Proof. unfold compute_entropy_loss. cbn [String.eqb Ascii.eqb Bool.eqb bind]. eauto. Qed.

Lemma forward_tail_eval (vq : VectorQuantizer F) B C H W zdata d idx qdata :
  training vq = false ->
  forward_tail vq [B; H; W; C] zdata d idx qdata =
  Ok (mkForwardOutput (quantized_map B C H W zdata qdata) None None None 0%Q
                      None None (mkIndexTensor [length idx] idx),
      vq).
Proof.
  intros Ht. unfold forward_tail. rewrite Ht, andb_false_r. reflexivity.
Qed.

Lemma forward_tail_train (vq : VectorQuantizer F) B C H W zdata d idx qdata :
  training vq = true ->
  exists l1 l2 l3,
    forward_tail vq [B; H; W; C] zdata d idx qdata =
    (' (usage, vq') <- (if show_usage vq then update_usage vq idx else Ok (0%Q, vq)) ;;
     Ok (mkForwardOutput (quantized_map B C H W zdata qdata)
                         (Some l1) (Some l2) (Some l3) usage
                         None None (mkIndexTensor [length idx] idx),
         vq')).
Proof.
  intros Ht. unfold forward_tail. rewrite Ht, andb_true_r.
  destruct (compute_entropy_loss_softmax (map (map opp) d) (lit 1 100)) as (v & Ev).
  rewrite Ev. cbn [bind]. do 3 eexists.
  destruct (if show_usage vq then _ else _) as [[u vq']|e]; reflexivity.
Qed.


(** In training mode with usage tracking, a call on a batch with at least
    one position is refused by autograd in the first slice assignment
    when the buffer is the leaf that [__init__] registered and gradients
    are recorded. *)
Lemma forward_refused (vq : VectorQuantizer F) (z : Tensor F) (used : list F) B H W :
  codebook_ok vq -> show_usage vq = true -> training vq = true ->
  codebook_used vq = Some used -> 1 <= length used ->
  shape z = [B; e_dim vq; H; W] -> 1 <= B * H * W ->
  codebook_used_leaf vq && grad_enabled vq = true ->
  forward vq z = Err LeafInplaceError.
Proof.
  intros Hcb Hu Ht Eu Hlen Hs H0 Hleaf.
  destruct (forward_eq vq z B (e_dim vq) H W Hcb Hs eq_refl) as (idx & _ & Hl & _ & E).
  destruct (forward_tail_train vq B (e_dim vq) H W
              (concat (input_rows vq z B (e_dim vq) H W))
              (distances (input_rows vq z B (e_dim vq) H W) (codebook vq)) idx
              (concat (gather (codebook vq) idx)) Ht) as (l1 & l2 & l3 & E').
  rewrite E, E', Hu.
  now rewrite (update_usage_refused vq used idx Eu Hlen) by (assumption || lia).
Qed.
End ForwardModes.

(** ** Usage tracking over a sequence of calls *)

Section UsageTracking.
Context {F : Type} {SF : Scalar F}.

Lemma zeros_buffer_state (vq : VectorQuantizer F) :
  0 < n_e vq -> codebook_used vq = Some (repeat zero buffer_size) -> buffer_state vq.
Proof.
  intros Hn Hu. exists (repeat zero buffer_size).
  split; [exact Hu|]. split.
  - apply repeat_length.
  - apply Forall_forall. intros x Hx. apply repeat_spec in Hx as ->.
    exists 0%Z. split; [lia|reflexivity].
Qed.

(** A module built with usage tracking starts with a buffer of zeros, in
    training mode. *)
Lemma init_buffer_state n e b r l2 (u : list (list F)) (vq : VectorQuantizer F) :
  VectorQuantizer_init n e b r l2 true u = Ok vq ->
  buffer_state vq /\ training vq = true /\ show_usage vq = true /\ 0 < n_e vq.
Proof.
  unfold VectorQuantizer_init. destruct (Nat.eqb_spec n 0) as [|Hn]; [discriminate|].
  remember (repeat zero buffer_size) as buf eqn:Hbuf.
  intros E. injection E as <-. cbn [training show_usage n_e].
  repeat split; [|lia]. apply zeros_buffer_state; [cbn [n_e]; lia|].
  cbn [codebook_used]. now rewrite Hbuf.
Qed.

Lemma forward_usage_step (vq : VectorQuantizer F) (z : Tensor F) :
  codebook_ok vq -> show_usage vq = true -> training vq = true ->
  buffer_state vq -> batch_fits vq z -> buffer_writable vq ->
  exists out vq',
    forward vq z = Ok (out, vq') /\ usage_step vq out vq' /\
    codebook_ok vq' /\ show_usage vq' = true /\ training vq' = true /\
    buffer_state vq' /\ e_dim vq' = e_dim vq /\ buffer_writable vq'.
Proof.
  intros Hcb Hu Ht (used & Eu & Hlen & Hv) (B & H & W & Hs & HN) Hwr.
  unfold usage_step, buffer_state. rewrite <- Hlen in HN |- *.
  destruct (forward_eq vq z B (e_dim vq) H W Hcb Hs eq_refl) as (idx & _ & Hl & Hr & E).
  destruct (forward_tail_train vq B (e_dim vq) H W
              (concat (input_rows vq z B (e_dim vq) H W))
              (distances (input_rows vq z B (e_dim vq) H W) (codebook vq)) idx
              (concat (gather (codebook vq) idx)) Ht) as (l1 & l2 & l3 & E').
  rewrite E' in E. clear E'. rewrite Hu in E.
  pose proof Hcb as (Hn & He & Hw).
  rewrite (update_usage_ok vq used idx Eu Hn) in E by (lia || assumption).
  cbn [bind] in E.
  set (used' := skipn (length idx) used ++ map of_Z idx) in *.
  assert (Hlen' : length used' = length used).
  { unfold used'. rewrite length_app, length_skipn, length_map. lia. }
  assert (Hv' : index_values (n_e vq) used').
  { unfold used', index_values. apply Forall_app. split.
    - rewrite <- (firstn_skipn (length idx) used) in Hv.
      now apply Forall_app in Hv.
    - apply Forall_map. eapply Forall_impl; [|exact Hr].
      simpl. intros i Hi. now exists i. }
  do 2 eexists. split; [exact E|].
  split; [|split; [exact Hcb|split; [exact Hu|split; [exact Ht|split;
                                                       [|split; [reflexivity|exact Hwr]]]]]].
  - exists used, used'. cbn [codebook_used set_codebook_used min_encoding_indices
                             idata codebook_usage].
    repeat split; try assumption.
    + unfold Qle; simpl; lia.
    + apply usage_ratio_range; [lia|]. now apply count_unique_le.
  - exists used'. cbn [codebook_used set_codebook_used n_e]. auto.
Qed.
End UsageTracking.

(** ** Calls that return *)

Section ForwardReturns.
Context {F : Type} {SF : Scalar F}.

Lemma forward_returns (vq : VectorQuantizer F) (z : Tensor F) (B H W : nat) :
  codebook_ok vq -> shape z = [B; e_dim vq; H; W] ->
  usage_ready vq (B * H * W) ->
  exists out vq' idx,
    forward vq z = Ok (out, vq') /\ forward_result vq z B H W out idx /\
    (vq' = vq \/ exists used, vq' = set_codebook_used vq used).
Proof.
  intros Hcb Hs Hu.
  destruct (forward_eq vq z B (e_dim vq) H W Hcb Hs eq_refl)
    as (idx & Ei & Hl & Hr & E).
  destruct (training vq) eqn:Ht.
  - destruct (forward_tail_train vq B (e_dim vq) H W
                (concat (input_rows vq z B (e_dim vq) H W))
                (distances (input_rows vq z B (e_dim vq) H W) (codebook vq)) idx
                (concat (gather (codebook vq) idx)) Ht) as (l1 & l2 & l3 & E').
    rewrite E' in E. clear E'. unfold usage_ready in Hu. rewrite Ht, andb_true_r in Hu.
    destruct (show_usage vq) eqn:Eu.
    + destruct (Hu eq_refl) as (used & Hused & Hlen & Hfit & Hwr).
      pose proof Hcb as (Hn & _).
      rewrite (update_usage_ok vq used idx Hused Hn) in E
        by ((rewrite Hlen; lia) || assumption).
      cbn [bind] in E. do 3 eexists. split; [exact E|].
      split; [|right; eexists; reflexivity]. unfold forward_result.
      cbn [min_encoding_indices z_q]. rewrite Hl. auto.
    + cbn [bind] in E. do 3 eexists. split; [exact E|].
      split; [|now left]. unfold forward_result.
      cbn [min_encoding_indices z_q]. rewrite Hl. auto.
  - rewrite forward_tail_eval in E by assumption.
    do 3 eexists. split; [exact E|].
    split; [|now left]. unfold forward_result.
    cbn [min_encoding_indices z_q]. rewrite Hl. auto.
Qed.

Lemma forward_deterministic_result (vq : VectorQuantizer F) (z : Tensor F) (B H W : nat)
      (out : ForwardOutput F) (idx idx' : list Z) :
  forward_result vq z B H W out idx -> forward_result vq z B H W out idx' -> idx = idx'.
Proof. intros (E & _) (E' & _). congruence. Qed.

Lemma usage_ready_eval (vq : VectorQuantizer F) (N : nat) :
  training vq = false -> usage_ready vq N.
Proof. unfold usage_ready. intros ->. rewrite andb_false_r. discriminate. Qed.

(** The element of the returned map at a position, before any assumption
    on the arithmetic. *)
Lemma quantized_map_at (B C H W : nat) (zdata qdata : list F) (b c h w : nat) :
  b < B -> c < C -> h < H -> w < W ->
  get4 (quantized_map B C H W zdata qdata) b c h w =
  nth (((b * H + h) * W + w) * C + c)
      (map2 (fun x q => add x (sub q x)) zdata qdata) zero.
Proof.
  intros Hb Hc Hh Hw. unfold quantized_map, get4 at 1. cbn [shape data].
  rewrite nth_tabulate4 by assumption. reflexivity.
Qed.

Lemma gather_length (table : list (list F)) (idx : list Z) :
  length (gather table idx) = length idx.
Proof. apply length_map. Qed.

Lemma nth_gather (table : list (list F)) (idx : list Z) (p : nat) :
  p < length idx ->
  nth p (gather table idx) [] = nth (Z.to_nat (nth p idx 0%Z)) table [].
Proof.
  intros Hp. unfold gather.
  rewrite (nth_indep _ [] (nth (Z.to_nat 0%Z) table [])) by now rewrite length_map.
  apply (map_nth (fun i => nth (Z.to_nat i) table [])).
Qed.
End ForwardReturns.

(* ------------------------------------------------------------------ *)
(** * The claims of the specification *)

Section UsageClaims.
Context {F : Type} {SF : Scalar F}.

Lemma batch_fits_e_dim (vq vq' : VectorQuantizer F) (z : Tensor F) :
  e_dim vq' = e_dim vq -> batch_fits vq z -> batch_fits vq' z.
Proof. unfold batch_fits. now intros ->. Qed.




(** C6. In evaluation mode [forward] returns, reports the three losses as
    [None] and a usage of 0, leaves the module (its buffer included) as it
    was, and its quantized map and index map are those of a call in
    training mode on the same input and codebook. *)
Theorem eval_mode_forward (vq : VectorQuantizer F) (z : Tensor F) (B H W : nat) :
  codebook_ok vq -> shape z = [B; e_dim vq; H; W] ->
  exists out,
    forward (train false vq) z = Ok (out, train false vq) /\
    vq_loss out = None /\ commit_loss out = None /\ entropy_loss out = None /\
    codebook_usage out = 0%Q /\
    forall out_t vq_t,
      forward (train true vq) z = Ok (out_t, vq_t) ->
      z_q out_t = z_q out /\
      min_encoding_indices out_t = min_encoding_indices out.
Proof.
  intros Hcb Hs.
  destruct (forward_eq (train false vq) z B (e_dim vq) H W Hcb Hs eq_refl)
    as (idx & Ei & _ & _ & E).
  rewrite forward_tail_eval in E by reflexivity.
  eexists. split; [exact E|]. cbn [vq_loss commit_loss entropy_loss codebook_usage].
  do 4 (split; [reflexivity|]).
  intros out_t vq_t Et.
  destruct (forward_eq (train true vq) z B (e_dim vq) H W Hcb Hs eq_refl)
    as (idx' & Ei' & _ & _ & E').
  change (mapM argmin (distances (input_rows vq z B (e_dim vq) H W) (codebook vq))
          = Ok idx) in Ei.
  change (mapM argmin (distances (input_rows vq z B (e_dim vq) H W) (codebook vq))
          = Ok idx') in Ei'.
  assert (idx' = idx) by congruence. subst idx'.
  destruct (forward_tail_train (train true vq) B (e_dim vq) H W
              (concat (input_rows (train true vq) z B (e_dim vq) H W))
              (distances (input_rows (train true vq) z B (e_dim vq) H W)
                         (codebook (train true vq))) idx
              (concat (gather (codebook (train true vq)) idx)) eq_refl)
    as (l1 & l2 & l3 & E'').
  rewrite E', E'' in Et.
  destruct (if show_usage (train true vq) then _ else _) as [[u v]|e];
    cbn [bind] in Et; [|discriminate].
  injection Et as <- <-. split; reflexivity.
Qed.
End UsageClaims.

(** ** Lookup by index and construction *)

Section LookupClaims.
Context {F : Type} {SF : Scalar F}.

Lemma index_row_cases (table : list (list F)) (i : Z) :
  let n := Z.of_nat (length table) in
  ((- n <= i < n)%Z /\
   index_row table i
   = Ok (nth (Z.to_nat (if (i <? 0)%Z then i + n else i)%Z) table [])) \/
  ((i < - n \/ n <= i)%Z /\ index_row table i = Err IndexError).
Proof.
  intros n. unfold index_row. fold n.
  destruct (Z.leb_spec (- n) i); destruct (Z.ltb_spec i n); cbn [andb];
    [left|right|right|right]; split; auto; lia.
Qed.

(** C4 (amended). A lookup raises an out-of-range error exactly when an
    index lies outside [-size, size); with all indices in [-size, size) it
    returns the rows, where a negative index [i] selects row [size + i]. *)
Theorem lookup_index_range (vq : VectorQuantizer F) (indices : IndexTensor)
        (shape : option (list nat)) (channel_first : bool) :
  let n := Z.of_nat (length (embedding_weight vq)) in
  ((exists i, In i (idata indices) /\ (i < - n \/ n <= i)%Z) ->
   get_codebook_entry vq indices shape channel_first = Err IndexError) /\
  (Forall (fun i => (- n <= i < n)%Z) (idata indices) ->
   get_codebook_entry vq indices None channel_first
   = Ok (mkTensor (ishape indices ++ [e_dim vq])
           (concat (map (fun i => nth (Z.to_nat (if (i <? 0)%Z then i + n else i)%Z)
                                      (codebook vq) [])
                        (idata indices))))).
Proof.
  intros n. unfold get_codebook_entry. fold (codebook vq). unfold index_tensor.
  assert (Hn : Z.of_nat (length (codebook vq)) = n)
    by (unfold n; now rewrite codebook_length).
  split.
  - intros (i & Hi & Hout).
    unfold index_rows. rewrite (mapM_Err _ IndexError); [reflexivity| |].
    + intros a _. destruct (index_row_cases (codebook vq) a) as [(_ & E)|(_ & E)];
        [right; eauto|now left].
    + exists i. split; [assumption|].
      destruct (index_row_cases (codebook vq) i) as [(Hr & _)|(_ & E)];
        [rewrite Hn in Hr; lia|assumption].
  - intros Hall. unfold index_rows.
    rewrite (mapM_Ok_map _ (fun i =>
               nth (Z.to_nat (if (i <? 0)%Z then i + n else i)%Z) (codebook vq) [])).
    + reflexivity.
    + intros a Ha. rewrite Forall_forall in Hall. specialize (Hall a Ha).
      destruct (index_row_cases (codebook vq) a) as [(_ & E)|(Hr & _)];
        [now rewrite Hn in E|rewrite Hn in Hr; lia].
Qed.
End LookupClaims.


(** ** The straight-through value *)

Section StraightThrough.
Context {F : Type} {SF : Scalar F}.

(** The rewrite [z + (z_q - z)] returns [z_q] itself when the arithmetic
    is exact. *)
Hypothesis add_sub_exact : forall a b : F, add a (sub b a) = b.

Lemma map2_straight_through (zs qs : list F) :
  length zs = length qs -> map2 (fun x q => add x (sub q x)) zs qs = qs.
Proof.
  revert qs; induction zs as [|x zs IH]; intros [|q qs] Hl; try discriminate.
  - reflexivity.
  - simpl. rewrite add_sub_exact, IH; [reflexivity|]. now injection Hl.
Qed.

Lemma quantized_data_exact (vq : VectorQuantizer F) (z : Tensor F) (B H W : nat)
      (idx : list Z) :
  codebook_ok vq -> length idx = B * H * W ->
  Forall (fun i => (0 <= i < Z.of_nat (n_e vq))%Z) idx ->
  map2 (fun x q => add x (sub q x))
       (concat (input_rows vq z B (e_dim vq) H W))
       (concat (gather (codebook vq) idx))
  = concat (gather (codebook vq) idx).
Proof.
  intros Hcb Hl Hr. pose proof Hcb as (_ & _ & Hlen & _).
  apply map2_straight_through.
  rewrite (concat_length_uniform (e_dim vq)) by apply input_rows_width.
  rewrite (concat_length_uniform (e_dim vq)).
  - now rewrite input_rows_length, gather_length, Hl.
  - apply gather_width; [now apply codebook_width|].
    now rewrite codebook_length, Hlen.
Qed.

Lemma quantized_row_exact (vq : VectorQuantizer F) (z : Tensor F) (B H W : nat)
      (idx : list Z) (b h w c : nat) :
  codebook_ok vq -> length idx = B * H * W ->
  Forall (fun i => (0 <= i < Z.of_nat (n_e vq))%Z) idx ->
  b < B -> h < H -> w < W -> c < e_dim vq ->
  get4 (quantized_map B (e_dim vq) H W
          (concat (input_rows vq z B (e_dim vq) H W))
          (concat (gather (codebook vq) idx))) b c h w
  = nth c (nth (Z.to_nat (nth ((b * H + h) * W + w) idx 0%Z)) (codebook vq) []) zero.
Proof.
  intros Hcb Hl Hr Hb Hh Hw Hc.
  assert (Hp : (b * H + h) * W + w < length idx).
  { rewrite Hl. apply index_bound; [apply index_bound|]; assumption. }
  rewrite quantized_map_at by assumption.
  rewrite quantized_data_exact by assumption.
  pose proof Hcb as (_ & _ & Hlen & _).
  rewrite (nth_concat_uniform (e_dim vq)).
  - now rewrite nth_gather.
  - apply gather_width; [now apply codebook_width|].
    now rewrite codebook_length, Hlen.
  - now rewrite gather_length.
  - exact Hc.
Qed.

(** C2 (amended). In exact arithmetic a call of [forward] that fits the
    module returns, and the vector of the returned map at every position
    (b, h, w) is the codebook row, as read, whose index the returned index
    map holds for that position. *)
Theorem forward_returns_codebook_rows (vq : VectorQuantizer F) (z : Tensor F)
        (B H W : nat) :
  codebook_ok vq -> shape z = [B; e_dim vq; H; W] ->
  usage_ready vq (B * H * W) ->
  exists out vq',
    forward vq z = Ok (out, vq') /\
    ishape (min_encoding_indices out) = [B * H * W] /\
    length (idata (min_encoding_indices out)) = B * H * W /\
    forall b h w, b < B -> h < H -> w < W ->
      let i := nth ((b * H + h) * W + w) (idata (min_encoding_indices out)) 0%Z in
      (0 <= i < Z.of_nat (n_e vq))%Z /\
      forall c, c < e_dim vq ->
        get4 (z_q out) b c h w = nth c (nth (Z.to_nat i) (codebook vq) []) zero.
Proof.
  intros Hcb Hs Hu.
  destruct (forward_returns vq z B H W Hcb Hs Hu)
    as (out & vq' & idx & E & (_ & Hl & Hr & Ei & Eq) & _).
  exists out, vq'. split; [exact E|]. rewrite Ei. cbn [ishape idata].
  split; [reflexivity|]. split; [exact Hl|].
  intros b h w Hb Hh Hw.
  assert (Hp : (b * H + h) * W + w < length idx).
  { rewrite Hl. apply index_bound; [apply index_bound|]; assumption. }
  split.
  - rewrite Forall_forall in Hr. apply Hr, nth_In, Hp.
  - intros c Hc. rewrite Eq. now apply quantized_row_exact.
Qed.

(** C3 (amended). In exact arithmetic, [get_codebook_entry] on the index
    map of a [forward] call, with the shape of the input and
    [channel_first=True], returns the quantized map of that call. *)
Theorem lookup_round_trip (vq : VectorQuantizer F) (z : Tensor F) (B H W : nat) :
  codebook_ok vq -> shape z = [B; e_dim vq; H; W] ->
  usage_ready vq (B * H * W) ->
  exists out vq',
    forward vq z = Ok (out, vq') /\
    get_codebook_entry vq' (min_encoding_indices out) (Some (shape z)) true
    = Ok (z_q out).
Proof.
  intros Hcb Hs Hu.
  destruct (forward_returns vq z B H W Hcb Hs Hu)
    as (out & vq' & idx & E & (_ & Hl & Hr & Ei & Eq) & Ew).
  exists out, vq'. split; [exact E|].
  pose proof Hcb as (_ & _ & Hlen & _).
  assert (Ecb : codebook vq' = codebook vq /\ e_dim vq' = e_dim vq).
  { destruct Ew as [->|(used & ->)]; split; reflexivity. }
  destruct Ecb as (Ecb & Ee).
  assert (Hg : index_rows (codebook vq) idx = Ok (gather (codebook vq) idx)).
  { apply index_rows_ok. now rewrite codebook_length, Hlen. }
  assert (Hq : length (concat (gather (codebook vq) idx)) = B * H * W * e_dim vq).
  { rewrite (concat_length_uniform (e_dim vq)).
    - now rewrite gather_length, Hl.
    - apply gather_width; [now apply codebook_width|].
      now rewrite codebook_length, Hlen. }
  unfold get_codebook_entry. fold (codebook vq'). rewrite Ecb, Ee, Ei, Hs.
  unfold index_tensor. cbn [idata ishape]. rewrite Hg. cbn [bind].
  unfold reshape. cbn [data]. rewrite numel4, Hq, Nat.eqb_refl. cbn [bind].
  rewrite Eq. unfold quantized_map, permute_0312. cbn [shape].
  now rewrite quantized_data_exact.
Qed.
End StraightThrough.

(** ** Nearest neighbour, on the reals *)

Lemma Forall2_nth_rel {A B : Type} (P : A -> B -> Prop) (l : list A) (l' : list B)
      (p : nat) (da : A) (db : B) :
  Forall2 P l l' -> p < length l -> P (nth p l da) (nth p l' db).
Proof.
  intros H; revert p; induction H as [|a b l l' Hab _ IH]; simpl; intros p Hp; [lia|].
  destruct p; [assumption|]. apply IH. lia.
Qed.

Section RealArithmetic.
Local Open Scope R_scope.

Lemma Rsum_acc (v : list R) (a : R) : fold_left Rplus v a = a + fold_left Rplus v 0.
Proof.
  revert a; induction v as [|x v IH]; simpl; intros a; [lra|].
  rewrite (IH (a + x)), (IH (0 + x)). lra.
Qed.

Lemma Rsum_cons (x : R) (v : list R) : sum (x :: v) = x + sum v.
Proof.
  unfold sum. cbn [fold_left add R_Scalar zero of_Z].
  rewrite Rsum_acc. lra.
Qed.

Lemma Rsum_nil : sum (@nil R) = 0.
Proof. reflexivity. Qed.

Lemma Rsum_nonneg (v : list R) : Forall (fun x => 0 <= x) v -> 0 <= sum v.
Proof.
  induction 1 as [|x v Hx _ IH]; [rewrite Rsum_nil; lra|]. rewrite Rsum_cons. lra.
Qed.

Lemma sum_sq_cons (x : R) (v : list R) : sum_sq (x :: v) = x * x + sum_sq v.
Proof. unfold sum_sq. cbn [map]. now rewrite Rsum_cons. Qed.

Lemma sum_sq_nonneg (v : list R) : 0 <= sum_sq v.
Proof.
  unfold sum_sq. apply Rsum_nonneg, Forall_map, Forall_forall.
  intros x _. unfold square. cbn [mul R_Scalar]. nra.
Qed.

Lemma dot_cons (x y : R) (u v : list R) : dot (x :: u) (y :: v) = x * y + dot u v.
Proof. unfold dot. cbn [map2]. now rewrite Rsum_cons. Qed.

Lemma sq_dist_cons (x y : R) (u v : list R) :
  sq_dist (x :: u) (y :: v) = (x - y) * (x - y) + sq_dist u v.
Proof. unfold sq_dist. cbn [map2]. now rewrite Rsum_cons. Qed.

(** The identity behind the distance matrix:
    |u|^2 + |v|^2 - 2 u.v = |u - v|^2. *)
Lemma distance_identity (u v : list R) :
  length u = length v ->
  sub (add (sum_sq u) (sum_sq v)) (mul (of_Z 2) (dot u v)) = sq_dist u v.
Proof.
  cbn [sub add mul of_Z R_Scalar].
  revert v; induction u as [|x u IH]; intros [|y v] Hl; try discriminate.
  - unfold sum_sq, dot, sq_dist. cbn [map map2]. rewrite Rsum_nil. lra.
  - rewrite !sum_sq_cons, dot_cons, sq_dist_cons, <- IH by (now injection Hl). lra.
Qed.

Lemma Rltb_true (a b : R) : Rltb a b = true <-> a < b.
Proof. unfold Rltb. destruct (Rlt_dec a b); split; intros; try lra; discriminate. Qed.

Lemma Rltb_false (a b : R) : Rltb a b = false <-> b <= a.
Proof. unfold Rltb. destruct (Rlt_dec a b); split; intros; try lra; discriminate. Qed.

Lemma R_no_nan (x : R) : isnan x = false.
Proof.
  unfold isnan. cbn [eqb R_Scalar]. unfold Reqb.
  destruct (Req_dec_T x x); [reflexivity|congruence].
Qed.

Lemma Rltb_irrefl (x : R) : ltb x x = false.
Proof. apply Rltb_false. lra. Qed.

Lemma Rltb_trans (a b c : R) : ltb a b = true -> ltb b c = true -> ltb a c = true.
Proof. cbn [ltb R_Scalar]. rewrite !Rltb_true. lra. Qed.

Lemma Rltb_total (a b c : R) : ltb a b = true -> ltb c b = false -> ltb a c = true.
Proof. cbn [ltb R_Scalar]. rewrite !Rltb_true, Rltb_false. lra. Qed.

Lemma nth_input_rows (vq : VectorQuantizer R) (z : Tensor R) (B H W b h w : nat) :
  (b < B)%nat -> (h < H)%nat -> (w < W)%nat ->
  nth ((b * H + h) * W + w)%nat (input_rows vq z B (e_dim vq) H W) []
  = input_vector vq z b h w.
Proof.
  intros Hb Hh Hw. unfold input_rows, input_vector, flat_rows.
  destruct (l2_norm vq).
  - rewrite (nth_indep _ [] (normalize []))
      by (rewrite length_map, tabulate3_length;
          apply index_bound; [apply index_bound|]; assumption).
    rewrite map_nth. now rewrite nth_tabulate3.
  - now rewrite nth_tabulate3.
Qed.

(** C1 (amended). On the reals a call of [forward] that fits the module
    returns, and the index it assigns to a position (b, h, w) is that of a
    codebook row, as read, at least squared Euclidean distance from the
    input vector of the position (both normalized under [l2_norm]); the
    entries of the distance matrix, [|z|^2 + |e|^2 - 2 z.e], are these
    squared distances; every row before the selected one is strictly
    farther. *)
Theorem forward_index_is_nearest (vq : VectorQuantizer R) (z : Tensor R) (B H W : nat) :
  codebook_ok vq -> shape z = [B; e_dim vq; H; W] ->
  usage_ready vq (B * H * W) ->
  exists out vq',
    forward vq z = Ok (out, vq') /\
    length (idata (min_encoding_indices out)) = (B * H * W)%nat /\
    forall b h w, (b < B)%nat -> (h < H)%nat -> (w < W)%nat ->
      let x := input_vector vq z b h w in
      let i := nth ((b * H + h) * W + w)%nat (idata (min_encoding_indices out)) 0%Z in
      let e := fun j => nth j (codebook vq) [] in
      (0 <= i < Z.of_nat (n_e vq))%Z /\
      (forall j, (j < n_e vq)%nat ->
         sub (add (sum_sq x) (sum_sq (e j))) (mul (of_Z 2) (dot x (e j)))
         = sq_dist x (e j)) /\
      (forall j, (j < n_e vq)%nat -> sq_dist x (e (Z.to_nat i)) <= sq_dist x (e j)) /\
      (forall j, (j < Z.to_nat i)%nat -> sq_dist x (e (Z.to_nat i)) < sq_dist x (e j)).
Proof.
  intros Hcb Hs Hu.
  destruct (forward_returns vq z B H W Hcb Hs Hu)
    as (out & vq' & idx & E & (Ea & Hl & Hr & Ei & _) & _).
  exists out, vq'. split; [exact E|].
  split; [rewrite Ei; exact Hl|]. intros b h w Hb Hh Hw x i e.
  assert (Ei' : i = nth ((b * H + h) * W + w)%nat idx 0%Z)
    by (unfold i; now rewrite Ei).
  clearbody i. subst i. set (i := nth ((b * H + h) * W + w)%nat idx 0%Z).
  pose proof Hcb as (_ & _ & Hlen & _).
  assert (Hp : ((b * H + h) * W + w < B * H * W)%nat)
    by (apply index_bound; [apply index_bound|]; assumption).
  assert (Hx : length x = e_dim vq).
  { unfold x. rewrite <- (nth_input_rows vq z B H W b h w) by assumption.
    pose proof (input_rows_width vq z B (e_dim vq) H W) as Hw'.
    rewrite Forall_forall in Hw'. apply Hw', nth_In.
    now rewrite input_rows_length. }
  assert (He : forall j, (j < n_e vq)%nat -> length (e j) = e_dim vq).
  { intros j Hj. pose proof (codebook_width vq Hcb) as Hw'.
    rewrite Forall_forall in Hw'. apply Hw', nth_In.
    now rewrite codebook_length, Hlen. }
  assert (Hid : forall j, (j < n_e vq)%nat ->
            sub (add (sum_sq x) (sum_sq (e j))) (mul (of_Z 2) (dot x (e j)))
            = sq_dist x (e j)).
  { intros j Hj. apply distance_identity. now rewrite Hx, He. }
  assert (Hi : (0 <= i < Z.of_nat (n_e vq))%Z).
  { rewrite Forall_forall in Hr. apply Hr, nth_In. now rewrite Hl. }
  split; [exact Hi|]. split; [exact Hid|].
  (* the row of the distance matrix for this position *)
  set (g := fun y : list R =>
              sub (add (sum_sq x) (sum_sq y)) (mul (of_Z 2) (dot x y))).
  assert (Hrow : argmin (map g (codebook vq)) = Ok i).
  { apply mapM_Ok_inv in Ea.
    pose proof (Forall2_nth_rel _ _ _ ((b * H + h) * W + w)%nat [] 0%Z Ea) as Hn.
    unfold distances in Hn at 1.
    rewrite length_map, input_rows_length in Hn. specialize (Hn Hp).
    cbv beta in Hn. fold i in Hn. rewrite <- Hn. f_equal. unfold distances.
    rewrite (nth_indep _ [] (map (fun e0 : list R =>
               sub (add (sum_sq []) (sum_sq e0)) (mul (of_Z 2) (dot [] e0)))
               (codebook vq)))
      by now rewrite length_map, input_rows_length.
    rewrite (map_nth (fun zr : list R => map (fun e0 : list R =>
               sub (add (sum_sq zr) (sum_sq e0)) (mul (of_Z 2) (dot zr e0)))
               (codebook vq))).
    rewrite nth_input_rows by assumption. reflexivity. }
  destruct (argmin_least R_no_nan Rltb_irrefl Rltb_trans Rltb_total _ _ (g []) Hrow)
    as (Hri & Hmin & Hfirst).
  rewrite length_map, codebook_length, Hlen in Hri, Hmin.
  assert (Hnth : forall j, nth j (map g (codebook vq)) (g []) = g (e j))
    by (intros j; apply map_nth).
  split.
  - intros j Hj. specialize (Hmin j Hj). rewrite !Hnth in Hmin.
    apply Rltb_false in Hmin. unfold g in Hmin.
    rewrite !Hid in Hmin by assumption. exact Hmin.
  - intros j Hj. specialize (Hfirst j Hj). rewrite !Hnth in Hfirst.
    apply Rltb_true in Hfirst. unfold g in Hfirst.
    rewrite !Hid in Hfirst by lia. exact Hfirst.
Qed.
End RealArithmetic.

(** ** Norms, on the reals *)

Section RealNorms.
Local Open Scope R_scope.

Lemma real_add_sub_exact : forall a b : R, add a (sub b a) = b.
Proof. intros a b. cbn [add sub R_Scalar]. apply Rplus_minus. Defined.

Lemma eps12_pos : 0 < eps12.
Proof.
  unfold eps12. cbn [lit R_Scalar]. apply Rdiv_lt_0_compat; apply IZR_lt; lia.
Qed.

Lemma clamp_min_cases (x lo : R) :
  (x < lo /\ clamp_min x lo = lo) \/ (lo <= x /\ clamp_min x lo = x).
Proof.
  unfold clamp_min. cbn [ltb R_Scalar]. unfold Rltb.
  destruct (Rlt_dec x lo); [left|right]; split; auto; lra.
Qed.

Lemma norm2_nonneg (v : list R) : 0 <= norm2 v.
Proof. unfold norm2. cbn [sqrt R_Scalar]. apply sqrt_pos. Qed.

Lemma norm2_sqr (v : list R) : norm2 v * norm2 v = sum_sq v.
Proof. unfold norm2. cbn [sqrt R_Scalar]. apply sqrt_sqrt, sum_sq_nonneg. Qed.

Lemma sum_sq_map_div (v : list R) (d : R) :
  d <> 0 -> sum_sq (map (fun x => div x d) v) = sum_sq v / (d * d).
Proof.
  intros Hd. cbn [div R_Scalar].
  induction v as [|x v IH].
  - unfold sum_sq. cbn [map]. rewrite Rsum_nil. unfold Rdiv. ring.
  - cbn [map]. rewrite !sum_sq_cons, IH. field. exact Hd.
Qed.

(** The denominator of [normalize]. *)
Lemma normalize_denominator (v : list R) :
  let d := clamp_min (norm2 v) eps12 in
  0 < d /\ norm2 v <= d /\ (eps12 <= norm2 v -> d = norm2 v).
Proof.
  intros d. pose proof eps12_pos. pose proof (norm2_nonneg v).
  unfold d. destruct (clamp_min_cases (norm2 v) eps12) as [(Hlt & ->)|(Hge & ->)];
    repeat split; try lra.
Qed.

(** A vector of norm at least [eps] is normalized to norm 1. *)
Lemma norm2_normalize (v : list R) : eps12 <= norm2 v -> norm2 (normalize v) = 1.
Proof.
  intros Hv. destruct (normalize_denominator v) as (Hd & _ & Ed).
  specialize (Ed Hv). unfold normalize. rewrite Ed in *.
  unfold norm2 at 1. rewrite sum_sq_map_div by lra.
  rewrite norm2_sqr. cbn [sqrt R_Scalar].
  replace (sum_sq v / sum_sq v) with 1; [apply sqrt_1|].
  rewrite <- norm2_sqr. field. lra.
Qed.

(** Whatever the vector, its normalization has norm at most 1. *)
Lemma sum_sq_normalize_le (v : list R) : sum_sq (normalize v) <= 1.
Proof.
  destruct (normalize_denominator v) as (Hd & Hle & _).
  unfold normalize. set (d := clamp_min (norm2 v) eps12) in *.
  rewrite sum_sq_map_div by lra.
  apply Rmult_le_reg_r with (d * d); [nra|].
  replace (sum_sq v / (d * d) * (d * d)) with (sum_sq v) by (field; lra).
  rewrite <- norm2_sqr. pose proof (norm2_nonneg v). nra.
Qed.

Lemma cauchy_schwarz_step (x y s A B : R) :
  0 <= A -> 0 <= B -> s * s <= A * B ->
  (x * y + s) * (x * y + s) <= (x * x + A) * (y * y + B).
Proof.
  intros HA HB Hs.
  set (P := x * x * B). set (Q := A * (y * y)). set (T := x * y * s).
  assert (HP : 0 <= P) by (apply Rmult_le_pos; [apply Rle_0_sqr|assumption]).
  assert (HQ : 0 <= Q) by (apply Rmult_le_pos; [assumption|apply Rle_0_sqr]).
  assert (HT : T * T <= P * Q).
  { replace (T * T) with ((x * y) * (x * y) * (s * s)) by (unfold T; ring).
    replace (P * Q) with ((x * y) * (x * y) * (A * B)) by (unfold P, Q; ring).
    apply Rmult_le_compat_l; [apply Rle_0_sqr|assumption]. }
  assert (H : 2 * T <= P + Q).
  { destruct (Rle_dec T 0) as [Hn|Hp]; [lra|]. apply Rnot_le_lt in Hp.
    apply Rsqr_incr_0; [|lra|lra]. unfold Rsqr.
    pose proof (Rle_0_sqr (P - Q)) as H2. unfold Rsqr in H2.
    replace ((P + Q) * (P + Q)) with ((P - Q) * (P - Q) + 4 * (P * Q)) by ring.
    replace (2 * T * (2 * T)) with (4 * (T * T)) by ring. lra. }
  replace ((x * y + s) * (x * y + s)) with (x * x * (y * y) + 2 * T + s * s)
    by (unfold T; ring).
  replace ((x * x + A) * (y * y + B)) with (x * x * (y * y) + (P + Q) + A * B)
    by (unfold P, Q; ring).
  lra.
Qed.

Lemma cauchy_schwarz (u v : list R) : dot u v * dot u v <= sum_sq u * sum_sq v.
Proof.
  revert v; induction u as [|x u IH]; intros [|y v].
  - unfold dot, sum_sq. cbn [map map2]. rewrite Rsum_nil. lra.
  - unfold dot at 1 2, sum_sq at 1. cbn [map map2]. rewrite Rsum_nil.
    pose proof (sum_sq_nonneg (y :: v)). lra.
  - unfold dot at 1 2, sum_sq at 2. cbn [map map2]. rewrite Rsum_nil.
    pose proof (sum_sq_nonneg (x :: u)). lra.
  - rewrite dot_cons, !sum_sq_cons.
    apply cauchy_schwarz_step; [apply sum_sq_nonneg|apply sum_sq_nonneg|apply IH].
Qed.

(** The squared cosine of two normalized vectors. *)
Lemma squared_cosine_range (u v : list R) :
  0 <= square (dot (normalize u) (normalize v)) <= 1.
Proof.
  unfold square. cbn [mul R_Scalar]. split; [apply Rle_0_sqr|].
  eapply Rle_trans; [apply cauchy_schwarz|].
  pose proof (sum_sq_normalize_le u). pose proof (sum_sq_normalize_le v).
  pose proof (sum_sq_nonneg (normalize u)). pose proof (sum_sq_nonneg (normalize v)).
  nra.
Qed.

Lemma Rsum_le_length (l : list R) :
  Forall (fun x => 0 <= x <= 1) l -> 0 <= sum l <= INR (length l).
Proof.
  induction 1 as [|x l Hx _ IH].
  - rewrite Rsum_nil. simpl. lra.
  - rewrite Rsum_cons. change (length (x :: l)) with (S (length l)).
    rewrite S_INR. lra.
Qed.

Lemma mean_range (l : list R) :
  l <> [] -> Forall (fun x => 0 <= x <= 1) l -> 0 <= mean l <= 1.
Proof.
  intros Hne Hl. unfold mean. cbn [div of_Z R_Scalar].
  rewrite <- INR_IZR_INZ.
  assert (Hn : 0 < INR (length l)).
  { apply lt_0_INR. destruct l; [congruence|simpl; lia]. }
  destruct (Rsum_le_length l Hl) as (H0 & H1). split.
  - unfold Rdiv. apply Rmult_le_pos; [assumption|].
    apply Rlt_le, Rinv_0_lt_compat, Hn.
  - apply Rmult_le_reg_r with (INR (length l)); [assumption|].
    replace (sum l / INR (length l) * INR (length l)) with (sum l) by (field; lra).
    lra.
Qed.
Lemma map_nth_seq_all {A : Type} (l : list A) (d : A) :
  map (fun c => nth c l d) (seq 0 (length l)) = l.
Proof.
  apply nth_ext with (d := d) (d' := d).
  - now rewrite length_map, length_seq.
  - intros n Hn. rewrite length_map, length_seq in Hn.
    rewrite (nth_indep _ d ((fun c => nth c l d) 0%nat))
      by now rewrite length_map, length_seq.
    rewrite (map_nth (fun c => nth c l d)), seq_nth by assumption. reflexivity.
Qed.

(** A vector of norm below [eps] is divided by [eps]: what is read has a
    norm below 1. *)
Lemma norm2_normalize_small (v : list R) :
  norm2 v < eps12 ->
  normalize v = map (fun x => x / eps12) v /\
  norm2 (normalize v) = norm2 v / eps12 /\
  norm2 (normalize v) < 1.
Proof.
  intros Hv. pose proof eps12_pos as He. pose proof (norm2_nonneg v) as Hn.
  assert (Ed : clamp_min (norm2 v) eps12 = eps12).
  { destruct (clamp_min_cases (norm2 v) eps12) as [(_ & ->)|(Hge & _)];
      [reflexivity|lra]. }
  assert (En : normalize v = map (fun x => x / eps12) v).
  { unfold normalize. rewrite Ed. reflexivity. }
  assert (E2 : norm2 (normalize v) = norm2 v / eps12).
  { rewrite En. unfold norm2 at 1.
    change (fun x : R => x / eps12) with (fun x : R => div x eps12).
    rewrite sum_sq_map_div by lra. cbn [sqrt R_Scalar].
    replace (sum_sq v / (eps12 * eps12))
      with ((norm2 v / eps12) * (norm2 v / eps12))
      by (rewrite <- norm2_sqr; field; lra).
    apply sqrt_square. apply Rmult_le_pos; [exact Hn|].
    left. now apply Rinv_0_lt_compat. }
  split; [exact En|]. split; [exact E2|].
  rewrite E2. apply Rmult_lt_reg_r with eps12; [exact He|].
  replace (norm2 v / eps12 * eps12) with (norm2 v) by (field; lra). lra.
Qed.

(** C7 (amended). With [l2_norm], [__init__] stores the normalized rows,
    and the codebook is normalized again at every read, by [forward] and
    by [get_codebook_entry] alike: a stored row of norm at least
    [eps = 1e-12] is read with norm 1, a stored row of smaller norm is
    read as the row divided by [eps], with a norm below 1.  Every vector
    of the map returned by [forward] is the row read for its index, so
    that it has norm 1 when the stored row has norm at least [eps] and a
    norm below 1 otherwise; [forward] leaves the stored rows as they
    were. *)
Theorem unit_norm_as_read (vq : VectorQuantizer R) (z : Tensor R) (B H W : nat) :
  codebook_ok vq -> l2_norm vq = true ->
  shape z = [B; e_dim vq; H; W] ->
  usage_ready vq (B * H * W) ->
  (forall n e b r su u vq0,
     VectorQuantizer_init n e b r true su u = Ok vq0 ->
     embedding_weight vq0 = map normalize u) /\
  (forall j, (j < n_e vq)%nat ->
     let stored := nth j (embedding_weight vq) [] in
     let read := nth j (codebook vq) [] in
     read = normalize stored /\
     get_codebook_entry vq (mkIndexTensor [] [Z.of_nat j]) None true
     = Ok (mkTensor [e_dim vq] read) /\
     (eps12 <= norm2 stored -> norm2 read = 1) /\
     (norm2 stored < eps12 ->
      read = map (fun x => x / eps12) stored /\
      norm2 read = norm2 stored / eps12 /\ norm2 read < 1)) /\
  exists out vq',
    forward vq z = Ok (out, vq') /\
    embedding_weight vq' = embedding_weight vq /\
    forall b h w, (b < B)%nat -> (h < H)%nat -> (w < W)%nat ->
      let i := nth ((b * H + h) * W + w)%nat (idata (min_encoding_indices out)) 0%Z in
      let stored := nth (Z.to_nat i) (embedding_weight vq) [] in
      let v := map (fun c => get4 (z_q out) b c h w) (seq 0 (e_dim vq)) in
      (0 <= i < Z.of_nat (n_e vq))%Z /\
      v = nth (Z.to_nat i) (codebook vq) [] /\
      (eps12 <= norm2 stored -> norm2 v = 1) /\
      (norm2 stored < eps12 -> norm2 v < 1).
Proof.
  intros Hcb Hl2 Hs Hu.
  pose proof Hcb as (_ & _ & Hlen & _).
  assert (Hread : forall j, (j < n_e vq)%nat ->
            nth j (codebook vq) [] = normalize (nth j (embedding_weight vq) [])).
  { intros j Hj. unfold codebook. rewrite Hl2.
    rewrite (nth_indep _ [] (normalize [])) by (rewrite length_map; lia).
    apply map_nth. }
  assert (Hwidth : forall j, (j < n_e vq)%nat ->
            length (nth j (codebook vq) []) = e_dim vq).
  { intros j Hj. pose proof (codebook_width vq Hcb) as Hw.
    rewrite Forall_forall in Hw. apply Hw, nth_In.
    rewrite codebook_length, Hlen. exact Hj. }
  split.
  { intros n e b r su u vq0. unfold VectorQuantizer_init.
    destruct (n =? 0)%nat; [discriminate|].
    generalize (if su then Some (repeat zero buffer_size) else None).
    intros buf E. injection E as <-. reflexivity. }
  split.
  - intros j Hj stored read. subst stored read. rewrite (Hread j Hj).
    split; [reflexivity|]. split.
    + unfold get_codebook_entry. fold (codebook vq).
      unfold index_tensor. cbn [idata ishape].
      rewrite index_rows_ok
        by (constructor; [rewrite codebook_length, Hlen; lia|constructor]).
      cbn [bind gather map concat app]. rewrite app_nil_r, Nat2Z.id.
      now rewrite (Hread j Hj).
    + split; [apply norm2_normalize|apply norm2_normalize_small].
  - destruct (forward_returns vq z B H W Hcb Hs Hu)
      as (out & vq' & idx & E & (_ & Hl & Hr & Ei & Eq) & Ew).
    exists out, vq'. split; [exact E|]. split.
    { destruct Ew as [->|(used & ->)]; reflexivity. }
    intros b h w Hb Hh Hw i stored v. subst i stored v.
    rewrite Ei. cbn [idata].
    assert (Hp : ((b * H + h) * W + w < length idx)%nat).
    { rewrite Hl. apply index_bound; [apply index_bound|]; assumption. }
    assert (Hi : (0 <= nth ((b * H + h) * W + w)%nat idx 0%Z < Z.of_nat (n_e vq))%Z).
    { rewrite Forall_forall in Hr. apply Hr, nth_In, Hp. }
    set (i := nth ((b * H + h) * W + w)%nat idx 0%Z) in *.
    assert (Hj : (Z.to_nat i < n_e vq)%nat) by lia.
    assert (Ev : map (fun c => get4 (z_q out) b c h w) (seq 0 (e_dim vq))
                 = nth (Z.to_nat i) (codebook vq) []).
    { rewrite Eq.
      rewrite (map_ext_in _ (fun c => nth c (nth (Z.to_nat i) (codebook vq) []) zero)).
      - rewrite <- (Hwidth _ Hj). apply map_nth_seq_all.
      - intros c Hc. apply in_seq in Hc.
        apply (quantized_row_exact real_add_sub_exact); try assumption. lia. }
    split; [exact Hi|]. split; [exact Ev|]. rewrite Ev, (Hread _ Hj). split.
    + apply norm2_normalize.
    + intros Hsmall. now apply norm2_normalize_small.
Qed.

Lemma map2_expand_rows (c : nat) (a b : list (list R)) :
  Forall (fun r => length r = c) a -> Forall (fun r => length r = c) b ->
  map sum (map2 (fun ra rb => map2 mul (expand_to ra c) (expand_to rb c)) a b)
  = map2 dot a b.
Proof.
  intros Ha; revert b; induction Ha as [|ra a Hra _ IH]; intros b Hb; [reflexivity|].
  destruct Hb as [|rb b Hrb Hb]; [reflexivity|].
  cbn [map2 map]. rewrite IH by assumption. unfold expand_to.
  now rewrite Hra, Hrb, Nat.eqb_refl.
Qed.

Lemma squared_cosines_range (a b : list (list R)) :
  Forall (fun x => 0 <= x <= 1)
         (map square (map2 dot (map normalize a) (map normalize b))).
Proof.
  revert b; induction a as [|u a IH]; intros [|v b]; cbn [map map2]; constructor.
  - apply squared_cosine_range.
  - apply IH.
Qed.

Lemma map2_length {A B C : Type} (f : A -> B -> C) (a : list A) (b : list B) :
  length a = length b -> length (map2 f a b) = length a.
Proof.
  revert b; induction a as [|x a IH]; intros [|y b] Hl; try discriminate;
    [reflexivity|]. cbn [map2 length]. now rewrite IH by (now injection Hl).
Qed.

(** C8 (amended). On the reals, for two maps of the same shape with at
    least one position, [compute_disentangle_loss] returns the mean over
    the positions of the squared dot product of the two normalized
    vectors, times [disentanglement_ratio]; with a ratio that is not
    negative this value is between 0 and the ratio. *)
Theorem disentangle_loss_range (m : VQModel R) (quant_vis quant_sem : Tensor R)
        (B C H W : nat) :
  shape quant_vis = [B; C; H; W] -> shape quant_sem = [B; C; H; W] ->
  (0 < B * H * W)%nat -> 0 <= disentanglement_ratio (config m) ->
  exists loss,
    compute_disentangle_loss m quant_vis quant_sem = Ok loss /\
    loss = mean (map square
                     (map2 dot (map normalize (flat_rows quant_vis B C H W))
                               (map normalize (flat_rows quant_sem B C H W))))
           * disentanglement_ratio (config m) /\
    0 <= loss <= disentanglement_ratio (config m).
Proof.
  intros Hv Hs HN Hratio.
  unfold compute_disentangle_loss, rearrange_bchw_bhw_c. rewrite Hv, Hs.
  cbn [bind]. rewrite !chunk_tabulate4_rows.
  fold (flat_rows quant_vis B C H W). fold (flat_rows quant_sem B C H W).
  unfold mul_rows, broadcast_dim. rewrite !Nat.eqb_refl. cbn [bind].
  unfold expand_to at 3 4.
  rewrite !length_map, !flat_rows_length, Nat.eqb_refl.
  rewrite map2_expand_rows
    by (apply map_normalize_width, flat_rows_width).
  set (dots := map2 dot _ _).
  eexists. split; [reflexivity|]. cbn [mul R_Scalar]. split; [reflexivity|].
  assert (Hm : 0 <= mean (map square dots) <= 1).
  { apply mean_range; [|apply squared_cosines_range].
    intros E. apply (f_equal (@length R)) in E. unfold dots in E.
    rewrite length_map, map2_length, length_map, flat_rows_length in E
      by (now rewrite !length_map, !flat_rows_length).
    simpl in E. lia. }
  nra.
Qed.
End RealNorms.

(** ** Instances of the usage claims on a two-code quantizer over the reals *)

Example built_vq_init :
  VectorQuantizer_init 2 1 (1 / 4)%R 0%R false true [[0%R]; [1%R]] = Ok built_vq.
Proof. reflexivity. Qed.

Example demo_vq_init : to_device built_vq = demo_vq.
Proof. reflexivity. Qed.

(** The buffer of the new module can be written to after a move, and
    under [torch.no_grad()]; as built, with gradients recorded, it cannot. *)
Example built_vq_writable :
  buffer_writable (to_device built_vq) /\
  buffer_writable (set_grad_enabled false built_vq) /\
  ~ buffer_writable built_vq.
Proof. repeat split; try reflexivity. discriminate. Qed.

Lemma demo_vq_ok : codebook_ok demo_vq.
Proof.
  unfold codebook_ok, demo_vq; cbn [n_e e_dim embedding_weight length].
  repeat split; [lia | lia | repeat constructor].
Defined.

Lemma demo_z_fits : batch_fits demo_vq demo_z.
Proof.
  exists 1, 1, 2. split; [reflexivity|]. unfold buffer_size. lia.
Defined.





Lemma eval_mode_forward_witness :
  exists out,
    forward (train false demo_vq) demo_z = Ok (out, train false demo_vq) /\
    vq_loss out = None /\ commit_loss out = None /\ entropy_loss out = None /\
    codebook_usage out = 0%Q /\
    forall out_t vq_t,
      forward (train true demo_vq) demo_z = Ok (out_t, vq_t) ->
      z_q out_t = z_q out /\
      min_encoding_indices out_t = min_encoding_indices out.
Proof.
  apply (eval_mode_forward demo_vq demo_z 1 1 2).
  - exact demo_vq_ok.
  - reflexivity.
Defined.

(** ** The straight-through value on the two instances *)

Lemma demo_usage_ready : usage_ready demo_vq 2.
Proof.
  intros _. exists (repeat 0%R buffer_size).
  split; [reflexivity|]. split; [apply repeat_length|].
  split; [unfold buffer_size; lia|reflexivity].
Defined.

Lemma forward_returns_codebook_rows_witness :
  exists out vq',
    forward demo_vq demo_z = Ok (out, vq') /\
    ishape (min_encoding_indices out) = [1 * 1 * 2] /\
    length (idata (min_encoding_indices out)) = 1 * 1 * 2 /\
    forall b h w, b < 1 -> h < 1 -> w < 2 ->
      let i := nth ((b * 1 + h) * 2 + w) (idata (min_encoding_indices out)) 0%Z in
      (0 <= i < Z.of_nat (n_e demo_vq))%Z /\
      forall c, c < e_dim demo_vq ->
        get4 (z_q out) b c h w = nth c (nth (Z.to_nat i) (codebook demo_vq) []) zero.
Proof.
  apply (forward_returns_codebook_rows real_add_sub_exact demo_vq demo_z 1 1 2).
  - exact demo_vq_ok.
  - reflexivity.
  - exact demo_usage_ready.
Defined.

Lemma lookup_round_trip_witness :
  exists out vq',
    forward demo_vq demo_z = Ok (out, vq') /\
    get_codebook_entry vq' (min_encoding_indices out) (Some (shape demo_z)) true
    = Ok (z_q out).
Proof.
  apply (lookup_round_trip real_add_sub_exact demo_vq demo_z 1 1 2).
  - exact demo_vq_ok.
  - reflexivity.
  - exact demo_usage_ready.
Defined.

Example tiny_vq_init :
  VectorQuantizer_init 1 1 (lit 1 4) (of_Z 0) false false
                       [[S754_finite false 8388608 (-53)]]
  = Ok (train true tiny_vq).
Proof. reflexivity. Qed.

(** In binary32, [2^-30 - 1] rounds to [-1], so [1 + (2^-30 - 1)] is 0:
    the value returned at the only position is not the selected row. *)
Lemma straight_through_rounds :
  exists out vq',
    forward tiny_vq one_z = Ok (out, vq') /\
    idata (min_encoding_indices out) = [0%Z] /\
    nth 0 (nth 0 (codebook tiny_vq) []) zero = S754_finite false 8388608 (-53) /\
    get4 (z_q out) 0 0 0 0 = S754_zero false /\
    get4 (z_q out) 0 0 0 0 <> nth 0 (nth 0 (codebook tiny_vq) []) zero.
Proof.
  do 2 eexists. split; [vm_compute; reflexivity|].
  repeat split; try reflexivity. vm_compute. discriminate.
Qed.

(** On the same call, the lookup of the returned index gives the row 2^-30
    and not the map [forward] returned. *)
Lemma lookup_differs_from_forward :
  exists out vq' entry,
    forward tiny_vq one_z = Ok (out, vq') /\
    get_codebook_entry vq' (min_encoding_indices out) (Some (shape one_z)) true
    = Ok entry /\
    data entry = [S754_finite false 8388608 (-53)] /\
    data (z_q out) = [S754_zero false] /\
    entry <> z_q out.
Proof.
  do 3 eexists. split; [vm_compute; reflexivity|].
  split; [vm_compute; reflexivity|].
  repeat split; try reflexivity. vm_compute. discriminate.
Qed.

(** ** The nearest-neighbour claim on the demonstration quantizer *)

Lemma forward_index_is_nearest_witness :
  exists out vq',
    forward demo_vq demo_z = Ok (out, vq') /\
    length (idata (min_encoding_indices out)) = 1 * 1 * 2 /\
    forall b h w, b < 1 -> h < 1 -> w < 2 ->
      let x := input_vector demo_vq demo_z b h w in
      let i := nth ((b * 1 + h) * 2 + w) (idata (min_encoding_indices out)) 0%Z in
      let e := fun j => nth j (codebook demo_vq) [] in
      (0 <= i < Z.of_nat (n_e demo_vq))%Z /\
      (forall j, j < n_e demo_vq ->
         sub (add (sum_sq x) (sum_sq (e j))) (mul (of_Z 2) (dot x (e j)))
         = sq_dist x (e j)) /\
      (forall j, j < n_e demo_vq ->
         (sq_dist x (e (Z.to_nat i)) <= sq_dist x (e j))%R) /\
      (forall j, j < Z.to_nat i ->
         (sq_dist x (e (Z.to_nat i)) < sq_dist x (e j))%R).
Proof.
  apply (forward_index_is_nearest demo_vq demo_z 1 1 2).
  - exact demo_vq_ok.
  - reflexivity.
  - exact demo_usage_ready.
Defined.

Example near_vq_init :
  VectorQuantizer_init 2 1 (lit 1 4) (of_Z 0) false false [[of_Z 4097]; [of_Z 4096]]
  = Ok (train true near_vq).
Proof. reflexivity. Qed.

(** In binary32, for the input 4096 and the code 4097, the square 4097^2
    rounds to 16785408, and [|z|^2 + |e|^2 - 2 z.e] is 0, as it is for the
    code 4096: [forward] selects index 0, the first of the two zeros of
    the distance matrix, though the code of index 0 is at squared distance
    1 from the input and the code of index 1 is the input itself. *)
Lemma nearest_row_missed :
  exists out vq',
    forward near_vq near_z = Ok (out, vq') /\
    idata (min_encoding_indices out) = [0%Z] /\
    distances (input_rows near_vq near_z 1 1 1 1) (codebook near_vq)
    = [[S754_zero false; S754_zero false]] /\
    input_vector near_vq near_z 0 0 0 = nth 1 (codebook near_vq) [] /\
    sq_dist (input_vector near_vq near_z 0 0 0) (nth 0 (codebook near_vq) [])
    = of_Z 1 /\
    sq_dist (input_vector near_vq near_z 0 0 0) (nth 1 (codebook near_vq) [])
    = S754_zero false /\
    ltb (sq_dist (input_vector near_vq near_z 0 0 0) (nth 1 (codebook near_vq) []))
        (sq_dist (input_vector near_vq near_z 0 0 0) (nth 0 (codebook near_vq) []))
    = true.
Proof.
  do 2 eexists. split; [vm_compute; reflexivity|].
  repeat split; vm_compute; reflexivity.
Qed.

(** ** Lookup and construction on concrete inputs *)

Example pair_vq_init :
  VectorQuantizer_init 2 1 (lit 1 4) (of_Z 0) false false [[of_Z 1]; [of_Z 2]]
  = Ok (train true pair_vq).
Proof. reflexivity. Qed.

(** The index -1 is not refused: it reads the last row, 2.0. *)
Lemma negative_index_reads_last_row :
  get_codebook_entry pair_vq (mkIndexTensor [1] [(-1)%Z]) None true
  = Ok (mkTensor [1; 1] [S754_finite false 8388608 (-22)]) /\
  nth 1 (codebook pair_vq) [] = [S754_finite false 8388608 (-22)].
Proof. split; vm_compute; reflexivity. Qed.

Example index_two_is_refused :
  get_codebook_entry pair_vq (mkIndexTensor [1] [2%Z]) None true = Err IndexError.
Proof. reflexivity. Qed.

Example index_minus_three_is_refused :
  get_codebook_entry pair_vq (mkIndexTensor [2] [0%Z; (-3)%Z]) (Some [1; 1; 1; 2]) true
  = Err IndexError.
Proof. reflexivity. Qed.

(** ** Norms and the disentanglement loss on concrete inputs *)

Example unit_vq_init :
  (vq <- VectorQuantizer_init 1 1 (1 / 4)%R 0%R true true [[1%R]] ;; Ok (to_device vq))
  = Ok unit_vq.
Proof. reflexivity. Qed.

Lemma norm2_one : norm2 [1%R] = 1%R.
Proof.
  unfold norm2. rewrite sum_sq_cons. unfold sum_sq. cbn [map]. rewrite Rsum_nil.
  cbn [sqrt R_Scalar]. replace (1 * 1 + 0)%R with 1%R by lra. apply sqrt_1.
Defined.

Lemma unit_vq_ok : codebook_ok unit_vq.
Proof.
  unfold codebook_ok, unit_vq; cbn [n_e e_dim embedding_weight map length].
  repeat split; [lia | lia | ]. constructor; [|constructor].
  apply normalize_length.
Defined.

Lemma unit_vq_rows : Forall (fun r => (eps12 <= norm2 r)%R) (embedding_weight unit_vq).
Proof.
  unfold unit_vq; cbn [embedding_weight map].
  assert (H : (eps12 <= 1)%R).
  { unfold eps12. cbn [lit R_Scalar]. lra. }
  constructor; [|constructor].
  rewrite norm2_normalize; [exact H|]. rewrite norm2_one. exact H.
Defined.

Lemma unit_usage_ready : usage_ready unit_vq (1 * 1 * 1).
Proof.
  intros _. exists (repeat 0%R buffer_size).
  split; [reflexivity|]. split; [apply repeat_length|].
  split; [unfold buffer_size; lia|reflexivity].
Defined.

Lemma unit_norm_as_read_witness :
  norm2 (nth 0 (codebook unit_vq) []) = 1%R /\
  exists out vq',
    forward unit_vq two_z = Ok (out, vq') /\
    embedding_weight vq' = embedding_weight unit_vq /\
    norm2 (map (fun c => get4 (z_q out) 0 c 0 0) (seq 0 (e_dim unit_vq))) = 1%R.
Proof.
  destruct (unit_norm_as_read unit_vq two_z 1 1 1) as (_ & Hread & out & vq' & E & Ew & Hout).
  - exact unit_vq_ok.
  - reflexivity.
  - reflexivity.
  - exact unit_usage_ready.
  - pose proof unit_vq_rows as Hrows.
    assert (Hone : forall j, j < 1 ->
              (eps12 <= norm2 (nth j (embedding_weight unit_vq) []))%R).
    { intros j Hj. rewrite Forall_forall in Hrows. apply Hrows, nth_In.
      cbn [unit_vq embedding_weight map length]. exact Hj. }
    split.
    + destruct (Hread 0) as (_ & _ & H1 & _); [cbn [n_e unit_vq]; lia|].
      apply H1, Hone. lia.
    + exists out, vq'. split; [exact E|]. split; [exact Ew|].
      destruct (Hout 0 0 0) as (Hi & _ & H1 & _); try lia.
      apply H1, Hone. cbn [n_e unit_vq] in Hi. lia.
Defined.

Lemma disentangle_loss_range_witness :
  exists loss,
    compute_disentangle_loss half_ratio_model two_z (mkTensor [1; 1; 1; 1] [3%R])
    = Ok loss /\
    (0 <= loss <= 1 / 2)%R.
Proof.
  destruct (disentangle_loss_range half_ratio_model two_z
              (mkTensor [1; 1; 1; 1] [3%R]) 1 1 1 1) as (loss & E & _ & Hr).
  - reflexivity.
  - reflexivity.
  - lia.
  - cbn [disentanglement_ratio config half_ratio_model]. lra.
  - exists loss. split; [exact E|exact Hr].
Defined.

(** In binary32 the vector (1, 4) is normalized to a vector whose
    computed norm is 1.0; its dot product with itself rounds to
    [1 + 2^-23], and the square of that to [1 + 2^-22]: the loss of the
    map against itself exceeds the ratio 1. *)
Lemma disentangle_loss_exceeds_ratio :
  norm2 (data unit_pair_z) = of_Z 1 /\
  disentanglement_ratio (config unit_ratio_model) = of_Z 1 /\
  compute_disentangle_loss unit_ratio_model unit_pair_z unit_pair_z
  = Ok (S754_finite false 8388610 (-23)) /\
  ltb (disentanglement_ratio (config unit_ratio_model))
      (S754_finite false 8388610 (-23)) = true.
Proof. repeat split; vm_compute; reflexivity. Qed.

Example zero_vq_init :
  VectorQuantizer_init 1 1 (lit 1 4) (of_Z 0) true false [[of_Z 0]]
  = Ok (train true zero_vq).
Proof. reflexivity. Qed.

(** The zero row is read as zero: [0 / max(0, 1e-12) = 0], of norm 0, and
    so is the vector [forward] returns. *)
Lemma zero_row_stays_zero :
  codebook zero_vq = [[S754_zero false]] /\
  norm2 (nth 0 (codebook zero_vq) []) = S754_zero false /\
  get_codebook_entry zero_vq (mkIndexTensor [] [0%Z]) None true
  = Ok (mkTensor [1] [S754_zero false]) /\
  exists out vq',
    forward zero_vq one_z = Ok (out, vq') /\
    norm2 (map (fun c => get4 (z_q out) 0 c 0 0) (seq 0 (e_dim zero_vq)))
    = S754_zero false /\
    norm2 (map (fun c => get4 (z_q out) 0 c 0 0) (seq 0 (e_dim zero_vq))) <> of_Z 1.
Proof.
  split; [vm_compute; reflexivity|].
  split; [vm_compute; reflexivity|].
  split; [vm_compute; reflexivity|].
  do 2 eexists. split; [vm_compute; reflexivity|].
  split; [vm_compute; reflexivity|]. vm_compute. discriminate.
Qed.

(* ------------------------------------------------------------------ *)
(** * Further properties of the code *)

(** ** [forward] on maps of any channel count *)

Section ForwardShapes.
Context {F : Type} {SF : Scalar F}.

Lemma einsum_bchw_bhwc_rank (z : Tensor F) :
  length (shape z) <> 4 -> einsum_bchw_bhwc z = Err ShapeError.
Proof.
  unfold einsum_bchw_bhwc. destruct (shape z) as [|a [|b [|c [|d [|e l]]]]];
    simpl; intros H; try reflexivity. lia.
Qed.

(** [forward] up to the gathered code vectors, when the channel count is
    not the embedding width: the elements are regrouped [e_dim] at a time. *)
Lemma forward_eq_channels (vq : VectorQuantizer F) (z : Tensor F) B C H W :
  codebook_ok vq -> shape z = [B; C; H; W] ->
  (B * H * W * C) mod e_dim vq = 0 ->
  exists zdata rows idx,
    mapM argmin (distances rows (codebook vq)) = Ok idx /\
    length idx = B * H * W * C / e_dim vq /\
    Forall (fun i => (0 <= i < Z.of_nat (n_e vq))%Z) idx /\
    forward vq z =
    forward_tail vq [B; H; W; C] zdata (distances rows (codebook vq)) idx
                 (concat (gather (codebook vq) idx)).
Proof.
  intros Hcb Hs Hmod. pose proof Hcb as (Hn & He & Hlen & Hw).
  set (data0 := tabulate4 B H W C (fun i y x k => get4 z i k y x)).
  set (rows0 := chunk (B * H * W * C / e_dim vq) (e_dim vq) data0).
  set (rows := if l2_norm vq then map normalize rows0 else rows0).
  set (zdata := if l2_norm vq
                then data (normalize_last (mkTensor [B; H; W; C] data0))
                else data0).
  assert (Hrows : length rows = B * H * W * C / e_dim vq).
  { unfold rows. destruct (l2_norm vq); [rewrite length_map|]; apply chunk_length. }
  destruct (distances_argmin rows (codebook vq)) as (idx & Eidx & Hl & Hr).
  { intros E. pose proof (codebook_length vq) as E'. rewrite E in E'. simpl in E'. lia. }
  rewrite Hrows in Hl. rewrite codebook_length, Hlen in Hr.
  exists zdata, rows, idx. repeat split; try assumption.
  assert (Hg : index_rows (codebook vq) idx = Ok (gather (codebook vq) idx)).
  { apply index_rows_ok. now rewrite codebook_length, Hlen. }
  assert (Hq : length (concat (gather (codebook vq) idx)) = B * H * W * C).
  { rewrite (concat_length_uniform (e_dim vq)).
    - unfold gather. rewrite length_map, Hl.
      apply Nat.Div0.div_exact in Hmod. lia.
    - apply gather_width; [now apply codebook_width|].
      now rewrite codebook_length, Hlen. }
  unfold forward. rewrite (einsum_bchw_bhwc_ok z B C H W Hs). cbn [bind].
  unfold view_rows. cbn [shape data]. rewrite numel4.
  replace (e_dim vq =? 0) with false by (symmetry; apply Nat.eqb_neq; lia).
  rewrite Hmod. cbn [Nat.eqb bind]. fold data0. fold rows0.
  unfold rows, zdata, codebook in *.
  destruct (l2_norm vq).
  - rewrite Eidx. cbn [bind].
    unfold index_tensor. cbn [idata ishape]. rewrite Hg. cbn [bind].
    unfold reshape. cbn [data shape normalize_last].
    rewrite numel4, Hq, Nat.eqb_refl. cbn [bind]. reflexivity.
  - rewrite Eidx. cbn [bind].
    unfold index_tensor. cbn [idata ishape]. rewrite Hg. cbn [bind].
    unfold reshape. cbn [data shape]. rewrite numel4, Hq, Nat.eqb_refl. cbn [bind].
    reflexivity.
Qed.

(** [forward] does not compare the channel count with [e_dim]: a map that
    is not 4-d, or whose number of elements is no multiple of [e_dim], is
    refused with a shape error; any other map is quantized, in evaluation
    mode into a map of the same shape, with one index for every [e_dim]
    elements. *)
Theorem forward_shape_domain (vq : VectorQuantizer F) (z : Tensor F) :
  codebook_ok vq ->
  (length (shape z) <> 4 -> forward vq z = Err ShapeError) /\
  (forall B C H W, shape z = [B; C; H; W] ->
     ((B * H * W * C) mod e_dim vq <> 0 -> forward vq z = Err ShapeError) /\
     ((B * H * W * C) mod e_dim vq = 0 -> training vq = false ->
      exists out,
        forward vq z = Ok (out, vq) /\
        shape (z_q out) = [B; C; H; W] /\
        length (data (z_q out)) = B * C * H * W /\
        ishape (min_encoding_indices out) = [B * H * W * C / e_dim vq] /\
        length (idata (min_encoding_indices out)) = B * H * W * C / e_dim vq)).
Proof.
  intros Hcb. pose proof Hcb as (Hn & He & _). split.
  - intros Hrank. unfold forward. now rewrite einsum_bchw_bhwc_rank.
  - intros B C H W Hs. split.
    + intros Hmod. unfold forward. rewrite (einsum_bchw_bhwc_ok z B C H W Hs).
      cbn [bind]. unfold view_rows. cbn [shape]. rewrite numel4.
      replace (e_dim vq =? 0) with false by (symmetry; apply Nat.eqb_neq; lia).
      replace (_ mod _ =? 0) with false by (symmetry; now apply Nat.eqb_neq).
      reflexivity.
    + intros Hmod Ht.
      destruct (forward_eq_channels vq z B C H W Hcb Hs Hmod)
        as (zdata & rows & idx & _ & Hl & _ & E).
      rewrite forward_tail_eval in E by assumption.
      eexists. split; [exact E|].
      cbn [z_q min_encoding_indices ishape idata]. unfold quantized_map.
      cbn [shape data]. rewrite tabulate4_length, Hl. auto.
Qed.
End ForwardShapes.

(** A binary32 codebook of width 1 takes a map with two channels: every
    element is quantized on its own. *)
Lemma forward_shape_domain_witness :
  exists out,
    forward pair_vq (mkTensor [1; 2; 1; 1] [of_Z 1; of_Z 2]) = Ok (out, pair_vq) /\
    shape (z_q out) = [1; 2; 1; 1] /\
    length (idata (min_encoding_indices out)) = 1 * 1 * 1 * 2 / e_dim pair_vq.
Proof.
  destruct (forward_shape_domain pair_vq (mkTensor [1; 2; 1; 1] [of_Z 1; of_Z 2]))
    as (_ & Hdom).
  - unfold codebook_ok, pair_vq. cbn [train n_e e_dim embedding_weight length].
    repeat split; [lia | lia | repeat constructor].
  - destruct (Hdom 1 2 1 1 eq_refl) as (_ & Hok).
    destruct (Hok eq_refl eq_refl) as (out & E & Hs & _ & _ & Hl).
    exists out. auto.
Defined.

(** ** [get_codebook_entry] *)

Section Lookup.
Context {F : Type} {SF : Scalar F}.

Lemma index_rows_wrap (table : list (list F)) (idx : list Z) :
  wrap_range (length table) idx -> index_rows table idx = Ok (gather_wrap table idx).
Proof.
  intros H. apply mapM_Ok_map. intros i Hi.
  unfold wrap_range in H. rewrite Forall_forall in H. specialize (H i Hi).
  destruct (index_row_cases table i) as [(_ & E)|(Hout & _)]; [exact E|lia].
Qed.

Lemma gather_wrap_width m (table : list (list F)) (idx : list Z) :
  Forall (fun r => length r = m) table -> wrap_range (length table) idx ->
  Forall (fun r => length r = m) (gather_wrap table idx).
Proof.
  intros Ht Hi. apply Forall_map. eapply Forall_impl; [|exact Hi].
  simpl. intros i Hr. rewrite Forall_forall in Ht. apply Ht, nth_In.
  unfold row_index. destruct (Z.ltb_spec i 0); lia.
Qed.

Lemma nth_gather_wrap (table : list (list F)) (idx : list Z) (p : nat) :
  p < length idx ->
  nth p (gather_wrap table idx) [] = nth (row_index (length table) (nth p idx 0%Z)) table [].
Proof.
  intros Hp. unfold gather_wrap.
  rewrite (nth_indep _ [] (nth (row_index (length table) 0%Z) table []))
    by now rewrite length_map.
  apply (map_nth (fun i => nth (row_index (length table) i) table [])).
Qed.

(** The tensor the indexing step of [get_codebook_entry] builds. *)
Lemma lookup_tensor (vq : VectorQuantizer F) (indices : IndexTensor) :
  codebook_ok vq -> wrap_range (n_e vq) (idata indices) ->
  index_tensor (codebook vq) (e_dim vq) indices
  = Ok (mkTensor (ishape indices ++ [e_dim vq])
                 (concat (gather_wrap (codebook vq) (idata indices)))) /\
  length (concat (gather_wrap (codebook vq) (idata indices)))
  = length (idata indices) * e_dim vq /\
  Forall (fun r => length r = e_dim vq) (gather_wrap (codebook vq) (idata indices)).
Proof.
  intros Hcb Hr. pose proof Hcb as (_ & _ & Hlen & _).
  assert (Hr' : wrap_range (length (codebook vq)) (idata indices))
    by now rewrite codebook_length, Hlen.
  assert (Hw : Forall (fun r => length r = e_dim vq)
                      (gather_wrap (codebook vq) (idata indices)))
    by (apply gather_wrap_width; [now apply codebook_width|assumption]).
  repeat split; [|rewrite (concat_length_uniform (e_dim vq)) by assumption;
                  unfold gather_wrap; now rewrite length_map|assumption].
  unfold index_tensor. now rewrite index_rows_wrap.
Qed.

(** The element of a lookup result in (b, h, w, c) order. *)
Lemma lookup_at (vq : VectorQuantizer F) (idx : list Z) (B H W b h w c : nat) :
  codebook_ok vq -> wrap_range (n_e vq) idx -> length idx = B * H * W ->
  b < B -> h < H -> w < W -> c < e_dim vq ->
  nth (((b * H + h) * W + w) * e_dim vq + c)
      (concat (gather_wrap (codebook vq) idx)) zero
  = nth c (nth (row_index (n_e vq) (nth ((b * H + h) * W + w) idx 0%Z))
               (codebook vq) []) zero.
Proof.
  intros Hcb Hr Hl Hb Hh Hw Hc. pose proof Hcb as (_ & _ & Hlen & _).
  assert (Hp : (b * H + h) * W + w < length idx).
  { rewrite Hl. apply index_bound; [apply index_bound|]; assumption. }
  rewrite (nth_concat_uniform (e_dim vq)).
  - rewrite nth_gather_wrap by assumption. now rewrite codebook_length, Hlen.
  - apply gather_wrap_width; [now apply codebook_width|].
    now rewrite codebook_length, Hlen.
  - unfold gather_wrap. now rewrite length_map.
  - exact Hc.
Qed.

(** With one index per position, all in [-n_e, n_e), [get_codebook_entry]
    returns a map of the requested shape whose vector at position
    (b, h, w) is the codebook row, as read, that the index of the position
    selects, in the channel-first and in the channel-last layout; the shape
    of the index tensor itself plays no part. *)
Theorem lookup_places_rows (vq : VectorQuantizer F) (indices : IndexTensor)
        (B H W : nat) :
  codebook_ok vq -> wrap_range (n_e vq) (idata indices) ->
  length (idata indices) = B * H * W ->
  let row := fun b h w =>
    nth (row_index (n_e vq) (nth ((b * H + h) * W + w) (idata indices) 0%Z))
        (codebook vq) [] in
  (exists t,
     get_codebook_entry vq indices (Some [B; e_dim vq; H; W]) true = Ok t /\
     shape t = [B; e_dim vq; H; W] /\
     forall b c h w, b < B -> c < e_dim vq -> h < H -> w < W ->
       get4 t b c h w = nth c (row b h w) zero) /\
  (exists t,
     get_codebook_entry vq indices (Some [B; H; W; e_dim vq]) false = Ok t /\
     shape t = [B; H; W; e_dim vq] /\
     forall b h w c, b < B -> h < H -> w < W -> c < e_dim vq ->
       get4 t b h w c = nth c (row b h w) zero).
Proof.
  intros Hcb Hr Hl row.
  destruct (lookup_tensor vq indices Hcb Hr) as (Et & Hq & _).
  rewrite Hl in Hq. unfold get_codebook_entry. fold (codebook vq). rewrite Et.
  cbn [bind]. unfold reshape. cbn [data]. rewrite !numel4, Hq.
  replace (B * H * W * e_dim vq =? B * e_dim vq * H * W) with true
    by (symmetry; apply Nat.eqb_eq; lia).
  rewrite Nat.eqb_refl. cbn [bind]. split.
  - unfold permute_0312. cbn [shape]. eexists. split; [reflexivity|].
    split; [reflexivity|]. intros b c h w Hb Hc Hh Hw.
    unfold get4 at 1. cbn [shape data]. rewrite nth_tabulate4 by assumption.
    unfold get4. cbn [shape data]. now apply (lookup_at vq _ B H W).
  - eexists. split; [reflexivity|]. split; [reflexivity|].
    intros b h w c Hb Hh Hw Hc. unfold get4. cbn [shape data].
    now apply (lookup_at vq _ B H W).
Qed.

(** With indices in range, what is left to fail is the shape: a
    channel-first shape needs four entries (further ones are ignored), and
    the requested shape must hold as many elements as were looked up. *)
Theorem lookup_shape_errors (vq : VectorQuantizer F) (indices : IndexTensor) :
  codebook_ok vq -> wrap_range (n_e vq) (idata indices) ->
  let n := length (idata indices) * e_dim vq in
  (forall sh, length sh < 4 ->
     get_codebook_entry vq indices (Some sh) true = Err IndexError) /\
  (forall s0 s1 s2 s3 rest, n <> s0 * s1 * s2 * s3 ->
     get_codebook_entry vq indices (Some (s0 :: s1 :: s2 :: s3 :: rest)) true
     = Err ShapeError) /\
  (forall s0 s1 s2 s3 rest, n = s0 * s1 * s2 * s3 ->
     exists t,
       get_codebook_entry vq indices (Some (s0 :: s1 :: s2 :: s3 :: rest)) true = Ok t /\
       shape t = [s0; s1; s2; s3] /\ length (data t) = n) /\
  (forall sh, n <> numel sh ->
     get_codebook_entry vq indices (Some sh) false = Err ShapeError) /\
  (forall sh, n = numel sh ->
     exists t,
       get_codebook_entry vq indices (Some sh) false = Ok t /\
       shape t = sh /\ length (data t) = n).
Proof.
  intros Hcb Hr n.
  destruct (lookup_tensor vq indices Hcb Hr) as (Et & Hq & _). fold n in Hq.
  unfold get_codebook_entry. fold (codebook vq). rewrite Et. cbn [bind].
  unfold reshape. cbn [data]. rewrite Hq.
  split; [|split; [|split; [|split]]].
  - intros sh Hsh. destruct sh as [|a [|b [|c [|d l]]]]; try reflexivity.
    simpl in Hsh. lia.
  - intros s0 s1 s2 s3 rest Hne. rewrite numel4.
    replace (n =? s0 * s2 * s3 * s1) with false
      by (symmetry; apply Nat.eqb_neq; lia).
    reflexivity.
  - intros s0 s1 s2 s3 rest He. rewrite numel4.
    replace (n =? s0 * s2 * s3 * s1) with true
      by (symmetry; apply Nat.eqb_eq; lia).
    cbn [bind]. unfold permute_0312. cbn [shape]. eexists.
    split; [reflexivity|]. split; [reflexivity|].
    cbn [data]. rewrite tabulate4_length. lia.
  - intros sh Hne.
    replace (n =? numel sh) with false by (symmetry; now apply Nat.eqb_neq).
    reflexivity.
  - intros sh He.
    replace (n =? numel sh) with true by (symmetry; now apply Nat.eqb_eq).
    eexists. split; [reflexivity|]. split; [reflexivity|]. exact Hq.
Qed.
End Lookup.

Lemma pair_vq_ok : codebook_ok pair_vq.
Proof.
  unfold codebook_ok, pair_vq. cbn [train n_e e_dim embedding_weight length].
  repeat split; [lia | lia | repeat constructor].
Defined.

(** Two positions, the second one addressed from the end. *)
Lemma lookup_places_rows_witness :
  exists t,
    get_codebook_entry pair_vq (mkIndexTensor [2] [1%Z; (-2)%Z])
                       (Some [1; e_dim pair_vq; 1; 2]) true = Ok t /\
    get4 t 0 0 0 0 = of_Z 2 /\ get4 t 0 0 0 1 = of_Z 1.
Proof.
  destruct (lookup_places_rows pair_vq (mkIndexTensor [2] [1%Z; (-2)%Z]) 1 1 2)
    as ((t & E & _ & Hat) & _).
  - exact pair_vq_ok.
  - repeat constructor; cbn [n_e pair_vq train]; lia.
  - reflexivity.
  - exists t. split; [exact E|]. split.
    + rewrite (Hat 0 0 0 0) by (cbn; lia). reflexivity.
    + rewrite (Hat 0 0 0 1) by (cbn; lia). reflexivity.
Defined.

Lemma lookup_shape_errors_witness :
  get_codebook_entry pair_vq (mkIndexTensor [2] [1%Z; 0%Z]) (Some [1; 1; 3]) true
  = Err IndexError /\
  get_codebook_entry pair_vq (mkIndexTensor [2] [1%Z; 0%Z]) (Some [1; 1; 1; 3]) true
  = Err ShapeError.
Proof.
  destruct (lookup_shape_errors pair_vq (mkIndexTensor [2] [1%Z; 0%Z]))
    as (Hshort & Hsize & _).
  - exact pair_vq_ok.
  - repeat constructor; cbn [n_e pair_vq train]; lia.
  - split; [apply Hshort; simpl; lia|apply Hsize; simpl; lia].
Defined.

(** ** The usage buffer as a sliding window *)

Section SlidingWindow.
Context {F : Type} {SF : Scalar F}.

Lemma skipn_shift (used new rest : list F) :
  length new <= length used ->
  skipn (length rest) ((skipn (length new) used ++ new) ++ rest)
  = skipn (length (new ++ rest)) (used ++ new ++ rest).
Proof.
  intros Hl. rewrite length_app, Nat.add_comm, <- skipn_skipn.
  f_equal. rewrite skipn_app.
  replace (length new - length used) with 0 by lia.
  now rewrite <- app_assoc.
Qed.

(** X4. Over a run of training calls on a module whose buffer autograd
    lets [forward] write to, the buffer is a window on the history: it
    holds the last 65536 entries of what it held at first followed by
    every index assigned since, in order; once 65536 indices have been
    assigned, nothing of the first content is left. *)
Theorem usage_buffer_window (vq : VectorQuantizer F) (used0 : list F)
        (zs : list (Tensor F)) :
  codebook_ok vq -> show_usage vq = true -> training vq = true ->
  codebook_used vq = Some used0 -> length used0 = buffer_size ->
  index_values (n_e vq) used0 -> Forall (batch_fits vq) zs ->
  buffer_writable vq ->
  exists trace,
    forward_calls vq zs = Ok trace /\
    codebook_used (final_state vq trace)
    = Some (skipn (length (assigned trace)) (used0 ++ assigned trace)) /\
    (buffer_size <= length (assigned trace) ->
     codebook_used (final_state vq trace)
     = Some (skipn (length (assigned trace) - buffer_size) (assigned trace))).
Proof.
  intros Hcb Hu Ht Hused Hlen Hv Hz Hwr.
  assert (Hmain : exists trace,
             forward_calls vq zs = Ok trace /\
             codebook_used (final_state vq trace)
             = Some (skipn (length (assigned trace)) (used0 ++ assigned trace))).
  { revert vq used0 Hcb Hu Ht Hused Hlen Hv Hz Hwr.
    induction zs as [|z zs IH]; intros vq used0 Hcb Hu Ht Hused Hlen Hv Hz Hwr.
    - exists []. split; [reflexivity|]. cbn [final_state assigned flat_map length skipn].
      now rewrite app_nil_r.
    - inversion Hz as [|? ? Hz1 Hz2]; subst.
      destruct (forward_usage_step vq z Hcb Hu Ht) as
        (out & vq' & E & (u & u' & Eu & Eu' & Hu' & Hlen' & _) & Hcb' & Hsu' & Ht' & _ & He
         & Hwr');
        [exists used0; auto|assumption|assumption|].
      assert (u = used0) by congruence. subst u.
      set (new := map of_Z (idata (min_encoding_indices out))) in *.
      assert (Hnew : length new <= length used0).
      { subst u'. rewrite length_app, length_skipn in Hlen'.
        rewrite <- Hlen in Hlen'. lia. }
      assert (Hv' : index_values (n_e vq') u').
      { destruct (forward_usage_step vq z Hcb Hu Ht) as
          (out2 & vq2 & E2 & _ & _ & _ & _ & (w & Ew & _ & Hw) & _);
          [exists used0; auto|assumption|assumption|].
        assert (vq2 = vq') by congruence. subst vq2.
        assert (w = u') by congruence. now subst w. }
      destruct (IH vq' u' Hcb' Hsu' Ht' Eu' Hlen' Hv') as (rest & Er & Hfin);
        [|exact Hwr'|].
      { eapply Forall_impl; [|exact Hz2]. intros a. now apply batch_fits_e_dim. }
      exists ((out, vq') :: rest). cbn [forward_calls]. rewrite E. cbn [bind snd].
      rewrite Er. cbn [bind]. split; [reflexivity|].
      cbn [final_state assigned flat_map fst]. fold (assigned rest). fold new.
      rewrite Hfin, Hu'. f_equal.
      replace (length (idata (min_encoding_indices out))) with (length new)
        by (unfold new; apply length_map).
      now apply skipn_shift. }
  destruct Hmain as (trace & E & Hfin). exists trace.
  split; [exact E|]. split; [exact Hfin|].
  intros Hfull. rewrite Hfin. f_equal. rewrite skipn_app. rewrite <- Hlen in *.
  rewrite skipn_all2 by lia. reflexivity.
Qed.
End SlidingWindow.

Lemma usage_buffer_window_witness :
  exists trace,
    forward_calls demo_vq [demo_z; demo_z] = Ok trace /\
    codebook_used (final_state demo_vq trace)
    = Some (skipn (length (assigned trace))
                  (repeat 0%R buffer_size ++ assigned trace)).
Proof.
  destruct (usage_buffer_window demo_vq (repeat 0%R buffer_size) [demo_z; demo_z])
    as (trace & E & Hfin & _).
  - exact demo_vq_ok.
  - reflexivity.
  - reflexivity.
  - reflexivity.
  - apply repeat_length.
  - apply Forall_forall. intros x Hx. apply repeat_spec in Hx as ->.
    exists 0%Z. split; [cbn [n_e demo_vq]; lia|reflexivity].
  - repeat constructor; exact demo_z_fits.
  - reflexivity.
  - exists trace. split; [exact E|exact Hfin].
Defined.

(** ** What the usage ratio counts *)

Section Distinct.
Context {A B : Type}.
Variable decA : forall x y : A, {x = y} + {x <> y}.
Variable decB : forall x y : B, {x = y} + {x <> y}.

Lemma nodup_length_incl (l1 l2 : list A) :
  incl l1 l2 -> length (nodup decA l1) <= length (nodup decA l2).
Proof.
  intros H. apply NoDup_incl_length; [apply NoDup_nodup|].
  intros x Hx. apply nodup_In. apply H. now apply nodup_In in Hx.
Qed.

Lemma nodup_length_map_inj (f : A -> B) (l : list A) :
  (forall x y, In x l -> In y l -> f x = f y -> x = y) ->
  length (nodup decB (map f l)) = length (nodup decA l).
Proof.
  induction l as [|a l IH]; intros Hinj; [reflexivity|]. cbn [map nodup].
  assert (IH' : length (nodup decB (map f l)) = length (nodup decA l)).
  { apply IH. intros x y Hx Hy. apply Hinj; now right. }
  destruct (in_dec decB (f a) (map f l)) as [Hi|Hn];
    destruct (in_dec decA a l) as [Hi'|Hn'].
  - exact IH'.
  - exfalso. apply in_map_iff in Hi as (y & Ey & Hy). apply Hn'.
    assert (y = a) by (apply Hinj; [now right|now left|exact Ey]). now subst.
  - exfalso. apply Hn. now apply in_map.
  - cbn [length]. now rewrite IH'.
Qed.
End Distinct.

Lemma skipn_repeat_sub {A : Type} (x : A) (n m : nat) :
  skipn n (repeat x m) = repeat x (m - n).
Proof.
  revert m. induction n as [|n IH]; intros m.
  - now rewrite Nat.sub_0_r.
  - destruct m as [|m]; [reflexivity|]. cbn [repeat skipn]. apply IH.
Qed.

Section FreshUsage.
Context {F : Type} {SF : Scalar F}.

(** A buffer of zeros followed by indices has as many distinct entries as
    there are distinct codes among 0 and the indices, when the codes are
    stored without collision. *)
Lemma count_unique_zeros (n k : nat) (idx : list Z) :
  (forall i j, (0 <= i < Z.of_nat n)%Z -> (0 <= j < Z.of_nat n)%Z ->
               of_Z i = of_Z j -> i = j) ->
  0 < n -> 0 < k ->
  Forall (fun i => (0 <= i < Z.of_nat n)%Z) idx ->
  count_unique (repeat zero k ++ map of_Z idx)
  = length (nodup Z.eq_dec (0%Z :: idx)).
Proof.
  intros Hinj Hn Hk Hr. unfold count_unique, zero.
  replace (repeat (of_Z 0%Z) k ++ map of_Z idx)
    with (map of_Z (repeat 0%Z k ++ idx))
    by (now rewrite map_app, map_repeat).
  assert (Hin : forall x, In x (repeat 0%Z k ++ idx) -> (0 <= x < Z.of_nat n)%Z).
  { intros x Hx. apply in_app_or in Hx as [Hx|Hx].
    - apply repeat_spec in Hx. lia.
    - rewrite Forall_forall in Hr. now apply Hr. }
  rewrite (nodup_length_map_inj Z.eq_dec eq_dec of_Z)
    by (intros x y Hx Hy; apply Hinj; now apply Hin).
  apply Nat.le_antisymm; apply nodup_length_incl; intros x Hx.
  - apply in_app_or in Hx as [Hx|Hx].
    + apply repeat_spec in Hx. now left.
    + now right.
  - destruct Hx as [<-|Hx].
    + apply in_or_app. left. destruct k; [lia|]. now left.
    + apply in_or_app. now right.
Qed.

(** X5. The first training call of a module with usage tracking, on
    between 1 and 65535 positions, while the buffer still holds the zeros
    it was built with.  If the buffer is the leaf that [__init__]
    registered and gradients are recorded, autograd refuses the first
    slice assignment and the call raises.  If the buffer can be written
    to (the module has been moved to its device, or no gradients are
    recorded), the call reports the number of distinct codes among 0 and
    the assigned indices, over [n_e]: the zeros the buffer is built with
    count as uses of code 0, whether a position selected it or not.  The
    indices are stored as scalars; the count is that of the codes as long
    as this storage keeps the codes below [n_e] apart. *)
Theorem fresh_usage_counts_code_zero (vq : VectorQuantizer F) (z : Tensor F) (B H W : nat) :
  (forall i j, (0 <= i < Z.of_nat (n_e vq))%Z -> (0 <= j < Z.of_nat (n_e vq))%Z ->
               of_Z i = of_Z j -> i = j) ->
  codebook_ok vq -> show_usage vq = true -> training vq = true ->
  codebook_used vq = Some (repeat zero buffer_size) ->
  shape z = [B; e_dim vq; H; W] -> 1 <= B * H * W < buffer_size ->
  (codebook_used_leaf vq && grad_enabled vq = true ->
   forward vq z = Err LeafInplaceError) /\
  (buffer_writable vq ->
   exists out vq',
     forward vq z = Ok (out, vq') /\
     codebook_usage out
     = Qmake (Z.of_nat (length (nodup Z.eq_dec
                                  (0%Z :: idata (min_encoding_indices out)))))
             (Pos.of_nat (n_e vq)) /\
     (Qmake 1 (Pos.of_nat (n_e vq)) <= codebook_usage out)%Q).
Proof.
  intros Hinj Hcb Hu Ht Hused Hs HN.
  split.
  { intros Hleaf.
    apply (forward_refused vq z (repeat zero buffer_size) B H W); try assumption;
      try lia.
    rewrite repeat_length. exact buffer_size_pos. }
  intros Hwr.
  destruct (forward_eq vq z B (e_dim vq) H W Hcb Hs eq_refl) as (idx & _ & Hl & Hr & E).
  destruct (forward_tail_train vq B (e_dim vq) H W
              (concat (input_rows vq z B (e_dim vq) H W))
              (distances (input_rows vq z B (e_dim vq) H W) (codebook vq)) idx
              (concat (gather (codebook vq) idx)) Ht) as (l1 & l2 & l3 & E').
  rewrite E' in E. clear E'. rewrite Hu in E.
  pose proof Hcb as (Hn & _).
  rewrite (update_usage_ok vq _ idx Hused Hn) in E
    by ((rewrite repeat_length, Hl; lia) || assumption).
  cbn [bind] in E. rewrite skipn_repeat_sub in E.
  rewrite (count_unique_zeros (n_e vq)) in E; [|exact Hinj|exact Hn|lia|exact Hr].
  do 2 eexists. split; [exact E|]. cbn [codebook_usage min_encoding_indices idata].
  split; [reflexivity|].
  unfold Qle. cbn [Qnum Qden]. apply Z.mul_le_mono_nonneg_r; [lia|].
  cbn [nodup]. destruct (in_dec Z.eq_dec 0%Z idx) as [Hi|Hi].
  - assert (0 < length (nodup Z.eq_dec idx)); [|lia].
    destruct (nodup Z.eq_dec idx) eqn:En; [|cbn; lia].
    apply (nodup_In Z.eq_dec) in Hi. rewrite En in Hi. destruct Hi.
  - cbn [length]. lia.
Qed.
End FreshUsage.

Lemma fresh_usage_counts_code_zero_witness :
  exists out vq',
    forward demo_vq demo_z = Ok (out, vq') /\
    codebook_usage out
    = Qmake (Z.of_nat (length (nodup Z.eq_dec
                                 (0%Z :: idata (min_encoding_indices out)))))
            (Pos.of_nat (n_e demo_vq)) /\
    (Qmake 1 (Pos.of_nat (n_e demo_vq)) <= codebook_usage out)%Q.
Proof.
  refine (proj2 (fresh_usage_counts_code_zero demo_vq demo_z 1 1 2 _ _ _ _ _ _ _) _).
  - intros i j _ _ E. now apply eq_IZR.
  - exact demo_vq_ok.
  - reflexivity.
  - reflexivity.
  - reflexivity.
  - reflexivity.
  - unfold buffer_size. cbn [Nat.mul]. lia.
  - reflexivity.
Defined.

(** ** The entropy loss in exact arithmetic *)

Section EntropyBounds.
Local Open Scope R_scope.

Lemma Rsum_map_plus {A : Type} (f g : A -> R) (l : list A) :
  sum (map (fun x => f x + g x) l) = sum (map f l) + sum (map g l).
Proof.
  induction l as [|a l IH]; cbn [map]; [rewrite !Rsum_nil; lra|].
  rewrite !Rsum_cons, IH. lra.
Qed.

Lemma Rsum_map_scale {A : Type} (c : R) (f : A -> R) (l : list A) :
  sum (map (fun x => c * f x) l) = c * sum (map f l).
Proof.
  induction l as [|a l IH]; cbn [map]; [rewrite !Rsum_nil; lra|].
  rewrite !Rsum_cons, IH. lra.
Qed.

Lemma Rsum_map_le {A : Type} (f g : A -> R) (l : list A) :
  (forall x, In x l -> f x <= g x) -> sum (map f l) <= sum (map g l).
Proof.
  induction l as [|a l IH]; intros H; cbn [map]; [rewrite !Rsum_nil; lra|].
  rewrite !Rsum_cons.
  assert (f a <= g a) by (apply H; now left).
  assert (sum (map f l) <= sum (map g l)) by (apply IH; intros x Hx; apply H; now right).
  lra.
Qed.

Lemma Rsum_map_ext {A : Type} (f g : A -> R) (l : list A) :
  (forall x, In x l -> f x = g x) -> sum (map f l) = sum (map g l).
Proof. intros H. f_equal. now apply map_ext_in. Qed.

Lemma Rsum_map_const {A : Type} (c : R) (l : list A) :
  sum (map (fun _ => c) l) = INR (length l) * c.
Proof.
  induction l as [|a l IH]; cbn [map]; [rewrite Rsum_nil; simpl; lra|].
  rewrite Rsum_cons, IH. change (length (a :: l)) with (S (length l)).
  rewrite S_INR. lra.
Qed.

Lemma Rsum_map_pos {A : Type} (f : A -> R) (l : list A) :
  l <> [] -> (forall x, In x l -> 0 < f x) -> 0 < sum (map f l).
Proof.
  induction l as [|a l IH]; intros Hne H; [congruence|]. cbn [map].
  rewrite Rsum_cons.
  assert (0 < f a) by (apply H; now left).
  destruct l as [|b l]; [cbn [map]; rewrite Rsum_nil; lra|].
  assert (0 < sum (map f (b :: l)))
    by (apply IH; [discriminate|intros x Hx; apply H; now right]).
  lra.
Qed.

Lemma Rsum_map_elem_le {A : Type} (f : A -> R) (l : list A) (y : A) :
  (forall x, In x l -> 0 <= f x) -> In y l -> f y <= sum (map f l).
Proof.
  induction l as [|a l IH]; intros H Hy; [destruct Hy|]. cbn [map].
  rewrite Rsum_cons.
  assert (0 <= f a) by (apply H; now left).
  assert (0 <= sum (map f l)).
  { apply Rsum_nonneg, Forall_map, Forall_forall. intros x Hx. apply H. now right. }
  destruct Hy as [<-|Hy]; [lra|].
  assert (f y <= sum (map f l)) by (apply IH; [intros x Hx; apply H; now right|exact Hy]).
  lra.
Qed.

Lemma Rsum_exchange {A B : Type} (f : A -> B -> R) (la : list A) (lb : list B) :
  sum (map (fun a => sum (map (fun b => f a b) lb)) la)
  = sum (map (fun b => sum (map (fun a => f a b) la)) lb).
Proof.
  induction la as [|a la IH]; cbn [map].
  - rewrite Rsum_nil. change (0 = sum (map (fun _ : B => 0) lb)).
    rewrite Rsum_map_const. lra.
  - rewrite Rsum_cons, IH.
    rewrite (Rsum_map_ext (fun b => sum (f a b :: map (fun a0 => f a0 b) la))
                          (fun b => f a b + sum (map (fun a0 => f a0 b) la)))
      by (intros; apply Rsum_cons).
    now rewrite Rsum_map_plus.
Qed.

Lemma ln_le_mono (x y : R) : 0 < x -> x <= y -> ln x <= ln y.
Proof.
  intros Hx [Hlt| ->]; [|lra]. left. now apply ln_increasing.
Qed.

Lemma ln_le_sub1 (x : R) : 0 < x -> ln x <= x - 1.
Proof.
  intros Hx. pose proof (exp_ineq1_le (x - 1)) as H.
  replace (1 + (x - 1)) with x in H by lra.
  rewrite <- (ln_exp (x - 1)). now apply ln_le_mono.
Qed.

(** Gibbs' inequality, term by term. *)
Lemma gibbs_term (p q : R) : 0 < p -> 0 < q -> p * ln q - p * ln p <= q - p.
Proof.
  intros Hp Hq.
  assert (H : ln (q * / p) <= q * / p - 1).
  { apply ln_le_sub1. apply Rmult_lt_0_compat; [lra|now apply Rinv_0_lt_compat]. }
  rewrite ln_mult, ln_Rinv in H by (try apply Rinv_0_lt_compat; lra).
  apply (Rmult_le_compat_l p) in H; [|lra].
  replace (p * (q * / p - 1)) with (q - p) in H by (field; lra).
  lra.
Qed.

Lemma entropy_core {A : Type} (rows : list A) (P : A -> nat -> R) (n : nat) (eps : R) :
  rows <> [] -> (0 < n)%nat -> 0 <= eps ->
  (forall r j, In r rows -> (j < n)%nat -> 0 < P r j) ->
  (forall r, In r rows -> sum (map (P r) (seq 0 n)) = 1) ->
  let N := INR (length rows) in
  let a := fun j => sum (map (fun r => P r j) rows) / N in
  let AE := - sum (map (fun j => a j * ln (a j + eps)) (seq 0 n)) in
  let SE := - (sum (map (fun r => sum (map (fun j => P r j * ln (P r j)) (seq 0 n)))
                        rows) / N) in
  - ln (INR n) <= SE - AE <= INR n * eps.
Proof.
  intros Hne Hn Heps Hpos Hone N a AE SE.
  assert (HN : 0 < N).
  { apply lt_0_INR. destruct rows; [congruence|simpl; lia]. }
  assert (Hseq : forall j, In j (seq 0 n) -> (j < n)%nat).
  { intros j Hj. apply in_seq in Hj. lia. }
  assert (Ha : forall j, (j < n)%nat -> 0 < a j).
  { intros j Hj. unfold a, Rdiv. apply Rmult_lt_0_compat; [|now apply Rinv_0_lt_compat].
    apply Rsum_map_pos; [exact Hne|]. intros r Hr. now apply Hpos. }
  assert (Hswap : forall c : nat -> R,
             sum (map (fun j => a j * c j) (seq 0 n))
             = sum (map (fun r => sum (map (fun j => P r j * c j) (seq 0 n))) rows) / N).
  { intros c. rewrite Rsum_exchange.
    unfold Rdiv. rewrite Rmult_comm, <- Rsum_map_scale.
    apply Rsum_map_ext. intros j _. unfold a.
    rewrite (Rsum_map_ext (fun r => P r j * c j) (fun r => c j * P r j))
      by (intros; lra).
    rewrite Rsum_map_scale. field. lra. }
  assert (Hsa : sum (map a (seq 0 n)) = 1).
  { rewrite (Rsum_map_ext a (fun j => a j * 1)) by (intros; lra).
    rewrite Hswap.
    rewrite (Rsum_map_ext _ (fun _ => 1)).
    - rewrite Rsum_map_const. fold N. field. lra.
    - intros r Hr. rewrite (Rsum_map_ext _ (P r)) by (intros; lra). now apply Hone. }
  assert (HP1 : forall r j, In r rows -> (j < n)%nat -> P r j <= 1).
  { intros r j Hr Hj. rewrite <- (Hone r Hr).
    apply (Rsum_map_elem_le (P r) (seq 0 n) j).
    - intros x Hx. left. apply Hpos; auto.
    - apply in_seq. lia. }
  fold N in Hswap.
  split.
  - (* lower bound *)
    assert (HSE : 0 <= SE).
    { unfold SE. apply Rle_trans with (- (0 / N)); [right; field; lra|].
      apply Ropp_le_contravar. unfold Rdiv.
      apply Rmult_le_compat_r; [left; now apply Rinv_0_lt_compat|].
      rewrite <- (Rmult_0_r (INR (length rows))), <- Rsum_map_const.
      apply Rsum_map_le. intros r Hr.
      rewrite <- (Rmult_0_r (INR (length (seq 0 n)))), <- Rsum_map_const.
      apply Rsum_map_le. intros j Hj. apply Hseq in Hj.
      pose proof (Hpos r j Hr Hj). pose proof (HP1 r j Hr Hj).
      assert (ln (P r j) <= 0).
      { rewrite <- ln_1. apply ln_le_mono; lra. }
      nra. }
    assert (HAE : AE <= ln (INR n)).
    { unfold AE.
      assert (Hn' : 0 < INR n) by now apply lt_0_INR.
      apply Rle_trans with (- sum (map (fun j => a j * ln (a j)) (seq 0 n))).
      - apply Ropp_le_contravar, Rsum_map_le. intros j Hj. apply Hseq in Hj.
        pose proof (Ha j Hj).
        apply Rmult_le_compat_l; [lra|]. apply ln_le_mono; lra.
      - assert (H : sum (map (fun j => a j * ln (/ INR n) - a j * ln (a j)) (seq 0 n))
                    <= sum (map (fun j => / INR n - a j) (seq 0 n))).
        { apply Rsum_map_le. intros j Hj. apply Hseq in Hj.
          apply gibbs_term; [now apply Ha|now apply Rinv_0_lt_compat]. }
        rewrite (Rsum_map_ext _ (fun j => a j * ln (/ INR n) + -1 * (a j * ln (a j)))) in H
          by (intros; lra).
        rewrite Rsum_map_plus, Rsum_map_scale in H.
        rewrite (Rsum_map_ext (fun j => a j * ln (/ INR n))
                              (fun j => ln (/ INR n) * a j)) in H by (intros; lra).
        rewrite Rsum_map_scale, Hsa in H.
        rewrite (Rsum_map_ext (fun j => / INR n - a j)
                              (fun j => / INR n + -1 * a j)) in H by (intros; lra).
        rewrite Rsum_map_plus, Rsum_map_scale, Hsa, Rsum_map_const, length_seq in H.
        rewrite ln_Rinv in H by assumption.
        replace (INR n * / INR n) with 1 in H by (field; lra).
        lra. }
    lra.
  - (* upper bound *)
    unfold SE, AE.
    rewrite (Hswap (fun j => ln (a j + eps))).
    set (S1 := sum (map (fun r => sum (map (fun j => P r j * ln (a j + eps)) (seq 0 n))) rows)).
    set (S2 := sum (map (fun r => sum (map (fun j => P r j * ln (P r j)) (seq 0 n))) rows)).
    assert (H : S1 + -1 * S2 <= INR (length rows) * (INR n * eps)).
    { unfold S1, S2. rewrite <- Rsum_map_scale, <- Rsum_map_plus, <- Rsum_map_const.
      apply Rsum_map_le. intros r Hr.
      rewrite <- Rsum_map_scale, <- Rsum_map_plus.
      apply Rle_trans with (sum (map (fun j => (a j + eps) - P r j) (seq 0 n))).
      - apply Rsum_map_le. intros j Hj. apply Hseq in Hj.
        pose proof (Ha j Hj). pose proof (Hpos r j Hr Hj).
        pose proof (gibbs_term (P r j) (a j + eps)). lra.
      - rewrite (Rsum_map_ext _ (fun j => (a j + eps) + -1 * P r j)) by (intros; lra).
        rewrite !Rsum_map_plus, Rsum_map_scale, Hsa, (Hone r Hr), Rsum_map_const, length_seq.
        lra. }
    fold N in H.
    apply Rmult_le_reg_l with N; [exact HN|].
    replace (N * (- (S2 / N) - - (S1 / N))) with (S1 + -1 * S2) by (field; lra).
    lra.
Qed.

Lemma nth_map_lt {A B : Type} (f : A -> B) (l : list A) (j : nat) (da : A) (db : B) :
  (j < length l)%nat -> nth j (map f l) db = f (nth j l da).
Proof.
  intros Hj. rewrite (nth_indep _ db (f da)) by now rewrite length_map.
  apply map_nth.
Qed.

Lemma map2_nth_seq {A B C : Type} (f : A -> B -> C) (u : list A) (v : list B)
      (da : A) (db : B) :
  length u = length v ->
  map2 f u v = map (fun j => f (nth j u da) (nth j v db)) (seq 0 (length u)).
Proof.
  revert v; induction u as [|x u IH]; intros [|y v] Hl; try discriminate; [reflexivity|].
  cbn [map2 length seq map nth]. f_equal.
  rewrite <- seq_shift, map_map. apply IH. simpl in Hl. lia.
Qed.

Lemma map2_map_map {A B C D : Type} (f : B -> C -> D) (g : A -> B) (h : A -> C)
      (l : list A) :
  map2 f (map g l) (map h l) = map (fun x => f (g x) (h x)) l.
Proof. induction l as [|a l IH]; [reflexivity|]. cbn [map map2]. now rewrite IH. Qed.

Lemma sum_exp_pos (r : list R) : r <> [] -> 0 < sum (map exp r).
Proof.
  intros Hne. apply Rsum_map_pos; [exact Hne|]. intros x _. apply exp_pos.
Qed.

Lemma softmax_length (r : list R) : length (softmax r) = length r.
Proof. unfold softmax. now rewrite !length_map. Qed.

Lemma nth_softmax (r : list R) (j : nat) :
  (j < length r)%nat ->
  nth j (softmax r) 0 = Rtrigo_def.exp (nth j r 0) / sum (map exp r).
Proof.
  intros Hj. unfold softmax.
  rewrite (nth_map_lt _ _ _ 0) by now rewrite length_map.
  now rewrite (nth_map_lt _ _ _ 0).
Qed.

Lemma softmax_pos (r : list R) (j : nat) :
  (j < length r)%nat -> 0 < nth j (softmax r) 0.
Proof.
  intros Hj. rewrite nth_softmax by assumption.
  unfold Rdiv. apply Rmult_lt_0_compat; [apply exp_pos|].
  apply Rinv_0_lt_compat, sum_exp_pos. destruct r; [simpl in Hj; lia|discriminate].
Qed.

Lemma softmax_sum (r : list R) : r <> [] -> sum (softmax r) = 1.
Proof.
  intros Hne. pose proof (sum_exp_pos r Hne) as Hs. unfold softmax.
  rewrite (Rsum_map_ext (fun x => div x (sum (map exp r)))
                        (fun x => / sum (map exp r) * (fun y => y) x))
    by (intros; cbn [div R_Scalar]; unfold Rdiv; lra).
  rewrite Rsum_map_scale, map_id. field. lra.
Qed.

Lemma softmax_seq_sum (r : list R) (n : nat) :
  length r = n -> (0 < n)%nat ->
  sum (map (fun j => nth j (softmax r) 0) (seq 0 n)) = 1.
Proof.
  intros Hl Hn. rewrite <- Hl, <- (softmax_length r), map_nth_seq_all.
  apply softmax_sum. destruct r; [simpl in Hl; lia|discriminate].
Qed.

(** The logarithm of the softmax does not see a shift of the logits:
    [log_softmax (x + c)] is the logarithm of [softmax x]. *)
Lemma nth_log_softmax_shift (r : list R) (c : R) (j : nat) :
  (j < length r)%nat ->
  nth j (log_softmax (map (fun x => add x c) r)) 0 = ln (nth j (softmax r) 0).
Proof.
  intros Hj.
  assert (Hne : r <> []) by (destruct r; [simpl in Hj; lia|discriminate]).
  pose proof (sum_exp_pos r Hne) as Hs.
  rewrite nth_softmax by assumption. unfold log_softmax.
  rewrite (nth_map_lt _ _ _ 0) by now rewrite length_map.
  rewrite (nth_map_lt _ _ _ 0) by assumption.
  rewrite map_map.
  rewrite (Rsum_map_ext (fun x => exp (add x c))
                        (fun x => Rtrigo_def.exp c * exp x))
    by (intros; cbn [exp add R_Scalar]; rewrite exp_plus; lra).
  rewrite Rsum_map_scale.
  cbn [sub add log R_Scalar].
  rewrite ln_mult by (try apply exp_pos; assumption).
  unfold Rdiv. rewrite ln_mult by (try apply exp_pos; now apply Rinv_0_lt_compat).
  rewrite ln_Rinv by assumption. rewrite !ln_exp. lra.
Qed.

Lemma row_entropy (r : list R) (c : R) :
  sum (map2 mul (softmax r) (log_softmax (map (fun x => add x c) r)))
  = sum (map (fun j => nth j (softmax r) 0 * ln (nth j (softmax r) 0))
             (seq 0 (length r))).
Proof.
  rewrite (map2_nth_seq _ _ _ 0 0)
    by (unfold log_softmax; now rewrite softmax_length, !length_map).
  rewrite softmax_length. apply Rsum_map_ext. intros j Hj. apply in_seq in Hj.
  rewrite nth_log_softmax_shift by lia. reflexivity.
Qed.

Lemma Rmean_eq (l : list R) : mean l = sum l / INR (length l).
Proof. unfold mean. cbn [div of_Z R_Scalar]. now rewrite <- INR_IZR_INZ. Qed.

(** In exact arithmetic, for at least one row of logits of width
    [n >= 1], the entropy loss lies between [- ln n] and [n * 1e-5]. *)
Lemma entropy_loss_bounds (affinity : list (list R)) (t : R) (n : nat) :
  affinity <> [] -> (0 < n)%nat ->
  Forall (fun r => length r = n) affinity ->
  exists loss,
    compute_entropy_loss affinity "softmax" t = Ok loss /\
    (- ln (INR n) <= loss <= INR n * lit 1 100000).
Proof.
  intros Hne Hn Hw. unfold compute_entropy_loss.
  cbn [String.eqb Ascii.eqb Bool.eqb bind]. eexists. split; [reflexivity|].
  set (flat := map (map (fun x => div x t)) affinity).
  assert (Hfw : forall r, In r flat -> length r = n).
  { intros r Hr. apply in_map_iff in Hr as (r0 & <- & Hr0).
    rewrite length_map. rewrite Forall_forall in Hw. now apply Hw. }
  assert (Hfne : flat <> []).
  { unfold flat. destruct affinity; [congruence|discriminate]. }
  set (eps := lit 1 100000).
  assert (Heps : 0 <= eps).
  { unfold eps. cbn [lit R_Scalar]. lra. }
  pose proof (entropy_core flat (fun r j => nth j (softmax r) 0) n eps Hfne Hn Heps) as Hcore.
  cbv zeta in Hcore.
  assert (Hhd : length (hd [] (map softmax flat)) = n).
  { destruct flat as [|r0 fl] eqn:Ef; [congruence|]. cbn [map hd].
    rewrite softmax_length. apply Hfw. now left. }
  unfold mean_dim0. rewrite Hhd, map_map, map2_map_map, Rmean_eq, length_map.
  rewrite (Rsum_map_ext (fun r => sum (map2 mul (softmax r)
                                         (log_softmax (map (fun x => add x eps) r))))
                        (fun r => sum (map (fun j => nth j (softmax r) 0
                                                  * ln (nth j (softmax r) 0))
                                           (seq 0 n)))).
  2:{ intros r Hr. rewrite row_entropy. now rewrite (Hfw r Hr). }
  rewrite (Rsum_map_ext
             (fun j => mul (mean (map (fun r => nth j r zero) (map softmax flat)))
                           (log (add (mean (map (fun r => nth j r zero) (map softmax flat)))
                                     eps)))
             (fun j => sum (map (fun r => nth j (softmax r) 0) flat) / INR (length flat)
                       * ln (sum (map (fun r => nth j (softmax r) 0) flat)
                             / INR (length flat) + eps))).
  2:{ intros j _. rewrite Rmean_eq, !map_map, length_map. reflexivity. }
  cbn [sub opp R_Scalar]. apply Hcore.
  - intros r j Hr Hj. apply softmax_pos. now rewrite (Hfw r Hr).
  - intros r Hr. apply softmax_seq_sum; [now apply Hfw|exact Hn].
Qed.
End EntropyBounds.

(** ** The losses of a training call *)

Section TrainingTail.
Context {F : Type} {SF : Scalar F}.

Lemma forward_tail_losses (vq : VectorQuantizer F) B C H W zdata d idx qdata :
  training vq = true ->
  exists ent,
    compute_entropy_loss (map (map opp) d) "softmax" (lit 1 100) = Ok ent /\
    forward_tail vq [B; H; W; C] zdata d idx qdata =
    (' (usage, vq') <- (if show_usage vq then update_usage vq idx else Ok (0%Q, vq)) ;;
     Ok (mkForwardOutput (quantized_map B C H W zdata qdata)
           (Some (mean (map2 (fun q x => square (sub q x)) qdata zdata)))
           (Some (mul (beta vq) (mean (map2 (fun q x => square (sub q x)) qdata zdata))))
           (Some (mul (entropy_loss_ratio vq) ent)) usage
           None None (mkIndexTensor [length idx] idx),
         vq')).
Proof.
  intros Ht. unfold forward_tail. rewrite Ht, andb_true_r.
  destruct (compute_entropy_loss_softmax (map (map opp) d) (lit 1 100)) as (v & Ev).
  exists v. split; [exact Ev|]. rewrite Ev. cbn [bind].
  destruct (if show_usage vq then _ else _) as [[u vq']|e]; reflexivity.
Qed.

Lemma distances_length (rows cb : list (list F)) :
  length (distances rows cb) = length rows.
Proof. unfold distances. apply length_map. Qed.

Lemma distances_width (rows cb : list (list F)) :
  Forall (fun r => length r = length cb) (distances rows cb).
Proof.
  unfold distances. apply Forall_map, Forall_forall. intros r _. apply length_map.
Qed.

Lemma map2_app {A B C : Type} (f : A -> B -> C) (u a : list A) (v b : list B) :
  length u = length v ->
  map2 f (u ++ a) (v ++ b) = map2 f u v ++ map2 f a b.
Proof.
  revert v; induction u as [|x u IH]; intros [|y v] Hl; try discriminate; [reflexivity|].
  cbn [app map2]. f_equal. apply IH. simpl in Hl. lia.
Qed.
End TrainingTail.

Section TrainingLosses.
Local Open Scope R_scope.

Lemma Rsum_app (u v : list R) : sum (u ++ v) = sum u + sum v.
Proof.
  induction u as [|x u IH]; cbn [app]; [rewrite Rsum_nil; lra|].
  rewrite !Rsum_cons, IH. lra.
Qed.

Lemma sum_map2_concat (f : R -> R -> R) (a b : list (list R)) (c : nat) :
  Forall (fun r => length r = c) a -> Forall (fun r => length r = c) b ->
  sum (map2 f (concat a) (concat b)) = sum (map2 (fun u v => sum (map2 f u v)) a b).
Proof.
  intros Ha; revert b; induction Ha as [|u a Hu _ IH]; intros b Hb.
  - reflexivity.
  - destruct Hb as [|v b Hv Hb].
    + cbn [concat map2]. destruct (u ++ concat a); reflexivity.
    + cbn [concat map2]. rewrite map2_app by congruence.
      rewrite Rsum_app, Rsum_cons, IH by assumption. reflexivity.
Qed.

Lemma sq_dist_nonneg (u v : list R) : 0 <= sq_dist u v.
Proof.
  unfold sq_dist. apply Rsum_nonneg. revert v.
  induction u as [|x u IH]; intros [|y v]; cbn [map2]; constructor; [|apply IH].
  exact (Rle_0_sqr (x - y)).
Qed.

Lemma sq_dists_nonneg (a b : list (list R)) :
  Forall (fun x => 0 <= x) (map2 sq_dist a b).
Proof.
  revert b; induction a as [|u a IH]; intros [|v b]; cbn [map2]; constructor;
    [apply sq_dist_nonneg|apply IH].
Qed.

(** A training call in exact arithmetic. *)
Lemma training_call (vq : VectorQuantizer R) (z : Tensor R) (B H W : nat) :
  codebook_ok vq -> training vq = true ->
  shape z = [B; e_dim vq; H; W] -> (1 <= B * H * W)%nat ->
  usage_ready vq (B * H * W) ->
  exists out vq' idx ent,
    forward vq z = Ok (out, vq') /\
    min_encoding_indices out = mkIndexTensor [(B * H * W)%nat] idx /\
    vq_loss out
    = Some (sum (map2 sq_dist (gather (codebook vq) idx)
                      (input_rows vq z B (e_dim vq) H W))
            / INR (B * H * W * e_dim vq)) /\
    commit_loss out
    = Some (beta vq * (sum (map2 sq_dist (gather (codebook vq) idx)
                                (input_rows vq z B (e_dim vq) H W))
                       / INR (B * H * W * e_dim vq))) /\
    entropy_loss out = Some (entropy_loss_ratio vq * ent) /\
    (- ln (INR (n_e vq)) <= ent <= INR (n_e vq) * lit 1 100000).
Proof.
  intros Hcb Ht Hs HN Hu.
  destruct (forward_eq vq z B (e_dim vq) H W Hcb Hs eq_refl)
    as (idx & Ei & Hl & Hr & E).
  destruct (forward_tail_losses vq B (e_dim vq) H W
              (concat (input_rows vq z B (e_dim vq) H W))
              (distances (input_rows vq z B (e_dim vq) H W) (codebook vq)) idx
              (concat (gather (codebook vq) idx)) Ht) as (ent & Ee & E').
  rewrite E' in E. clear E'.
  pose proof Hcb as (Hn & He & _).
  assert (Hent : - ln (INR (n_e vq)) <= ent <= INR (n_e vq) * lit 1 100000).
  { destruct (entropy_loss_bounds
                (map (map opp) (distances (input_rows vq z B (e_dim vq) H W) (codebook vq)))
                (lit 1 100) (n_e vq)) as (ent' & Ee' & Hb).
    - intros En. apply (f_equal (@length _)) in En.
      rewrite length_map, distances_length, input_rows_length in En. simpl in En. lia.
    - exact Hn.
    - apply Forall_map. eapply Forall_impl; [|apply distances_width].
      intros r Hrw. cbv beta in Hrw |- *.
      rewrite length_map, Hrw, codebook_length. apply Hcb.
    - rewrite Ee in Ee'. injection Ee' as ->. exact Hb. }
  assert (Hloss : mean (map2 (fun q x => square (sub q x))
                             (concat (gather (codebook vq) idx))
                             (concat (input_rows vq z B (e_dim vq) H W)))
                  = sum (map2 sq_dist (gather (codebook vq) idx)
                              (input_rows vq z B (e_dim vq) H W))
                    / INR (B * H * W * e_dim vq)).
  { assert (Hgw : Forall (fun r => length r = e_dim vq) (gather (codebook vq) idx)).
    { apply gather_width; [now apply codebook_width|].
      replace (length (codebook vq)) with (n_e vq); [exact Hr|].
      rewrite codebook_length. symmetry. apply Hcb. }
    pose proof (input_rows_width vq z B (e_dim vq) H W) as Hiw.
    rewrite Rmean_eq. f_equal.
    - rewrite (sum_map2_concat _ _ _ (e_dim vq)) by assumption. reflexivity.
    - f_equal. rewrite map2_length.
      + rewrite (concat_length_uniform (e_dim vq)) by assumption.
        now rewrite gather_length, Hl.
      + rewrite !(concat_length_uniform (e_dim vq)) by assumption.
        now rewrite gather_length, input_rows_length, Hl. }
  rewrite Hloss in E.
  unfold usage_ready in Hu. rewrite Ht, andb_true_r in Hu.
  destruct (show_usage vq) eqn:Eu.
  - destruct (Hu eq_refl) as (used & Hused & Hlen & Hfit & Hwr).
    rewrite (update_usage_ok vq used idx Hused Hn) in E
      by ((rewrite Hlen; lia) || assumption).
    cbn [bind] in E. do 2 eexists. exists idx, ent. split; [exact E|].
    cbn [min_encoding_indices vq_loss commit_loss entropy_loss]. rewrite Hl.
    repeat split; try reflexivity; apply Hent.
  - cbn [bind] in E. do 2 eexists. exists idx, ent. split; [exact E|].
    cbn [min_encoding_indices vq_loss commit_loss entropy_loss]. rewrite Hl.
    repeat split; try reflexivity; apply Hent.
Qed.
End TrainingLosses.

(** X6. In exact arithmetic a training call on at least one position,
    with a buffer that is ready for the batch when usage is tracked,
    returns as [vq_loss] the squared distance between each input vector
    (as the distances see it) and its selected code vector, averaged over
    all elements, which is not negative; as [commit_loss] the same value
    times [beta]; and as [entropy_loss] the entropy loss ratio, of either
    sign, times an entropy term that lies between [- ln n_e] and
    [n_e * 1e-5]. *)
Theorem training_losses (vq : VectorQuantizer R) (z : Tensor R) (B H W : nat) :
  codebook_ok vq -> training vq = true ->
  shape z = [B; e_dim vq; H; W] -> (1 <= B * H * W)%nat ->
  usage_ready vq (B * H * W) ->
  exists out vq' v ent,
    forward vq z = Ok (out, vq') /\
    vq_loss out = Some v /\
    commit_loss out = Some (beta vq * v)%R /\
    entropy_loss out = Some (entropy_loss_ratio vq * ent)%R /\
    v = (sum (map2 sq_dist (gather (codebook vq) (idata (min_encoding_indices out)))
                   (input_rows vq z B (e_dim vq) H W))
         / INR (B * H * W * e_dim vq))%R /\
    (0 <= v)%R /\
    (- ln (INR (n_e vq)) <= ent <= INR (n_e vq) * lit 1 100000)%R.
Proof.
  intros Hcb Ht Hs HN Hu.
  destruct (training_call vq z B H W Hcb Ht Hs HN Hu)
    as (out & vq' & idx & ent & E & Ei & Ev & Ec & Ee & Hent).
  exists out, vq'. eexists. exists ent. split; [exact E|]. split; [exact Ev|].
  split; [exact Ec|]. split; [exact Ee|]. rewrite Ei. cbn [idata].
  split; [reflexivity|]. split; [|exact Hent].
  unfold Rdiv. apply Rmult_le_pos.
  - apply Rsum_nonneg, sq_dists_nonneg.
  - left. apply Rinv_0_lt_compat, lt_0_INR.
    destruct Hcb as (_ & He & _). apply Nat.mul_pos_pos; lia.
Qed.

Lemma training_losses_witness :
  exists out vq' v ent,
    forward demo_vq demo_z = Ok (out, vq') /\
    vq_loss out = Some v /\
    commit_loss out = Some (beta demo_vq * v)%R /\
    entropy_loss out = Some (entropy_loss_ratio demo_vq * ent)%R /\
    v = (sum (map2 sq_dist
                   (gather (codebook demo_vq) (idata (min_encoding_indices out)))
                   (input_rows demo_vq demo_z 1 (e_dim demo_vq) 1 2))
         / INR (1 * 1 * 2 * e_dim demo_vq))%R /\
    (0 <= v)%R /\
    (- ln (INR (n_e demo_vq)) <= ent <= INR (n_e demo_vq) * lit 1 100000)%R.
Proof.
  apply (training_losses demo_vq demo_z 1 1 2).
  - exact demo_vq_ok.
  - reflexivity.
  - reflexivity.
  - cbn [Nat.mul]. lia.
  - exact demo_usage_ready.
Defined.

(** [compute_entropy_loss] raises [ValueError] for every loss type other
    than "softmax". For "softmax", at least one row of logits, each of
    width [n >= 1], and a temperature other than 0, it returns in exact
    arithmetic a value between [- ln n] and [n * 1e-5]: the [1e-5] added
    to the logits before [log_softmax] cancels, and the mean entropy of
    the rows exceeds the entropy of the mean row by no more than what the
    [1e-5] inside the logarithm of the latter allows. *)
Theorem entropy_loss_range (affinity : list (list R)) (loss_type : string)
        (t : R) (n : nat) :
  affinity <> [] -> (0 < n)%nat ->
  Forall (fun r => length r = n) affinity -> t <> 0%R ->
  (loss_type <> "softmax"%string ->
   compute_entropy_loss affinity loss_type t = Err ValueError) /\
  exists loss,
    compute_entropy_loss affinity "softmax" t = Ok loss /\
    (- ln (INR n) <= loss <= INR n * lit 1 100000)%R.
Proof.
  intros Hne Hn Hw _. split.
  - intros Hl. unfold compute_entropy_loss.
    apply String.eqb_neq in Hl. rewrite Hl. reflexivity.
  - now apply entropy_loss_bounds.
Qed.

Lemma entropy_loss_range_witness :
  (("sigmoid" <> "softmax")%string ->
   compute_entropy_loss [[0%R; 0%R]] "sigmoid" (lit 1 100) = Err ValueError) /\
  exists loss,
    compute_entropy_loss [[0%R; 0%R]] "softmax" (lit 1 100) = Ok loss /\
    (- ln (INR 2) <= loss <= INR 2 * lit 1 100000)%R.
Proof.
  apply (entropy_loss_range [[0%R; 0%R]] "sigmoid" (lit 1 100) 2).
  - discriminate.
  - lia.
  - repeat constructor.
  - cbn [lit R_Scalar]. lra.
Defined.

(** ** Quantizing a quantized map *)

Lemma position_split (n1 n2 n3 p : nat) :
  p < n1 * n2 * n3 ->
  exists i j k, i < n1 /\ j < n2 /\ k < n3 /\ p = (i * n2 + j) * n3 + k.
Proof.
  intros Hp.
  assert (H3 : 0 < n3) by (destruct n3; [lia|lia]).
  assert (H2 : 0 < n2) by (destruct n2; [lia|lia]).
  exists (p / n3 / n2), ((p / n3) mod n2), (p mod n3).
  assert (Hq : p / n3 < n1 * n2).
  { apply Nat.Div0.div_lt_upper_bound. lia. }
  split; [apply Nat.Div0.div_lt_upper_bound; lia|].
  split; [apply Nat.mod_upper_bound; lia|].
  split; [apply Nat.mod_upper_bound; lia|].
  pose proof (Nat.div_mod_eq p n3). pose proof (Nat.div_mod_eq (p / n3) n2). nia.
Qed.

Lemma tabulate3_rows {A : Type} (n1 n2 n3 : nat) (f : nat -> nat -> nat -> A)
      (rows : list A) (d : A) :
  length rows = n1 * n2 * n3 ->
  (forall i j k, i < n1 -> j < n2 -> k < n3 ->
                 f i j k = nth ((i * n2 + j) * n3 + k) rows d) ->
  tabulate3 n1 n2 n3 f = rows.
Proof.
  intros Hl Hf. apply nth_ext with (d := d) (d' := d).
  - now rewrite tabulate3_length.
  - intros p Hp. rewrite tabulate3_length in Hp.
    destruct (position_split n1 n2 n3 p Hp) as (i & j & k & Hi & Hj & Hk & ->).
    rewrite nth_tabulate3 by assumption. now apply Hf.
Qed.

Section FlatRows.
Context {F : Type} {SF : Scalar F}.

(** The vectors of a map laid out from a list of vectors are these vectors. *)
Lemma flat_rows_of_rows (rows : list (list F)) (B C H W : nat) :
  length rows = B * H * W -> Forall (fun r => length r = C) rows ->
  flat_rows (mkTensor [B; C; H; W]
               (tabulate4 B C H W (fun i k y x =>
                  get4 (mkTensor [B; H; W; C] (concat rows)) i y x k)))
            B C H W
  = rows.
Proof.
  intros Hl Hw. unfold flat_rows. apply (tabulate3_rows _ _ _ _ _ []); [exact Hl|].
  intros i y x Hi Hy Hx.
  assert (Hp : (i * H + y) * W + x < length rows).
  { rewrite Hl. apply index_bound; [apply index_bound|]; assumption. }
  assert (Hr : length (nth ((i * H + y) * W + x) rows []) = C).
  { rewrite Forall_forall in Hw. apply Hw, nth_In, Hp. }
  rewrite <- (map_nth_seq_all (nth ((i * H + y) * W + x) rows []) zero).
  rewrite Hr. apply map_ext_in. intros k Hk. apply in_seq in Hk.
  unfold get4 at 1. cbn [shape data]. rewrite nth_tabulate4 by lia.
  unfold get4. cbn [shape data].
  now rewrite (nth_concat_uniform C) by (assumption || lia).
Qed.
End FlatRows.

Section Idempotence.
Local Open Scope R_scope.

Lemma sq_dist_refl (u : list R) : sq_dist u u = 0.
Proof.
  induction u as [|x u IH]; [reflexivity|]. rewrite sq_dist_cons, IH. lra.
Qed.

Lemma sq_dist_zero (u v : list R) :
  length u = length v -> sq_dist u v = 0 -> u = v.
Proof.
  revert v; induction u as [|x u IH]; intros [|y v] Hl; try discriminate; [reflexivity|].
  rewrite sq_dist_cons. intros H0.
  pose proof (sq_dist_nonneg u v). pose proof (Rle_0_sqr (x - y)) as Hs.
  unfold Rsqr in Hs.
  assert (Hxy : (x - y) * (x - y) = 0) by lra.
  assert (x = y).
  { apply Rmult_integral in Hxy. lra. }
  subst y. f_equal. apply IH; [simpl in Hl; lia|lra].
Qed.

Lemma normalize_fixed (v : list R) : norm2 v = 1 -> normalize v = v.
Proof.
  intros Hn. unfold normalize. rewrite Hn.
  destruct (clamp_min_cases 1 eps12) as [(Hlt & _)|(_ & ->)].
  - unfold eps12 in Hlt. cbn [lit R_Scalar] in Hlt. lra.
  - rewrite <- (map_id v) at 2. apply map_ext. intros x. cbn [div R_Scalar]. field.
Qed.

Lemma argmin_of_nat (row : list R) (z : Z) :
  argmin row = Ok z -> z = Z.of_nat (Z.to_nat z).
Proof.
  intros E. apply argmin_range in E. lia.
Qed.

(** The row of the distance matrix for one input vector. *)
Lemma nth_distances_row (x : list R) (cb : list (list R)) (j : nat) :
  (j < length cb)%nat -> length x = length (nth j cb []) ->
  nth j (map (fun e => sub (add (sum_sq x) (sum_sq e)) (mul (of_Z 2) (dot x e))) cb) 0
  = sq_dist x (nth j cb []).
Proof.
  intros Hj Hl. rewrite (nth_map_lt _ _ _ []) by assumption.
  now apply distance_identity.
Qed.

(** The code selected for a vector is the code selected for itself. *)
Lemma argmin_of_code (x : list R) (cb : list (list R)) (c : nat) (i : Z) :
  length x = c -> Forall (fun r => length r = c) cb ->
  argmin (map (fun e => sub (add (sum_sq x) (sum_sq e)) (mul (of_Z 2) (dot x e))) cb)
  = Ok i ->
  argmin (map (fun e => sub (add (sum_sq (nth (Z.to_nat i) cb []))
                                  (sum_sq e))
                             (mul (of_Z 2) (dot (nth (Z.to_nat i) cb []) e))) cb)
  = Ok i.
Proof.
  intros Hx Hw E.
  assert (Hwj : forall j, (j < length cb)%nat -> length (nth j cb []) = c).
  { intros j Hj. rewrite Forall_forall in Hw. now apply Hw, nth_In. }
  pose proof (argmin_of_nat _ _ E) as Hi.
  destruct (argmin_least R_no_nan Rltb_irrefl Rltb_trans Rltb_total _ _ 0 E)
    as (Hr & Hmin & Hfirst).
  rewrite length_map in Hr, Hmin.
  set (r := Z.to_nat i) in *.
  destruct (argmin_total
              (map (fun e => sub (add (sum_sq (nth r cb [])) (sum_sq e))
                                 (mul (of_Z 2) (dot (nth r cb []) e))) cb))
    as (i' & E').
  { destruct cb; [simpl in Hr; lia|discriminate]. }
  pose proof (argmin_of_nat _ _ E') as Hi'.
  destruct (argmin_least R_no_nan Rltb_irrefl Rltb_trans Rltb_total _ _ 0 E')
    as (Hr' & Hmin' & Hfirst').
  rewrite length_map in Hr', Hmin'.
  set (r' := Z.to_nat i') in *.
  assert (Hd : forall a j, (a < length cb)%nat -> (j < length cb)%nat ->
             nth j (map (fun e => sub (add (sum_sq (nth a cb [])) (sum_sq e))
                                      (mul (of_Z 2) (dot (nth a cb []) e))) cb) 0
             = sq_dist (nth a cb []) (nth j cb [])).
  { intros a j Ha Hj. apply nth_distances_row; [exact Hj|].
    now rewrite !Hwj. }
  assert (Hdx : forall j, (j < length cb)%nat ->
             nth j (map (fun e => sub (add (sum_sq x) (sum_sq e))
                                      (mul (of_Z 2) (dot x e))) cb) 0
             = sq_dist x (nth j cb [])).
  { intros j Hj. apply nth_distances_row; [exact Hj|]. now rewrite Hwj. }
  (* the selected code is at distance 0 from itself *)
  assert (H0 : sq_dist (nth r cb []) (nth r' cb []) = 0).
  { pose proof (Hmin' r Hr) as Hm. rewrite !Hd in Hm by assumption.
    rewrite sq_dist_refl in Hm. cbn [ltb R_Scalar] in Hm. apply Rltb_false in Hm.
    pose proof (sq_dist_nonneg (nth r cb []) (nth r' cb [])). lra. }
  assert (Heq : nth r cb [] = nth r' cb []).
  { apply sq_dist_zero; [now rewrite !Hwj|exact H0]. }
  assert (Hle : (r' <= r)%nat).
  { destruct (Nat.le_gt_cases r' r) as [Hle|Hgt]; [exact Hle|].
    pose proof (Hfirst' r Hgt) as Hf. rewrite !Hd in Hf by assumption.
    rewrite sq_dist_refl, H0 in Hf. cbn [ltb R_Scalar] in Hf.
    apply Rltb_true in Hf. lra. }
  assert (Hge : (r <= r')%nat).
  { destruct (Nat.le_gt_cases r r') as [Hle'|Hgt]; [exact Hle'|].
    pose proof (Hfirst r' Hgt) as Hf. rewrite !Hdx in Hf by assumption.
    rewrite Heq in Hf. cbn [ltb R_Scalar] in Hf. apply Rltb_true in Hf. lra. }
  rewrite E'. f_equal. rewrite Hi, Hi'. fold r r'. f_equal. lia.
Qed.

Lemma distances_gather (cb : list (list R)) (idx : list Z) :
  distances (gather cb idx) cb
  = map (fun i => map (fun e => sub (add (sum_sq (nth (Z.to_nat i) cb [])) (sum_sq e))
                                    (mul (of_Z 2) (dot (nth (Z.to_nat i) cb []) e))) cb)
        idx.
Proof. unfold distances, gather. now rewrite map_map. Qed.

Lemma argmin_of_codes (rows cb : list (list R)) (c : nat) (idx : list Z) :
  Forall (fun r => length r = c) rows -> Forall (fun r => length r = c) cb ->
  mapM argmin (distances rows cb) = Ok idx ->
  mapM argmin (distances (gather cb idx) cb) = Ok idx.
Proof.
  intros Hrows Hcb. rewrite distances_gather. unfold distances. revert idx.
  induction Hrows as [|x rows Hx _ IH]; intros idx E; cbn [map mapM] in E.
  - injection E as <-. reflexivity.
  - destruct (argmin _) as [i|e] eqn:Ei in E; [|discriminate]. cbn [bind] in E.
    destruct (mapM argmin _) as [rest|e] eqn:Er in E; [|discriminate].
    cbn [bind] in E. injection E as <-. cbn [map mapM].
    rewrite (argmin_of_code x cb c i Hx Hcb Ei). cbn [bind].
    rewrite (IH rest Er). reflexivity.
Qed.

(** In exact arithmetic and evaluation mode, quantizing the quantized map
    returns it unchanged, with the same indices: [forward] is idempotent.
    Under [l2_norm] this needs stored rows of norm at least [1e-12], so
    that the rows as read have norm 1. *)
Theorem quantization_idempotent (vq : VectorQuantizer R) (z : Tensor R) (B H W : nat) :
  codebook_ok vq -> training vq = false ->
  shape z = [B; e_dim vq; H; W] ->
  (l2_norm vq = true ->
   Forall (fun r => eps12 <= norm2 r) (embedding_weight vq)) ->
  exists out,
    forward vq z = Ok (out, vq) /\
    forward vq (z_q out) = Ok (out, vq).
Proof.
  intros Hcb Ht Hs Hnorm.
  destruct (forward_eq vq z B (e_dim vq) H W Hcb Hs eq_refl)
    as (idx & Ei & Hl & Hr & E).
  rewrite forward_tail_eval in E by assumption.
  eexists. split; [exact E|]. cbn [z_q].
  pose proof Hcb as (_ & _ & Hlen & _).
  assert (Hgw : Forall (fun r => length r = e_dim vq) (gather (codebook vq) idx)).
  { apply gather_width; [now apply codebook_width|].
    now rewrite codebook_length, Hlen. }
  assert (Hq : quantized_map B (e_dim vq) H W
                 (concat (input_rows vq z B (e_dim vq) H W))
                 (concat (gather (codebook vq) idx))
               = mkTensor [B; e_dim vq; H; W]
                   (tabulate4 B (e_dim vq) H W (fun i k y x =>
                      get4 (mkTensor [B; H; W; e_dim vq]
                                     (concat (gather (codebook vq) idx))) i y x k))).
  { unfold quantized_map.
    now rewrite (quantized_data_exact real_add_sub_exact) by assumption. }
  set (zq := quantized_map B (e_dim vq) H W
               (concat (input_rows vq z B (e_dim vq) H W))
               (concat (gather (codebook vq) idx))) in *.
  assert (Hrows : input_rows vq zq B (e_dim vq) H W = gather (codebook vq) idx).
  { unfold input_rows. rewrite Hq.
    rewrite flat_rows_of_rows by (assumption || now rewrite gather_length).
    destruct (l2_norm vq) eqn:El; [|reflexivity].
    rewrite <- (map_id (gather (codebook vq) idx)) at 2.
    apply map_ext_in. intros r Hin. apply normalize_fixed.
    unfold gather in Hin. apply in_map_iff in Hin as (i & <- & Hi).
    rewrite Forall_forall in Hr. specialize (Hr i Hi).
    unfold codebook. rewrite El.
    rewrite (nth_map_lt _ _ _ []) by lia.
    apply norm2_normalize. specialize (Hnorm eq_refl).
    rewrite Forall_forall in Hnorm. apply Hnorm, nth_In. lia. }
  destruct (forward_eq vq zq B (e_dim vq) H W Hcb) as (idx2 & Ei2 & _ & _ & E2);
    [subst zq; now rewrite Hq|reflexivity|].
  rewrite Hrows in Ei2, E2.
  rewrite (argmin_of_codes _ _ (e_dim vq) idx
             (input_rows_width vq z B (e_dim vq) H W)
             (codebook_width vq Hcb) Ei) in Ei2.
  injection Ei2 as <-.
  rewrite forward_tail_eval in E2 by assumption. rewrite E2.
  do 3 f_equal. subst zq. rewrite Hq. unfold quantized_map.
  now rewrite (map2_straight_through real_add_sub_exact).
Qed.
End Idempotence.

Lemma quantization_idempotent_witness :
  exists out,
    forward (train false unit_vq) two_z = Ok (out, train false unit_vq) /\
    forward (train false unit_vq) (z_q out) = Ok (out, train false unit_vq).
Proof.
  apply (quantization_idempotent (train false unit_vq) two_z 1 1 1).
  - exact unit_vq_ok.
  - reflexivity.
  - reflexivity.
  - intros _. exact unit_vq_rows.
Defined.

(** ** The calls of the model *)

Section ModelCalls.
Context {F : Type} {SF : Scalar F}.

Lemma set_quantizers_same (m : VQModel F) :
  set_quantizers m (quantize_vis m) (quantize_sem_mid m) (quantize_sem_high m) = m.
Proof. destruct m; reflexivity. Qed.


(** A call of a quantizer in evaluation mode. *)
Lemma eval_call (vq : VectorQuantizer F) (z : Tensor F) (B H W : nat) :
  codebook_ok vq -> training vq = false -> shape z = [B; e_dim vq; H; W] ->
  exists out,
    forward vq z = Ok (out, vq) /\
    emb_loss out = (None, None, None, 0%Q) /\
    info out = (None, None, min_encoding_indices out) /\
    shape (z_q out) = [B; e_dim vq; H; W] /\
    z_q out = quantized_map B (e_dim vq) H W
                (concat (input_rows vq z B (e_dim vq) H W))
                (concat (gather (codebook vq) (idata (min_encoding_indices out)))) /\
    ishape (min_encoding_indices out) = [length (idata (min_encoding_indices out))] /\
    length (idata (min_encoding_indices out)) = B * H * W /\
    Forall (fun i => (0 <= i < Z.of_nat (n_e vq))%Z) (idata (min_encoding_indices out)).
Proof.
  intros Hcb Ht Hs.
  destruct (forward_eq vq z B (e_dim vq) H W Hcb Hs eq_refl)
    as (idx & _ & Hl & Hr & E).
  rewrite forward_tail_eval in E by assumption.
  eexists. split; [exact E|].
  cbn [emb_loss info vq_loss commit_loss entropy_loss codebook_usage perplexity
       min_encodings min_encoding_indices z_q idata ishape].
  repeat (split; [reflexivity|]). split; [exact Hl|exact Hr].
Qed.

Section Exact.
Hypothesis add_sub_exact : forall a b : F, add a (sub b a) = b.

(** Looking up the indices of a returned map, with its shape, gives the
    map again. *)
Lemma lookup_of_quantized (vq : VectorQuantizer F) (z : Tensor F) (B H W : nat)
      (idx : list Z) :
  codebook_ok vq -> length idx = B * H * W ->
  Forall (fun i => (0 <= i < Z.of_nat (n_e vq))%Z) idx ->
  get_codebook_entry vq (mkIndexTensor [length idx] idx)
                     (Some [B; e_dim vq; H; W]) true
  = Ok (quantized_map B (e_dim vq) H W
          (concat (input_rows vq z B (e_dim vq) H W))
          (concat (gather (codebook vq) idx))).
Proof.
  intros Hcb Hl Hr.
  pose proof Hcb as (_ & _ & Hlen & _).
  assert (Hg : index_rows (codebook vq) idx = Ok (gather (codebook vq) idx)).
  { apply index_rows_ok. now rewrite codebook_length, Hlen. }
  assert (Hq : length (concat (gather (codebook vq) idx)) = B * H * W * e_dim vq).
  { rewrite (concat_length_uniform (e_dim vq)).
    - now rewrite gather_length, Hl.
    - apply gather_width; [now apply codebook_width|].
      now rewrite codebook_length, Hlen. }
  unfold get_codebook_entry. fold (codebook vq).
  unfold index_tensor. cbn [idata ishape]. rewrite Hg. cbn [bind].
  unfold reshape. cbn [data]. rewrite numel4, Hq, Nat.eqb_refl. cbn [bind].
  unfold quantized_map, permute_0312. cbn [shape].
  now rewrite (quantized_data_exact add_sub_exact).
Qed.

(** In evaluation mode and exact arithmetic, the reconstruction [forward]
    returns is the one [decode_code] computes from the indices, and the
    shapes of the maps, that [encode] returns for the same input; neither
    call changes the model. Without the feature heads and the
    disentanglement term, [forward] returns whenever [decode_code] does
    on these indices. *)
Theorem forward_decodes_codes (net : Layers F) (m : VQModel F) (x : Tensor F)
        (B C H W : nat) (z_vis z_mid z_high : Tensor F) :
  quantizers_ok m C -> eval_mode m ->
  heads_ready net x B C H W z_vis z_mid z_high ->
  exists q_vis q_mid q_high i_vis i_mid i_high,
    VQModel_encode net m x
    = Ok ((q_vis, q_mid, q_high,
           (None, None, i_vis), (None, None, i_mid), (None, None, i_high)), m) /\
    (forall r m',
       VQModel_forward net m x = Ok (r, m') ->
       m' = m /\
       VQModel_decode_code net m i_vis i_mid i_high
         (Some (shape q_vis)) (Some (shape q_mid)) (Some (shape q_high)) true
       = Ok (dec r)) /\
    (with_clip_supervision (config m) = false ->
     with_disentanglement (config m) = false ->
     forall d,
       VQModel_decode_code net m i_vis i_mid i_high
         (Some (shape q_vis)) (Some (shape q_mid)) (Some (shape q_high)) true
       = Ok d ->
       VQModel_forward net m x
       = Ok (mkVQModelOutput d (None, None, None, 0%Q) (None, None, None, 0%Q)
                             (None, None, None, 0%Q) zero None None, m)).
Proof.
  intros (Hc1 & Hc2 & Hc3 & He1 & He2 & He3) (Ht1 & Ht2 & Ht3)
         (h1 & h2 & h3 & Eenc & Ev & Em & Eh & Hs1 & Hs2 & Hs3).
  rewrite <- He1 in Hs1. rewrite <- He2 in Hs2. rewrite <- He3 in Hs3.
  destruct (eval_call _ _ B H W Hc1 Ht1 Hs1)
    as (o1 & E1 & El1 & Ei1 & Hq1 & Eq1 & Hi1 & Hl1 & Hr1).
  destruct (eval_call _ _ B H W Hc2 Ht2 Hs2)
    as (o2 & E2 & El2 & Ei2 & Hq2 & Eq2 & Hi2 & Hl2 & Hr2).
  destruct (eval_call _ _ B H W Hc3 Ht3 Hs3)
    as (o3 & E3 & El3 & Ei3 & Hq3 & Eq3 & Hi3 & Hl3 & Hr3).
  assert (L1 : get_codebook_entry (quantize_vis m) (min_encoding_indices o1)
                 (Some (shape (z_q o1))) true = Ok (z_q o1)).
  { rewrite Hq1. rewrite Eq1.
    rewrite <- (lookup_of_quantized _ z_vis B H W _ Hc1 Hl1 Hr1).
    f_equal. destruct (min_encoding_indices o1) as [sh dt].
    cbn [ishape idata] in *. now rewrite Hi1. }
  assert (L2 : get_codebook_entry (quantize_sem_mid m) (min_encoding_indices o2)
                 (Some (shape (z_q o2))) true = Ok (z_q o2)).
  { rewrite Hq2. rewrite Eq2.
    rewrite <- (lookup_of_quantized _ z_mid B H W _ Hc2 Hl2 Hr2).
    f_equal. destruct (min_encoding_indices o2) as [sh dt].
    cbn [ishape idata] in *. now rewrite Hi2. }
  assert (L3 : get_codebook_entry (quantize_sem_high m) (min_encoding_indices o3)
                 (Some (shape (z_q o3))) true = Ok (z_q o3)).
  { rewrite Hq3. rewrite Eq3.
    rewrite <- (lookup_of_quantized _ z_high B H W _ Hc3 Hl3 Hr3).
    f_equal. destruct (min_encoding_indices o3) as [sh dt].
    cbn [ishape idata] in *. now rewrite Hi3. }
  exists (z_q o1), (z_q o2), (z_q o3),
         (min_encoding_indices o1), (min_encoding_indices o2), (min_encoding_indices o3).
  assert (Edc : VQModel_decode_code net m (min_encoding_indices o1)
                  (min_encoding_indices o2) (min_encoding_indices o3)
                  (Some (shape (z_q o1))) (Some (shape (z_q o2)))
                  (Some (shape (z_q o3))) true
                = (quant <- cat_dim1 (z_q o1) (z_q o2) (z_q o3) ;;
                   VQModel_decode net quant)).
  { unfold VQModel_decode_code. rewrite L1, L2, L3. reflexivity. }
  rewrite Edc.
  assert (Efw : VQModel_forward net m x
                = (' (f1, f2) <-
                     (if with_clip_supervision (config m)
                      then
                        a <- mid_sem_feat_pred net (z_q o2) ;;
                        b <- high_sem_feat_pred net (z_q o3) ;;
                        Ok (Some a, Some b)
                      else Ok (None, None)) ;;
                   dl <-
                     (if with_disentanglement (config m)
                      then
                        l1 <- compute_disentangle_loss m (z_q o1) (z_q o2) ;;
                        l2 <- compute_disentangle_loss m (z_q o1) (z_q o3) ;;
                        l3 <- compute_disentangle_loss m (z_q o2) (z_q o3) ;;
                        Ok (div (add (add l1 l2) l3) (of_Z 3))
                      else Ok zero) ;;
                   quant <- cat_dim1 (z_q o1) (z_q o2) (z_q o3) ;;
                   d <- VQModel_decode net quant ;;
                   Ok (mkVQModelOutput d (None, None, None, 0%Q) (None, None, None, 0%Q)
                                       (None, None, None, 0%Q) dl f1 f2, m))).
  { unfold VQModel_forward. rewrite Eenc. cbn [bind]. rewrite Ev. cbn [bind].
    rewrite Em. cbn [bind]. rewrite Eh. cbn [bind].
    rewrite E1. cbn [bind]. rewrite E2. cbn [bind]. rewrite E3. cbn [bind].
    rewrite El1, El2, El3, set_quantizers_same. reflexivity. }
  split; [|split].
  - unfold VQModel_encode. rewrite Eenc. cbn [bind]. rewrite Ev. cbn [bind].
    rewrite Em. cbn [bind]. rewrite Eh. cbn [bind].
    rewrite E1. cbn [bind]. rewrite E2. cbn [bind]. rewrite E3. cbn [bind].
    now rewrite Ei1, Ei2, Ei3, set_quantizers_same.
  - intros r m' Er. rewrite Efw in Er.
    destruct (if with_clip_supervision (config m) then _ else _) as [[f1 f2]|e];
      cbn [bind] in Er; [|discriminate].
    destruct (if with_disentanglement (config m) then _ else _) as [dl|e];
      cbn [bind] in Er; [|discriminate].
    destruct (cat_dim1 _ _ _) as [quant|e]; cbn [bind] in Er |- *; [|discriminate].
    destruct (VQModel_decode net quant) as [d|e]; cbn [bind] in Er; [|discriminate].
    injection Er as <- <-. split; reflexivity.
  - intros Hclip Hdis d Ed. rewrite Efw, Hclip, Hdis. cbn [bind].
    destruct (cat_dim1 _ _ _) as [quant|e]; cbn [bind] in Ed |- *; [|discriminate].
    rewrite Ed. reflexivity.
Qed.
End Exact.
End ModelCalls.

Lemma forward_decodes_codes_witness :
  exists q_vis q_mid q_high i_vis i_mid i_high,
    VQModel_encode passthrough eval_model two_z
    = Ok ((q_vis, q_mid, q_high,
           (None, None, i_vis), (None, None, i_mid), (None, None, i_high)),
          eval_model) /\
    (forall r m',
       VQModel_forward passthrough eval_model two_z = Ok (r, m') ->
       m' = eval_model /\
       VQModel_decode_code passthrough eval_model i_vis i_mid i_high
         (Some (shape q_vis)) (Some (shape q_mid)) (Some (shape q_high)) true
       = Ok (dec r)) /\
    (with_clip_supervision (config eval_model) = false ->
     with_disentanglement (config eval_model) = false ->
     forall d,
       VQModel_decode_code passthrough eval_model i_vis i_mid i_high
         (Some (shape q_vis)) (Some (shape q_mid)) (Some (shape q_high)) true
       = Ok d ->
       VQModel_forward passthrough eval_model two_z
       = Ok (mkVQModelOutput d (None, None, None, 0%Q) (None, None, None, 0%Q)
                             (None, None, None, 0%Q) zero None None, eval_model)).
Proof.
  apply (forward_decodes_codes real_add_sub_exact passthrough eval_model two_z
           1 1 1 1 two_z two_z two_z).
  - split; [exact unit_vq_ok|split; [exact unit_vq_ok|split; [exact unit_vq_ok|]]].
    repeat split.
  - repeat split.
  - exists two_z, two_z, two_z. repeat split.
Defined.

Section ModelForward.
Local Open Scope R_scope.


End ModelForward.


(** ** The activation in exact arithmetic *)

Section Swish.
Local Open Scope R_scope.

Lemma sigmoid_range (x : R) :
  0 < sigmoid x < 1 /\ (0 <= x -> / 2 <= sigmoid x) /\ (x <= 0 -> sigmoid x <= / 2) /\
  sigmoid x <= Rtrigo_def.exp x.
Proof.
  unfold sigmoid. cbn [div add opp exp of_Z R_Scalar].
  pose proof (exp_pos (- x)) as He.
  assert (Hd : 0 < 1 + Rtrigo_def.exp (- x)) by lra.
  assert (Hi : 1 / (1 + Rtrigo_def.exp (- x)) * (1 + Rtrigo_def.exp (- x)) = 1)
    by (field; lra).
  set (s := 1 / (1 + Rtrigo_def.exp (- x))) in *.
  assert (Hs : 0 < s).
  { unfold s, Rdiv. rewrite Rmult_1_l. now apply Rinv_0_lt_compat. }
  repeat split.
  - exact Hs.
  - nra.
  - intros Hx.
    assert (Rtrigo_def.exp (- x) <= 1).
    { rewrite <- exp_0. destruct (Req_dec x 0) as [->|Hn]; [rewrite Ropp_0; lra|].
      left. apply exp_increasing. lra. }
    nra.
  - intros Hx.
    assert (1 <= Rtrigo_def.exp (- x)).
    { rewrite <- exp_0. destruct (Req_dec x 0) as [->|Hn]; [rewrite Ropp_0; lra|].
      left. apply exp_increasing. lra. }
    nra.
  - pose proof (exp_pos x) as Hx.
    assert (Hp : Rtrigo_def.exp x * Rtrigo_def.exp (- x) = 1).
    { rewrite <- exp_plus. replace (x + - x) with 0 by lra. apply exp_0. }
    nra.
Qed.

Lemma swish_range (x : R) :
  (0 <= x -> x / 2 <= x * sigmoid x <= x) /\
  (x <= 0 -> x / 2 <= x * sigmoid x <= 0) /\
  - Rtrigo_def.exp (- 1) <= x * sigmoid x.
Proof.
  destruct (sigmoid_range x) as ((H0 & H1) & Hpos & Hneg & Hexp).
  split; [|split].
  - intros Hx. specialize (Hpos Hx). nra.
  - intros Hx. specialize (Hneg Hx). nra.
  - destruct (Rle_lt_dec 0 x) as [Hx|Hx].
    + pose proof (exp_pos (- 1)). nra.
    + (* for x < 0: x * sigmoid x >= x * exp x >= - exp (-1) *)
      pose proof (exp_pos x) as Hex.
      assert (Ht : - x <= Rtrigo_def.exp (- x - 1)).
      { pose proof (exp_ineq1_le (- x - 1)). lra. }
      assert (Hm : Rtrigo_def.exp (- x - 1) * Rtrigo_def.exp x = Rtrigo_def.exp (- 1)).
      { rewrite <- exp_plus. f_equal. lra. }
      assert (- x * Rtrigo_def.exp x <= Rtrigo_def.exp (- 1)).
      { rewrite <- Hm. apply Rmult_le_compat_r; lra. }
      nra.
Qed.

(** In exact arithmetic [nonlinearity] keeps the shape and the sign of
    every element: an element [x >= 0] is sent into [[x/2, x]], an element
    [x <= 0] into [[x/2, 0]], and no element is sent below [- 1/e]. *)
Theorem nonlinearity_range (x : Tensor R) :
  shape (nonlinearity x) = shape x /\
  length (data (nonlinearity x)) = length (data x) /\
  forall i, (i < length (data x))%nat ->
    let v := nth i (data x) 0 in
    let y := nth i (data (nonlinearity x)) 0 in
    y = v * sigmoid v /\
    (0 <= v -> v / 2 <= y <= v) /\
    (v <= 0 -> v / 2 <= y <= 0) /\
    - Rtrigo_def.exp (- 1) <= y.
Proof.
  unfold nonlinearity. cbn [shape data]. split; [reflexivity|].
  split; [now rewrite map2_length; rewrite ?length_map|].
  intros i Hi.
  assert (Ey : nth i (map2 mul (data x) (map sigmoid (data x))) 0
               = nth i (data x) 0 * sigmoid (nth i (data x) 0)).
  { rewrite (map2_nth_seq _ _ _ 0 0) by now rewrite length_map.
    rewrite (nth_map_lt _ _ _ 0%nat) by now rewrite length_seq.
    rewrite seq_nth by assumption. cbn [Nat.add mul R_Scalar].
    now rewrite (nth_map_lt _ _ _ 0). }
  split; [exact Ey|]. rewrite Ey. apply swish_range.
Qed.
End Swish.


(** ** The attention block *)

Lemma nth_chunk {A : Type} (n m : nat) (l : list A) (p k : nat) (d : A) :
  length l = n * m -> p < n -> k < m ->
  nth k (nth p (chunk n m l) []) d = nth (p * m + k) l d.
Proof.
  intros Hl Hp Hk.
  rewrite <- (concat_chunk n m l Hl) at 2.
  rewrite (nth_concat_uniform m); try assumption.
  - reflexivity.
  - apply chunk_width. lia.
  - now rewrite chunk_length.
Qed.

Section AttnForward.
Context {F : Type} {SF : Scalar F}.
Variable T : Net.Torch (F := F).

Lemma numel3_4 (b c h w : nat) : numel [b; c; h * w] = numel [b; c; h; w].
Proof. cbn [numel fold_right]. lia. Qed.

Lemma numel3 (b c n : nat) : numel [b; c; n] = b * c * n.
Proof. cbn [numel fold_right]. lia. Qed.

(** With maps [q], [k], [v] of one shape, [AttnBlock.forward] hands the
    attended values to [proj_out] and adds the result to its input. *)
Lemma AttnBlock_forward_eq (self : Net.AttnBlock) (x hn q k v : Tensor F)
      (b c h w : nat) :
  Net.ab_norm self x = Ok hn -> Net.ab_q self hn = Ok q ->
  Net.ab_k self hn = Ok k -> Net.ab_v self hn = Ok v ->
  Net.has_shape q [b; c; h; w] -> Net.has_shape k [b; c; h; w] ->
  Net.has_shape v [b; c; h; w] -> 1 <= c ->
  Net.AttnBlock_forward T self x
  = (p <- Net.ab_proj_out self (Net.attended q k v b c h w) ;; Net.tensor_add T x p).
Proof.
  intros En Eq Ek Ev (Sq & Lq) (Sk & Lk) (Sv & Lv) Hc.
  unfold Net.AttnBlock_forward. rewrite En. cbn [bind]. rewrite Eq. cbn [bind].
  rewrite Ek. cbn [bind]. rewrite Ev. cbn [bind]. rewrite Sq.
  rewrite <- numel3_4 in Lq, Lk, Lv.
  unfold reshape at 1. rewrite Lq, Nat.eqb_refl. cbn [bind].
  unfold Net.permute_021 at 1. cbn [shape bind].
  unfold reshape at 1. rewrite Lk, Nat.eqb_refl. cbn [bind].
  unfold Net.bmm at 1. cbn [shape]. rewrite !Nat.eqb_refl. cbn [andb bind].
  unfold Net.rsqrt_int. destruct (c =? 0) eqn:Ec; [apply Nat.eqb_eq in Ec; lia|].
  cbn [bind].
  unfold Net.softmax_dim2. cbn [Net.scale_by shape bind].
  unfold reshape at 1. rewrite Lv, Nat.eqb_refl. cbn [bind].
  unfold Net.permute_021 at 1. cbn [shape bind].
  unfold Net.bmm at 1. cbn [shape]. rewrite !Nat.eqb_refl. cbn [andb bind].
  unfold reshape at 1. cbn [data]. rewrite tabulate3_length, <- numel3, numel3_4.
  rewrite Nat.eqb_refl. cbn [bind]. reflexivity.
Qed.
End AttnForward.

Section Attention.
Local Open Scope R_scope.

Lemma get3_mk (sh1 sh2 sh3 : nat) (l : list R) (i j k : nat) :
  Net.get3 (mkTensor [sh1; sh2; sh3] l) i j k = nth ((i * sh2 + j) * sh3 + k)%nat l 0.
Proof. reflexivity. Qed.

(** The attended value at a position is the mean of the values at all
    positions, weighted by the softmax of the scores of the position. *)
Lemma attended_at (q k v : Tensor R) (b c h w i ch y x' : nat) :
  (i < b)%nat -> (ch < c)%nat -> (y < h)%nat -> (x' < w)%nat ->
  let n := (h * w)%nat in
  let j := (y * w + x')%nat in
  (forall l, (l < n)%nat -> 0 < Net.attention_weight q k c n i j l) /\
  sum (map (Net.attention_weight q k c n i j) (seq 0 n)) = 1 /\
  get4 (Net.attended q k v b c h w) i ch y x'
  = sum (map (fun l => Net.at_position v c n i ch l * Net.attention_weight q k c n i j l)
             (seq 0 n)).
Proof.
  intros Hi Hch Hy Hx n j.
  assert (Hj : (j < n)%nat) by (apply index_bound; assumption).
  assert (Hn : (0 < n)%nat) by lia.
  set (s := (div (of_Z 1) (sqrt (of_Z (Z.of_nat c))) : R)).
  (* the scaled scores, as the softmax sees them *)
  set (scores :=
         map (fun x => mul x s)
             (tabulate3 b n n (fun i r c' =>
                sum (map (fun l => mul (Net.get3
                                          (mkTensor [b; n; c]
                                             (tabulate3 b n c (fun i j k =>
                                                Net.get3 (mkTensor [b; c; n] (data q)) i k j)))
                                          i r l)
                                       (Net.get3 (mkTensor [b; c; n] (data k)) i l c'))
                         (seq 0 c))))).
  assert (Ls : length scores = (b * n * n)%nat).
  { unfold scores. now rewrite length_map, tabulate3_length. }
  set (row := nth (i * n + j) (chunk (b * n) n scores) []).
  assert (Hp : (i * n + j < b * n)%nat) by (apply index_bound; assumption).
  assert (Lrow : length row = n).
  { unfold row. pose proof (chunk_width (b * n) n scores Ls) as Hw.
    rewrite Forall_forall in Hw. apply Hw, nth_In. now rewrite chunk_length. }
  assert (Hrow : forall l, (l < n)%nat -> nth l row 0 = Net.score q k c n i j l).
  { intros l Hl. unfold row. rewrite (nth_chunk (b * n) n) by assumption.
    unfold scores. rewrite (nth_map_lt _ _ _ 0).
    2:{ rewrite tabulate3_length. apply index_bound; assumption. }
    rewrite nth_tabulate3 by assumption.
    unfold Net.score. fold s. f_equal. apply Rsum_map_ext. intros cc Hcc.
    apply in_seq in Hcc. rewrite !get3_mk.
    rewrite nth_tabulate3 by (assumption || lia). rewrite get3_mk.
    reflexivity. }
  assert (Hsum : sum (map exp row)
                 = sum (map (fun l' => exp (Net.score q k c n i j l')) (seq 0 n))).
  { rewrite <- (map_nth_seq_all row 0) at 1. rewrite Lrow, map_map.
    apply Rsum_map_ext. intros l Hl. apply in_seq in Hl. now rewrite Hrow by lia. }
  assert (Hw : forall l, (l < n)%nat ->
             Net.attention_weight q k c n i j l = nth l (softmax row) 0).
  { intros l Hl. rewrite nth_softmax by now rewrite Lrow.
    unfold Net.attention_weight. rewrite Hrow, Hsum by assumption. reflexivity. }
  split; [|split].
  - intros l Hl. rewrite Hw by assumption. apply softmax_pos. now rewrite Lrow.
  - rewrite (Rsum_map_ext _ (fun l => nth l (softmax row) 0)).
    + now apply softmax_seq_sum.
    + intros l Hl. apply in_seq in Hl. apply Hw. lia.
  - unfold Net.attended. cbv zeta. fold n. unfold get4. cbn [shape data].
    replace (((i * c + ch) * h + y) * w + x')%nat with ((i * c + ch) * n + j)%nat
      by (unfold n, j; lia).
    rewrite nth_tabulate3 by assumption.
    apply Rsum_map_ext. intros l Hl. apply in_seq in Hl.
    rewrite !get3_mk. f_equal.
    rewrite nth_tabulate3 by (assumption || lia). rewrite get3_mk.
    rewrite Hw by lia. cbn [Net.scale_by data]. fold s. fold scores.
    rewrite (nth_concat_uniform n).
    + rewrite (nth_map_lt softmax _ _ []) by now rewrite chunk_length.
      reflexivity.
    + apply Forall_map. pose proof (chunk_width (b * n) n scores Ls) as Hcw.
      eapply Forall_impl; [|exact Hcw]. intros r Hr. cbv beta.
      now rewrite softmax_length.
    + now rewrite length_map, chunk_length.
    + lia.
Qed.

Lemma weighted_mean_range (vs ws : nat -> R) (n : nat) (lo hi : R) :
  (forall l, (l < n)%nat -> 0 < ws l) -> sum (map ws (seq 0 n)) = 1 ->
  (forall l, (l < n)%nat -> lo <= vs l <= hi) ->
  lo <= sum (map (fun l => vs l * ws l) (seq 0 n)) <= hi.
Proof.
  intros Hpos Hone Hv.
  assert (Hlo : sum (map (fun l => lo * ws l) (seq 0 n))
                <= sum (map (fun l => vs l * ws l) (seq 0 n))).
  { apply Rsum_map_le. intros l Hl. apply in_seq in Hl.
    apply Rmult_le_compat_r; [left; apply Hpos; lia|apply Hv; lia]. }
  assert (Hhi : sum (map (fun l => vs l * ws l) (seq 0 n))
                <= sum (map (fun l => hi * ws l) (seq 0 n))).
  { apply Rsum_map_le. intros l Hl. apply in_seq in Hl.
    apply Rmult_le_compat_r; [left; apply Hpos; lia|apply Hv; lia]. }
  rewrite Rsum_map_scale, Hone in Hlo, Hhi. lra.
Qed.

(** In exact arithmetic, when the layers [q], [k], [v] of an attention
    block give maps of one shape (b, c, h, w) with [c >= 1],
    [AttnBlock.forward] returns [x + proj_out(a)] where the value of [a]
    at channel [ch] and position [j] is the mean of the values of [v] at
    channel [ch] over all positions [l], weighted by the softmax over [l]
    of the scores [q_j . k_l / sqrt c]: the weights are positive and sum
    to 1, so every attended value lies between the least and the largest
    value of its channel. *)
Theorem attention_is_weighted_mean (T : Net.Torch (F := R)) (self : Net.AttnBlock)
        (x hn q k v : Tensor R) (b c h w : nat) :
  Net.ab_norm self x = Ok hn -> Net.ab_q self hn = Ok q ->
  Net.ab_k self hn = Ok k -> Net.ab_v self hn = Ok v ->
  Net.has_shape q [b; c; h; w] -> Net.has_shape k [b; c; h; w] ->
  Net.has_shape v [b; c; h; w] -> (1 <= c)%nat ->
  exists a,
    Net.has_shape a [b; c; h; w] /\
    Net.AttnBlock_forward T self x
    = (p <- Net.ab_proj_out self a ;; Net.tensor_add T x p) /\
    forall i ch y x', (i < b)%nat -> (ch < c)%nat -> (y < h)%nat -> (x' < w)%nat ->
      let n := (h * w)%nat in
      let j := (y * w + x')%nat in
      (forall l, (l < n)%nat -> 0 < Net.attention_weight q k c n i j l) /\
      sum (map (Net.attention_weight q k c n i j) (seq 0 n)) = 1 /\
      get4 a i ch y x'
      = sum (map (fun l => Net.at_position v c n i ch l
                           * Net.attention_weight q k c n i j l) (seq 0 n)) /\
      forall lo hi,
        (forall l, (l < n)%nat -> lo <= Net.at_position v c n i ch l <= hi) ->
        lo <= get4 a i ch y x' <= hi.
Proof.
  intros En Eq Ek Ev Hq Hk Hv Hc.
  exists (Net.attended q k v b c h w). split; [|split].
  - split; [reflexivity|]. unfold Net.attended. cbn [data].
    rewrite tabulate3_length, <- numel3. apply numel3_4.
  - now apply AttnBlock_forward_eq with (hn := hn).
  - intros i ch y x' Hi Hch Hy Hx n j.
    destruct (attended_at q k v b c h w i ch y x' Hi Hch Hy Hx) as (Hpos & Hone & Hval).
    fold n j in Hpos, Hone, Hval.
    split; [exact Hpos|]. split; [exact Hone|]. split; [exact Hval|].
    intros lo hi Hrange. rewrite Hval.
    now apply weighted_mean_range.
Qed.
End Attention.

Lemma attention_is_weighted_mean_witness :
  exists a,
    Net.has_shape a [1; 1; 1; 2] /\
    Net.AttnBlock_forward plain_torch plain_attn demo_z
    = (p <- Net.ab_proj_out plain_attn a ;; Net.tensor_add plain_torch demo_z p) /\
    forall i ch y x', i < 1 -> ch < 1 -> y < 1 -> x' < 2 ->
      let n := 1 * 2 in
      let j := y * 2 + x' in
      (forall l, l < n -> (0 < Net.attention_weight demo_z demo_z 1 n i j l)%R) /\
      sum (map (Net.attention_weight demo_z demo_z 1 n i j) (seq 0 n)) = 1%R /\
      get4 a i ch y x'
      = sum (map (fun l => (Net.at_position demo_z 1 n i ch l
                            * Net.attention_weight demo_z demo_z 1 n i j l)%R)
                 (seq 0 n)) /\
      forall lo hi,
        (forall l, l < n -> (lo <= Net.at_position demo_z 1 n i ch l <= hi)%R) ->
        (lo <= get4 a i ch y x' <= hi)%R.
Proof.
  apply (attention_is_weighted_mean plain_torch plain_attn demo_z demo_z demo_z demo_z
           demo_z 1 1 1 2); try reflexivity; split; reflexivity.
Defined.

(** ** The shapes in the network *)

(** One layer of a chain: the layer returns, with the shape it maps to. *)
Ltac layer H t' E Ht' :=
  let X := fresh in
  pose proof H as X; unfold Net.maps in X;
  match goal with
  | Hs : Net.has_shape ?t _ |- context [?f ?t] =>
      destruct (X t Hs) as (t' & E & Ht'); rewrite E; cbn [bind]; clear X
  end.

Section LayerShapes.
Context {F : Type} {SF : Scalar F}.
Variable T : Net.Torch (F := F).
Hypothesis HT : Net.TorchShapes T.

Lemma has_shape_nonlinearity (t : Tensor F) (sh : list nat) :
  Net.has_shape t sh -> Net.has_shape (nonlinearity t) sh.
Proof.
  intros (Hs & Hl). split; [exact Hs|]. unfold nonlinearity. cbn [data].
  rewrite map2_length by now rewrite length_map. exact Hl.
Qed.

Lemma maps_nonlinearity (f : Net.NNModule) (sh sh' : list nat) :
  Net.maps f sh sh' -> Net.maps (fun t => f (nonlinearity t)) sh sh'.
Proof. intros H t Ht. apply H. now apply has_shape_nonlinearity. Qed.

Lemma conv3_same (cin cout b h w : nat) :
  1 <= b -> 1 <= cin -> 1 <= cout -> 1 <= h -> 1 <= w ->
  Net.maps (Net.Conv2d T cin cout 3 1 1) [b; cin; h; w] [b; cout; h; w].
Proof.
  intros Hb Hi Ho Hh Hw.
  pose proof (Net.conv_shape T HT cin cout 3 1 1 b h w Hb Hi Ho) as H.
  replace ((h + 2 * 1 - 3) / 1 + 1) with h in H by (rewrite Nat.div_1_r; lia).
  replace ((w + 2 * 1 - 3) / 1 + 1) with w in H by (rewrite Nat.div_1_r; lia).
  apply H; lia.
Qed.

Lemma conv1_same (cin cout b h w : nat) :
  1 <= b -> 1 <= cin -> 1 <= cout -> 1 <= h -> 1 <= w ->
  Net.maps (Net.Conv2d T cin cout 1 1 0) [b; cin; h; w] [b; cout; h; w].
Proof.
  intros Hb Hi Ho Hh Hw.
  pose proof (Net.conv_shape T HT cin cout 1 1 0 b h w Hb Hi Ho) as H.
  replace ((h + 2 * 0 - 1) / 1 + 1) with h in H by (rewrite Nat.div_1_r; lia).
  replace ((w + 2 * 0 - 1) / 1 + 1) with w in H by (rewrite Nat.div_1_r; lia).
  apply H; lia.
Qed.

Lemma channels_ok_pos (c : nat) : Net.channels_ok c -> 1 <= c.
Proof.
  intros (_ & H). destruct c; [|lia]. cbn in H. lia.
Qed.

Lemma Normalize_shape (c : nat) :
  Net.channels_ok c ->
  exists f, Net.Normalize T c Net.group = Ok f /\
            forall b h w, 1 <= b -> 1 <= h -> 1 <= w ->
                          Net.maps f [b; c; h; w] [b; c; h; w].
Proof.
  intros (Hm & Hq).
  destruct (Net.group_norm_shape T HT 32 c) as (f & E & Hf); [lia|exact Hm|].
  exists f. split; [exact E|]. intros b h w Hb Hh Hw. now apply Hf.
Qed.

Lemma ResnetBlock_shape (cin cout : nat) (p : F) :
  Net.dropout_ok p -> Net.channels_ok cin -> Net.channels_ok cout ->
  exists r,
    Net.ResnetBlock_init T cin (Some cout) false p Net.group = Ok r /\
    forall b h w, 1 <= b -> 1 <= h -> 1 <= w ->
      Net.maps (Net.ResnetBlock_forward T r) [b; cin; h; w] [b; cout; h; w].
Proof.
  intros (Hp0 & Hp1) Hci Hco.
  pose proof (channels_ok_pos _ Hci) as Hi. pose proof (channels_ok_pos _ Hco) as Ho.
  destruct (Normalize_shape cin Hci) as (n1 & En1 & Hn1).
  destruct (Normalize_shape cout Hco) as (n2 & En2 & Hn2).
  destruct (Net.dropout_shape T HT p Hp0 Hp1) as (dr & Edr & Hdr).
  unfold Net.ResnetBlock_init. rewrite En1. cbn [bind]. rewrite En2. cbn [bind].
  rewrite Edr. cbn [bind]. eexists. split; [reflexivity|].
  intros b h w Hb Hh Hw x Hx. unfold Net.ResnetBlock_forward.
  cbn [Net.rb_norm1 Net.rb_conv1 Net.rb_norm2 Net.rb_dropout Net.rb_conv2
       Net.rb_in_channels Net.rb_out_channels Net.rb_use_conv_shortcut
       Net.rb_conv_shortcut Net.rb_nin_shortcut].
  destruct (Hn1 b h w Hb Hh Hw x Hx) as (h1 & E1 & H1). rewrite E1. cbn [bind].
  apply has_shape_nonlinearity in H1.
  destruct (conv3_same cin cout b h w Hb Hi Ho Hh Hw _ H1) as (h2 & E2 & H2).
  rewrite E2. cbn [bind].
  destruct (Hn2 b h w Hb Hh Hw h2 H2) as (h3 & E3 & H3). rewrite E3. cbn [bind].
  apply has_shape_nonlinearity in H3.
  destruct (Hdr _ _ H3) as (h4 & E4 & H4). rewrite E4. cbn [bind].
  destruct (conv3_same cout cout b h w Hb Ho Ho Hh Hw _ H4) as (h5 & E5 & H5).
  rewrite E5. cbn [bind].
  destruct (cin =? cout) eqn:Ec; cbn [negb andb Net.call bind].
  - apply Nat.eqb_eq in Ec. subst cout.
    exact (Net.add_same T HT x h5 _ Hx H5).
  - destruct (conv1_same cin cout b h w Hb Hi Ho Hh Hw _ Hx) as (x1 & E6 & H6).
    rewrite E6. cbn [bind]. exact (Net.add_same T HT x1 h5 _ H6 H5).
Qed.

Lemma has_shape_attended (q k v : Tensor F) (b c h w : nat) :
  Net.has_shape (Net.attended q k v b c h w) [b; c; h; w].
Proof.
  split; [reflexivity|]. unfold Net.attended. cbn [data].
  rewrite tabulate3_length. cbn [numel fold_right]. lia.
Qed.

Lemma AttnBlock_shape (c : nat) :
  Net.channels_ok c ->
  exists a,
    Net.AttnBlock_init T c Net.group = Ok a /\
    forall b h w, 1 <= b -> 1 <= h -> 1 <= w ->
      Net.maps (Net.AttnBlock_forward T a) [b; c; h; w] [b; c; h; w].
Proof.
  intros Hc. pose proof (channels_ok_pos _ Hc) as Hpos.
  destruct (Normalize_shape c Hc) as (n1 & En1 & Hn1).
  unfold Net.AttnBlock_init. rewrite En1. cbn [bind]. eexists. split; [reflexivity|].
  intros b h w Hb Hh Hw x Hx.
  destruct (Hn1 b h w Hb Hh Hw x Hx) as (hn & E1 & H1).
  destruct (conv1_same c c b h w Hb Hpos Hpos Hh Hw _ H1) as (q & Eq & Hq).
  rewrite (AttnBlock_forward_eq T _ x hn q q q b c h w); try assumption.
  cbn [Net.ab_proj_out].
  destruct (conv1_same c c b h w Hb Hpos Hpos Hh Hw _
              (has_shape_attended q q q b c h w)) as (p & Ep & Hp).
  rewrite Ep. cbn [bind]. exact (Net.add_same T HT x p _ Hx Hp).
Qed.

Lemma Upsample_shape (c b h w : nat) :
  1 <= b -> 1 <= c -> 1 <= h -> 1 <= w ->
  Net.maps (Net.Upsample_forward T (Net.Upsample_init T c true))
           [b; c; h; w] [b; c; 2 * h; 2 * w].
Proof.
  intros Hb Hc Hh Hw x Hx. unfold Net.Upsample_forward, Net.Upsample_init.
  cbn [Net.us_with_conv Net.us_conv Net.call].
  destruct (Net.interpolate_shape T HT b c h w Hh Hw x Hx) as (x1 & E1 & H1).
  rewrite E1. cbn [bind]. apply (conv3_same c c b (2 * h) (2 * w)); try assumption; lia.
Qed.

Lemma Downsample_shape (c b h w : nat) :
  1 <= b -> 1 <= c -> 2 <= h -> 2 <= w ->
  Net.maps (Net.Downsample_forward T (Net.Downsample_init T c true))
           [b; c; h; w] [b; c; h / 2; w / 2].
Proof.
  intros Hb Hc Hh Hw x Hx. unfold Net.Downsample_forward, Net.Downsample_init.
  cbn [Net.ds_with_conv Net.ds_conv Net.call].
  destruct (Net.pad_shape T HT b c h w x Hx) as (x1 & E1 & H1).
  rewrite E1. cbn [bind].
  pose proof (Net.conv_shape T HT c c 3 2 0 b (h + 1) (w + 1) Hb Hc Hc) as H.
  assert (Hhalf : forall n, 2 <= n -> (n + 1 + 2 * 0 - 3) / 2 + 1 = n / 2).
  { intros n Hn. replace (n + 1 + 2 * 0 - 3) with (n - 2) by lia.
    replace n with (n - 2 + 1 * 2) at 2 by lia.
    rewrite Nat.div_add by lia. reflexivity. }
  rewrite !Hhalf in H by assumption. apply H; try lia. exact H1.
Qed.

Lemma has_shape_scale_by (t : Tensor F) (s : F) (sh : list nat) :
  Net.has_shape t sh -> Net.has_shape (Net.scale_by t s) sh.
Proof.
  intros (Hs & Hl). split; [exact Hs|]. unfold Net.scale_by. cbn [data].
  now rewrite length_map.
Qed.

Lemma permute_102_shape (n b m : nat) :
  Net.maps Net.permute_102 [n; b; m] [b; n; m].
Proof.
  intros t (Hs & Hl). unfold Net.permute_102. rewrite Hs. eexists.
  split; [reflexivity|]. split; [reflexivity|]. cbn [data].
  rewrite tabulate3_length. cbn [numel fold_right]. lia.
Qed.

Lemma rearrange_bchw_b_hw_c_shape (b c h w : nat) :
  Net.maps Net.rearrange_bchw_b_hw_c [b; c; h; w] [b; h * w; c].
Proof.
  intros t (Hs & Hl). unfold Net.rearrange_bchw_b_hw_c. rewrite Hs. eexists.
  split; [reflexivity|]. split; [reflexivity|]. cbn [data].
  rewrite tabulate4_length. cbn [numel fold_right]. lia.
Qed.

(** [rearrange(x, 'b (h w) c -> b c h w', h=h')] with [l = h' * w']. *)
Lemma rearrange_b_hw_c_bchw_shape (b h' w' c : nat) :
  1 <= h' ->
  Net.maps (fun t => Net.rearrange_b_hw_c_bchw t h') [b; h' * w'; c] [b; c; h'; w'].
Proof.
  intros Hh t (Hs & Hl). unfold Net.rearrange_b_hw_c_bchw. rewrite Hs.
  destruct (h' =? 0) eqn:E0; [apply Nat.eqb_eq in E0; lia|].
  replace ((h' * w') mod h') with 0
    by (rewrite Nat.mul_comm; symmetry; apply Nat.Div0.mod_mul).
  replace (h' * w' / h') with w' by (rewrite Nat.mul_comm, Nat.div_mul; lia).
  cbn [Nat.eqb negb orb].
  unfold permute_0312. cbn [shape]. eexists. split; [reflexivity|].
  split; [reflexivity|]. cbn [data]. rewrite tabulate4_length.
  cbn [numel fold_right]. lia.
Qed.

Lemma ResidualAttentionBlock_shape (d : nat) :
  1 <= d -> d mod 8 = 0 ->
  exists r,
    Net.ResidualAttentionBlock_init T d 8 (4 # 1) = Ok r /\
    forall l b, 1 <= l -> 1 <= b ->
      Net.maps (Net.ResidualAttentionBlock_forward T r) [l; b; d] [l; b; d].
Proof.
  intros Hd Hm.
  destruct (Net.attention_shape T HT d 8) as (att & Ea & Ha); [lia|exact Hd|exact Hm|].
  unfold Net.ResidualAttentionBlock_init. rewrite Ea. cbn [bind].
  destruct (Qlt_le_dec 0 (4 # 1)) as [Hlt|Hle];
    [|exfalso; unfold Qle in Hle; simpl in Hle; lia].
  eexists. split; [reflexivity|].
  intros l b Hl Hb x Hx. unfold Net.ResidualAttentionBlock_forward.
  cbn [Net.rab_ln_1 Net.rab_attn Net.rab_mlp_ratio Net.rab_ln_2 Net.rab_c_fc
       Net.rab_c_proj Net.call].
  destruct (Net.layer_norm_shape T HT d [l; b] x Hx) as (h1 & E1 & H1).
  rewrite E1. cbn [bind app] in *.
  destruct (Ha l b Hl Hb h1 H1) as (h2 & E2 & H2). rewrite E2. cbn [bind].
  destruct (Net.add_same T HT x h2 _ Hx H2) as (x1 & E3 & H3). rewrite E3. cbn [bind].
  destruct (Qlt_le_dec 0 (4 # 1)) as [_|Hle];
    [|exfalso; unfold Qle in Hle; simpl in Hle; lia].
  destruct (Net.layer_norm_shape T HT d [l; b] x1 H3) as (h4 & E4 & H4).
  rewrite E4. cbn [bind app] in *.
  destruct (Net.linear_shape T HT d
              (Z.to_nat (Z.of_nat d * Qnum (4 # 1) / Z.pos (Qden (4 # 1)))) [l; b] h4 H4)
    as (h5 & E5 & H5).
  rewrite E5. cbn [bind].
  destruct (Net.gelu_shape T HT _ h5 H5) as (h6 & E6 & H6). rewrite E6. cbn [bind].
  destruct (Net.linear_shape T HT _ d [l; b] h6 H6) as (h7 & E7 & H7).
  rewrite E7. cbn [bind app] in *.
  exact (Net.add_same T HT x1 h7 _ H3 H7).
Qed.

Lemma build_layers_repeat {A : Type} (n : nat) (a : A) :
  Net.build_layers n (Ok a) = Ok (repeat a n).
Proof. induction n as [|n IH]; [reflexivity|]. cbn [Net.build_layers bind]. now rewrite IH. Qed.

Lemma transformer_loop_shape (r : Net.ResidualAttentionBlock) (n : nat)
      (indices : list nat) (sh : list nat) :
  Net.maps (Net.ResidualAttentionBlock_forward T r) sh sh ->
  Forall (fun i => i < n) indices ->
  Net.maps (Net.transformer_loop T (repeat r n) indices) sh sh.
Proof.
  intros Hr Hi. induction Hi as [|i indices Hlt _ IH]; intros x Hx.
  - exists x. split; [reflexivity|exact Hx].
  - cbn [Net.transformer_loop].
    assert (E : nth_error (repeat r n) i = Some r).
    { rewrite nth_error_repeat by assumption. reflexivity. }
    rewrite E. destruct (Hr x Hx) as (x1 & E1 & H1). rewrite E1. cbn [bind].
    now apply IH.
Qed.

Lemma seq_below (n : nat) : Forall (fun i => i < n) (seq 0 n).
Proof. apply Forall_forall. intros i Hi. apply in_seq in Hi. lia. Qed.

(** [FactorizedAdapter.__init__] builds for a factor other than 0;
    [forward] takes a map of 512 channels with as many positions as the
    grid has and returns it with its two last sizes exchanged: the width
    of the input is taken for the height of the output. *)
Lemma FactorizedAdapter_shape (down_factor : nat) :
  down_factor <> 0 ->
  exists fa,
    Net.FactorizedAdapter_init T down_factor = Ok fa /\
    Net.fa_grid_size fa = 256 / down_factor /\
    forall b h w, 1 <= b -> 1 <= w ->
      h * w = (256 / down_factor) * (256 / down_factor) -> 1 <= h * w ->
      Net.maps (Net.FactorizedAdapter_forward T fa) [b; 512; h; w] [b; 512; w; h].
Proof.
  intros Hdf.
  destruct (ResidualAttentionBlock_shape 512) as (r & Er & Hr); [lia|reflexivity|].
  unfold Net.FactorizedAdapter_init, Net.grid_of.
  destruct (down_factor =? 0) eqn:E0; [apply Nat.eqb_eq in E0; congruence|].
  cbn [bind]. unfold Net.rsqrt_int.
  change (512 =? 0) with false. cbn [bind]. rewrite Er, build_layers_repeat.
  cbn [bind]. eexists. split; [reflexivity|]. split; [reflexivity|].
  set (g := 256 / down_factor).
  intros b h w Hb Hw Hg Hpos x Hx. unfold Net.FactorizedAdapter_forward.
  cbn [Net.fa_positional_embedding Net.fa_ln_pre Net.fa_transformer
       Net.fa_num_layers Net.fa_ln_post].
  rewrite (proj1 Hx). cbn [rev app].
  destruct (rearrange_bchw_b_hw_c_shape b 512 h w x Hx) as (x1 & E1 & H1).
  rewrite E1. cbn [bind].
  assert (Hpe : Net.has_shape
                  (Net.scale_by (Net.randn T [g * g; 512])
                                (div (of_Z 1) (sqrt (of_Z (Z.of_nat 512)))))
                  [h * w; 512]).
  { rewrite Hg. apply has_shape_scale_by, (Net.randn_shape T HT). }
  destruct (Net.add_batch T HT x1 _ b [h * w; 512] H1 Hpe) as (x2 & E2 & H2).
  rewrite E2. cbn [bind].
  destruct (Net.layer_norm_shape T HT 512 [b; h * w] x2 H2) as (x3 & E3 & H3).
  rewrite E3. cbn [bind app] in *.
  destruct (permute_102_shape b (h * w) 512 x3 H3) as (x4 & E4 & H4).
  rewrite E4. cbn [bind].
  destruct (transformer_loop_shape r 6 (seq 0 6) [h * w; b; 512]
              (Hr (h * w) b Hpos Hb) (seq_below 6) x4 H4) as (x5 & E5 & H5).
  rewrite E5. cbn [bind].
  destruct (permute_102_shape (h * w) b 512 x5 H5) as (x6 & E6 & H6).
  rewrite E6. cbn [bind].
  destruct (Net.layer_norm_shape T HT 512 [b; h * w] x6 H6) as (x7 & E7 & H7).
  rewrite E7. cbn [bind app] in *.
  rewrite (Nat.mul_comm h w) in H7.
  exact (rearrange_b_hw_c_bchw_shape b w h 512 Hw x7 H7).
Qed.
End LayerShapes.

(** ** The levels of encoder and decoder *)

Lemma is_last_spec (i n : nat) : Net.is_last i n = (S i =? n).
Proof.
  unfold Net.is_last. destruct (S i =? n) eqn:E.
  - apply Nat.eqb_eq in E. apply Z.eqb_eq. lia.
  - apply Nat.eqb_neq in E. apply Z.eqb_neq. lia.
Qed.

Lemma channels_128 (m : nat) : 1 <= m -> Net.channels_ok (128 * m).
Proof.
  intros Hm. split.
  - replace (128 * m) with (4 * m * 32) by lia. apply Nat.Div0.mod_mul.
  - replace (128 * m) with (4 * m * 32) by lia. rewrite Nat.div_mul by lia. lia.
Qed.

Section Levels.
Context {F : Type} {SF : Scalar F}.
Variable T : Net.Torch (F := F).
Hypothesis HT : Net.TorchShapes T.
Variable p : F.
Hypothesis Hp : Net.dropout_ok p.

Section OneLevel.
Variables (cin cout : nat).
Variables (r1 r2 : Net.ResnetBlock (F := F)) (a : Net.AttnBlock (F := F)).
Hypothesis Er1 : Net.ResnetBlock_init T cin (Some cout) false p Net.group = Ok r1.
Hypothesis Er2 : Net.ResnetBlock_init T cout (Some cout) false p Net.group = Ok r2.
Hypothesis Ea : Net.AttnBlock_init T cout Net.group = Ok a.

Lemma build_more (last_level : bool) (k s : nat) (res : list Net.ResnetBlock)
      (attn : list Net.AttnBlock) :
  Net.foldM (fun '(block_in, res_block, attn_block) _ =>
               r <- Net.ResnetBlock_init T block_in (Some cout) false p Net.group ;;
               let block_in := cout in
               if last_level
               then
                 a <- Net.AttnBlock_init T block_in Net.group ;;
                 Ok (block_in, res_block ++ [r], attn_block ++ [a])
               else Ok (block_in, res_block ++ [r], attn_block))
            (seq s k) (cout, res, attn)
  = Ok (cout, res ++ repeat r2 k,
        if last_level then attn ++ repeat a k else attn).
Proof.
  destruct last_level; cbv beta iota zeta; rewrite ?Ea; cbn [bind];
    revert s res attn; induction k as [|k IH]; intros s res attn;
    cbn [seq Net.foldM repeat]; rewrite ?app_nil_r; try reflexivity;
    rewrite Er2; cbn [bind]; rewrite IH, <- !app_assoc; reflexivity.
Qed.

Lemma build_level_eq (last_level : bool) (k : nat) :
  Net.build_level T cin cout (S k) last_level p Net.group
  = Ok (cout, r1 :: repeat r2 k, if last_level then a :: repeat a k else []).
Proof.
  unfold Net.build_level. cbn [seq Net.foldM]. rewrite Er1. cbn [bind].
  destruct last_level.
  - pose proof (build_more true k 1 [r1] [a]) as H.
    cbv beta iota zeta in H |- *. rewrite ?Ea in H |- *. cbn [bind app] in H |- *.
    exact H.
  - pose proof (build_more false k 1 [r1] []) as H.
    cbv beta iota zeta in H |- *. cbn [bind app] in H |- *. exact H.
Qed.

Hypothesis Hr1 : forall b h w, 1 <= b -> 1 <= h -> 1 <= w ->
  Net.maps (Net.ResnetBlock_forward T r1) [b; cin; h; w] [b; cout; h; w].
Hypothesis Hr2 : forall b h w, 1 <= b -> 1 <= h -> 1 <= w ->
  Net.maps (Net.ResnetBlock_forward T r2) [b; cout; h; w] [b; cout; h; w].
Hypothesis Ha : forall b h w, 1 <= b -> 1 <= h -> 1 <= w ->
  Net.maps (Net.AttnBlock_forward T a) [b; cout; h; w] [b; cout; h; w].

Lemma run_more (last_level : bool) (n k s b h w : nat) :
  1 <= b -> 1 <= h -> 1 <= w -> 1 <= s -> s + k <= S n ->
  Net.maps
    (Net.foldM (fun h i_block =>
                  r <- Net.item (r1 :: repeat r2 n) i_block ;;
                  h <- Net.ResnetBlock_forward T r h ;;
                  if 0 <? length (if last_level then a :: repeat a n else [])
                  then
                    a <- Net.item (if last_level then a :: repeat a n else []) i_block ;;
                    Net.AttnBlock_forward T a h
                  else Ok h)
               (seq s k))
    [b; cout; h; w] [b; cout; h; w].
Proof.
  intros Hb Hh Hw. revert s. induction k as [|k IH]; intros s Hs Hk x Hx.
  - exists x. split; [reflexivity|exact Hx].
  - cbn [seq Net.foldM]. destruct s as [|s]; [lia|].
    unfold Net.item at 1. cbn [nth_error].
    rewrite nth_error_repeat by lia. cbn [bind].
    destruct (Hr2 b h w Hb Hh Hw x Hx) as (x1 & E1 & H1). rewrite E1. cbn [bind].
    destruct last_level.
    + cbn [length Nat.ltb Nat.leb]. unfold Net.item at 1. cbn [nth_error].
      rewrite nth_error_repeat by lia. cbn [bind].
      destruct (Ha b h w Hb Hh Hw x1 H1) as (x2 & E2 & H2). rewrite E2. cbn [bind].
      apply IH; [lia|lia|exact H2].
    + cbn [length Nat.ltb Nat.leb]. apply IH; [lia|lia|exact H1].
Qed.

Lemma run_level_shape (last_level : bool) (ds : option (Net.Downsample (F := F)))
      (us : option (Net.Upsample (F := F))) (n b h w : nat) :
  1 <= b -> 1 <= h -> 1 <= w ->
  Net.maps (Net.run_level T
              (Net.mkConvBlock (r1 :: repeat r2 n)
                               (if last_level then a :: repeat a n else []) ds us)
              (S n))
           [b; cin; h; w] [b; cout; h; w].
Proof.
  intros Hb Hh Hw x Hx. unfold Net.run_level. cbn [Net.cb_res Net.cb_attn].
  cbn [seq Net.foldM]. unfold Net.item at 1. cbn [nth_error bind].
  destruct (Hr1 b h w Hb Hh Hw x Hx) as (x1 & E1 & H1). rewrite E1. cbn [bind].
  destruct last_level.
  - cbn [length Nat.ltb Nat.leb]. unfold Net.item at 1. cbn [nth_error bind].
    destruct (Ha b h w Hb Hh Hw x1 H1) as (x2 & E2 & H2). rewrite E2. cbn [bind].
    apply (run_more true n n 1 b h w); try assumption; lia.
  - cbn [length Nat.ltb Nat.leb].
    apply (run_more false n n 1 b h w); try assumption; lia.
Qed.
End OneLevel.

(** The blocks of a level, as [__init__] builds them and [forward] runs
    them: [count] residual blocks, the first from [cin] to [cout]
    channels, on the last level each followed by an attention block. *)
Lemma level_shape (n : nat) (cin cout : nat) (last_level : bool) :
  Net.channels_ok cin -> Net.channels_ok cout ->
  exists res attn,
    Net.build_level T cin cout (S n) last_level p Net.group = Ok (cout, res, attn) /\
    forall ds us b h w, 1 <= b -> 1 <= h -> 1 <= w ->
      Net.maps (Net.run_level T (Net.mkConvBlock res attn ds us) (S n))
               [b; cin; h; w] [b; cout; h; w].
Proof.
  intros Hci Hco.
  destruct (ResnetBlock_shape T HT cin cout p Hp Hci Hco) as (r1 & Er1 & Hr1).
  destruct (ResnetBlock_shape T HT cout cout p Hp Hco Hco) as (r2 & Er2 & Hr2).
  destruct (AttnBlock_shape T HT cout Hco) as (a & Ea & Ha).
  do 2 eexists. split.
  - apply (build_level_eq cin cout r1 r2 a Er1 Er2 Ea).
  - intros ds us b h w Hb Hh Hw.
    now apply (run_level_shape cin cout r1 r2 a Hr1 Hr2 Ha).
Qed.

(** The three blocks of [mid]. *)
Lemma mid_shape (c : nat) :
  Net.channels_ok c ->
  exists m1 m2,
    Net.ResnetBlock_init T c (Some c) false p Net.group = Ok m1 /\
    Net.AttnBlock_init T c Net.group = Ok m2 /\
    forall b h w, 1 <= b -> 1 <= h -> 1 <= w ->
      Net.maps (Net.foldM (fun h mid_block => Net.MidBlock_forward T mid_block h)
                          [Net.MidResnet m1; Net.MidAttn m2; Net.MidResnet m1])
               [b; c; h; w] [b; c; h; w].
Proof.
  intros Hc.
  destruct (ResnetBlock_shape T HT c c p Hp Hc Hc) as (m1 & E1 & H1).
  destruct (AttnBlock_shape T HT c Hc) as (m2 & E2 & H2).
  exists m1, m2. split; [exact E1|]. split; [exact E2|].
  intros b h w Hb Hh Hw x Hx. cbn [Net.foldM Net.MidBlock_forward].
  destruct (H1 b h w Hb Hh Hw x Hx) as (x1 & Ex1 & Hx1). rewrite Ex1. cbn [bind].
  destruct (H2 b h w Hb Hh Hw x1 Hx1) as (x2 & Ex2 & Hx2). rewrite Ex2. cbn [bind].
  destruct (H1 b h w Hb Hh Hw x2 Hx2) as (x3 & Ex3 & Hx3). rewrite Ex3. cbn [bind].
  exists x3. split; [reflexivity|exact Hx3].
Qed.
End Levels.

Section EncoderShapes.
Context {F : Type} {SF : Scalar F}.
Variable T : Net.Torch (F := F).
Hypothesis HT : Net.TorchShapes T.
Variable p : F.
Hypothesis Hp : Net.dropout_ok p.

(** The three heads of the encoder: adapter, normalization, activation
    and convolution. *)
Lemma head_shape (fa : Net.FactorizedAdapter) (nf : Net.NNModule) (zc b h w : nat) :
  1 <= b -> 1 <= h -> 1 <= w -> 1 <= zc ->
  Net.maps (Net.FactorizedAdapter_forward T fa) [b; 512; h; w] [b; 512; w; h] ->
  Net.maps nf [b; 512; w; h] [b; 512; w; h] ->
  Net.maps (fun x =>
              x <- Net.foldM (fun h blk => Net.FactorizedAdapter_forward T blk h) [fa] x ;;
              x <- nf x ;;
              Net.Conv2d T 512 zc 3 1 1 (nonlinearity x))
           [b; 512; h; w] [b; zc; w; h].
Proof.
  intros Hb Hh Hw Hz Hfa Hnf x Hx. cbn [Net.foldM].
  destruct (Hfa x Hx) as (x1 & E1 & H1). rewrite E1. cbn [bind].
  destruct (Hnf x1 H1) as (x2 & E2 & H2). rewrite E2. cbn [bind].
  apply has_shape_nonlinearity in H2.
  apply (conv3_same T HT 512 zc b w h); try assumption; lia.
Qed.

Lemma div_16 (h : nat) : h / 2 / 2 / 2 / 2 = h / 16.
Proof. rewrite !Nat.Div0.div_div. reflexivity. Qed.

Lemma div_8 (h : nat) : h / 2 / 2 / 2 = h / 8.
Proof. rewrite !Nat.Div0.div_div. reflexivity. Qed.

Lemma div_ge (h d k : nat) : d <> 0 -> k * d <= h -> k <= h / d.
Proof. intros Hd H. apply Nat.div_le_lower_bound; [exact Hd|lia]. Qed.

Lemma Encoder_shape_5 (m0 m1 m2 m3 zc : nat) :
  1 <= m0 -> 1 <= m1 -> 1 <= m2 -> 1 <= m3 -> 1 <= zc ->
  exists enc,
    Net.Encoder_init T 3 128 [m0; m1; m2; m3; 4] 2 Net.group p true zc = Ok enc /\
    forall x b h w,
      1 <= b -> 1 <= h / 16 -> 1 <= w / 16 ->
      (h / 16) * (w / 16) = (256 / 16) * (256 / 16) ->
      Net.has_shape x [b; 3; h; w] ->
      exists h_vis h_mid h_high,
        Net.Encoder_forward T enc x = Ok (h_vis, h_mid, h_high) /\
        Net.has_shape h_vis [b; zc; w / 16; h / 16] /\
        Net.has_shape h_mid [b; zc; w / 16; h / 16] /\
        Net.has_shape h_high [b; zc; w / 16; h / 16].
Proof.
  intros H0 H1 H2 H3 Hz.
  pose proof (channels_128 1 (le_n 1)) as C.
  pose proof (channels_128 m0 H0) as C0. pose proof (channels_128 m1 H1) as C1.
  pose proof (channels_128 m2 H2) as C2. pose proof (channels_128 m3 H3) as C3.
  assert (C4 : Net.channels_ok (128 * 4)) by (apply channels_128; lia).
  destruct (level_shape T HT p Hp 1 (128 * 1) (128 * m0) false C C0)
    as (res0 & attn0 & B0 & R0).
  destruct (level_shape T HT p Hp 1 (128 * m0) (128 * m1) false C0 C1)
    as (res1 & attn1 & B1 & R1).
  destruct (level_shape T HT p Hp 1 (128 * m1) (128 * m2) false C1 C2)
    as (res2 & attn2 & B2 & R2).
  destruct (level_shape T HT p Hp 1 (128 * m2) (128 * m3) false C2 C3)
    as (res3 & attn3 & B3 & R3).
  destruct (level_shape T HT p Hp 1 (128 * m3) (128 * 4) true C3 C4)
    as (res4 & attn4 & B4 & R4).
  destruct (mid_shape T HT p Hp (128 * 4) C4) as (mr & ma & Emr & Ema & Hmid).
  destruct (FactorizedAdapter_shape T HT 16) as (fa & Efa & _ & Hfa); [lia|].
  destruct (Normalize_shape T HT (128 * 4) C4) as (nf & Enf & Hnf).
  unfold Net.Encoder_init.
  cbn [length seq Net.foldM Net.item nth_error bind].
  rewrite ?is_last_spec. cbn [Nat.eqb negb].
  rewrite B0. cbn [bind Net.foldM Net.item nth_error].
  rewrite ?is_last_spec. cbn [Nat.eqb negb].
  rewrite B1. cbn [bind Net.foldM Net.item nth_error].
  rewrite ?is_last_spec. cbn [Nat.eqb negb].
  rewrite B2. cbn [bind Net.foldM Net.item nth_error].
  rewrite ?is_last_spec. cbn [Nat.eqb negb].
  rewrite B3. cbn [bind Net.foldM Net.item nth_error].
  rewrite ?is_last_spec. cbn [Nat.eqb negb].
  rewrite B4. cbn [bind Net.foldM Net.item nth_error app].
  rewrite Emr. cbn [bind]. rewrite Ema. cbn [bind].
  cbn [down_factor Nat.eqb bind]. rewrite Efa. cbn [bind]. rewrite Enf. cbn [bind].
  eexists. split; [reflexivity|].
  intros x b h w Hb Hh Hw Hg Hx.
  assert (Hh16 : 16 <= h).
  { destruct (Nat.le_gt_cases 16 h) as [Hle|Hgt]; [exact Hle|].
    rewrite Nat.div_small in Hh by lia. lia. }
  assert (Hw16 : 16 <= w).
  { destruct (Nat.le_gt_cases 16 w) as [Hle|Hgt]; [exact Hle|].
    rewrite Nat.div_small in Hw by lia. lia. }
  assert (Hge : forall n d k, d <> 0 -> k * d <= n -> k <= n / d)
    by (intros; now apply div_ge).
  assert (Dh1 : 8 <= h / 2) by (apply Hge; lia).
  assert (Dh2 : 4 <= h / 2 / 2) by (apply Hge; lia).
  assert (Dh3 : 2 <= h / 2 / 2 / 2) by (apply Hge; lia).
  assert (Dw1 : 8 <= w / 2) by (apply Hge; lia).
  assert (Dw2 : 4 <= w / 2 / 2) by (apply Hge; lia).
  assert (Dw3 : 2 <= w / 2 / 2 / 2) by (apply Hge; lia).
  unfold Net.Encoder_forward.
  cbn [Net.conv_in Net.conv_blocks Net.mid Net.num_res_blocks Net.num_resolutions
       Net.semantic_head_mid Net.semantic_head_high Net.visual_head
       Net.norm_out_sem_mid Net.conv_out_sem_mid Net.norm_out_sem_high
       Net.conv_out_sem_high Net.norm_out_vis Net.conv_out_vis].
  destruct (conv3_same T HT 3 128 b h w Hb) with (t := x) as (x0 & E0 & S0);
    try lia; [exact Hx|].
  rewrite E0. cbn [bind].
  unfold Net.enumerate. cbn [length seq combine Net.foldM Net.cb_downsample].
  rewrite !is_last_spec. cbn [Nat.eqb negb].
  (* level 0 *)
  destruct (R0 (Some (Net.Downsample_init T (128 * m0) true)) None b h w Hb)
    with (t := x0) as (y0 & Ey0 & Sy0); try lia; [exact S0|].
  rewrite Ey0. cbn [bind].
  destruct (Downsample_shape T HT (128 * m0) b h w Hb) with (t := y0)
    as (x1 & E1 & S1); try lia; [exact Sy0|].
  rewrite E1. cbn [bind].
  (* level 1 *)
  destruct (R1 (Some (Net.Downsample_init T (128 * m1) true)) None b (h / 2) (w / 2) Hb)
    with (t := x1) as (y1 & Ey1 & Sy1); try lia; [exact S1|].
  rewrite Ey1. cbn [bind].
  destruct (Downsample_shape T HT (128 * m1) b (h / 2) (w / 2) Hb) with (t := y1)
    as (x2 & E2 & S2); try lia; [exact Sy1|].
  rewrite E2. cbn [bind].
  (* level 2 *)
  destruct (R2 (Some (Net.Downsample_init T (128 * m2) true)) None b
               (h / 2 / 2) (w / 2 / 2) Hb)
    with (t := x2) as (y2 & Ey2 & Sy2); try lia; [exact S2|].
  rewrite Ey2. cbn [bind].
  destruct (Downsample_shape T HT (128 * m2) b (h / 2 / 2) (w / 2 / 2) Hb)
    with (t := y2) as (x3 & E3 & S3); try lia; [exact Sy2|].
  rewrite E3. cbn [bind].
  (* level 3 *)
  destruct (R3 (Some (Net.Downsample_init T (128 * m3) true)) None b
               (h / 2 / 2 / 2) (w / 2 / 2 / 2) Hb)
    with (t := x3) as (y3 & Ey3 & Sy3); try lia; [exact S3|].
  rewrite Ey3. cbn [bind].
  destruct (Downsample_shape T HT (128 * m3) b (h / 2 / 2 / 2) (w / 2 / 2 / 2) Hb)
    with (t := y3) as (x4 & E4 & S4); try lia; [exact Sy3|].
  rewrite E4. cbn [bind].
  rewrite !div_16 in S4.
  (* level 4 *)
  destruct (R4 None None b (h / 16) (w / 16) Hb Hh Hw x4 S4) as (y4 & Ey4 & Sy4).
  rewrite ?div_16. rewrite Ey4. cbn [bind].
  (* middle *)
  destruct (Hmid b (h / 16) (w / 16) Hb Hh Hw y4 Sy4) as (hm & Em & Sm).
  cbn [Net.foldM] in Em. rewrite Em. cbn [bind].
  (* heads *)
  assert (Hhead : Net.maps (fun x =>
              x <- Net.foldM (fun h blk => Net.FactorizedAdapter_forward T blk h) [fa] x ;;
              x <- nf x ;;
              Net.Conv2d T 512 zc 3 1 1 (nonlinearity x))
           [b; 512; h / 16; w / 16] [b; zc; w / 16; h / 16]).
  { apply head_shape; try assumption.
    - apply Hfa; try assumption. rewrite Hg. lia.
    - apply (Hnf b (w / 16) (h / 16)); assumption. }
  change (128 * 4) with 512 in *.
  destruct (Hhead hm Sm) as (o & Eo & So). cbv beta in Eo. cbn [Net.foldM] in Eo.
  destruct (Net.FactorizedAdapter_forward T fa hm)
    as [t1|e] eqn:Et1; cbn [bind] in Eo |- *; [|discriminate].
  destruct (nf t1) as [t2|e] eqn:Et2; cbn [bind] in Eo |- *; [|discriminate].
  rewrite Eo. cbn [bind]. exists o, o, o. repeat split; try apply So; reflexivity.
Qed.

Lemma Encoder_shape_4 (m0 m1 m2 zc : nat) :
  1 <= m0 -> 1 <= m1 -> 1 <= m2 -> 1 <= zc ->
  exists enc,
    Net.Encoder_init T 3 128 [m0; m1; m2; 4] 2 Net.group p true zc = Ok enc /\
    forall x b h w,
      1 <= b -> 1 <= h / 8 -> 1 <= w / 8 ->
      (h / 8) * (w / 8) = (256 / 8) * (256 / 8) ->
      Net.has_shape x [b; 3; h; w] ->
      exists h_vis h_mid h_high,
        Net.Encoder_forward T enc x = Ok (h_vis, h_mid, h_high) /\
        Net.has_shape h_vis [b; zc; w / 8; h / 8] /\
        Net.has_shape h_mid [b; zc; w / 8; h / 8] /\
        Net.has_shape h_high [b; zc; w / 8; h / 8].
Proof.
  intros H0 H1 H2 Hz.
  pose proof (channels_128 1 (le_n 1)) as C.
  pose proof (channels_128 m0 H0) as C0. pose proof (channels_128 m1 H1) as C1.
  pose proof (channels_128 m2 H2) as C2.
  assert (C4 : Net.channels_ok (128 * 4)) by (apply channels_128; lia).
  destruct (level_shape T HT p Hp 1 (128 * 1) (128 * m0) false C C0)
    as (res0 & attn0 & B0 & R0).
  destruct (level_shape T HT p Hp 1 (128 * m0) (128 * m1) false C0 C1)
    as (res1 & attn1 & B1 & R1).
  destruct (level_shape T HT p Hp 1 (128 * m1) (128 * m2) false C1 C2)
    as (res2 & attn2 & B2 & R2).
  destruct (level_shape T HT p Hp 1 (128 * m2) (128 * 4) true C2 C4)
    as (res4 & attn4 & B4 & R4).
  destruct (mid_shape T HT p Hp (128 * 4) C4) as (mr & ma & Emr & Ema & Hmid).
  destruct (FactorizedAdapter_shape T HT 8) as (fa & Efa & _ & Hfa); [lia|].
  destruct (Normalize_shape T HT (128 * 4) C4) as (nf & Enf & Hnf).
  unfold Net.Encoder_init.
  cbn [length seq Net.foldM Net.item nth_error bind].
  rewrite ?is_last_spec. cbn [Nat.eqb negb].
  rewrite B0. cbn [bind Net.foldM Net.item nth_error].
  rewrite ?is_last_spec. cbn [Nat.eqb negb].
  rewrite B1. cbn [bind Net.foldM Net.item nth_error].
  rewrite ?is_last_spec. cbn [Nat.eqb negb].
  rewrite B2. cbn [bind Net.foldM Net.item nth_error].
  rewrite ?is_last_spec. cbn [Nat.eqb negb].
  rewrite B4. cbn [bind Net.foldM Net.item nth_error app].
  rewrite Emr. cbn [bind]. rewrite Ema. cbn [bind].
  cbn [down_factor Nat.eqb bind]. rewrite Efa. cbn [bind]. rewrite Enf. cbn [bind].
  eexists. split; [reflexivity|].
  intros x b h w Hb Hh Hw Hg Hx.
  assert (Hh8 : 8 <= h).
  { destruct (Nat.le_gt_cases 8 h) as [Hle|Hgt]; [exact Hle|].
    rewrite Nat.div_small in Hh by lia. lia. }
  assert (Hw8 : 8 <= w).
  { destruct (Nat.le_gt_cases 8 w) as [Hle|Hgt]; [exact Hle|].
    rewrite Nat.div_small in Hw by lia. lia. }
  assert (Hge : forall n d k, d <> 0 -> k * d <= n -> k <= n / d)
    by (intros; now apply div_ge).
  assert (Dh1 : 4 <= h / 2) by (apply Hge; lia).
  assert (Dh2 : 2 <= h / 2 / 2) by (apply Hge; lia).
  assert (Dw1 : 4 <= w / 2) by (apply Hge; lia).
  assert (Dw2 : 2 <= w / 2 / 2) by (apply Hge; lia).
  unfold Net.Encoder_forward.
  cbn [Net.conv_in Net.conv_blocks Net.mid Net.num_res_blocks Net.num_resolutions
       Net.semantic_head_mid Net.semantic_head_high Net.visual_head
       Net.norm_out_sem_mid Net.conv_out_sem_mid Net.norm_out_sem_high
       Net.conv_out_sem_high Net.norm_out_vis Net.conv_out_vis].
  destruct (conv3_same T HT 3 128 b h w Hb) with (t := x) as (x0 & E0 & S0);
    try lia; [exact Hx|].
  rewrite E0. cbn [bind].
  unfold Net.enumerate. cbn [length seq combine Net.foldM Net.cb_downsample].
  rewrite !is_last_spec. cbn [Nat.eqb negb].
  (* level 0 *)
  destruct (R0 (Some (Net.Downsample_init T (128 * m0) true)) None b h w Hb)
    with (t := x0) as (y0 & Ey0 & Sy0); try lia; [exact S0|].
  rewrite Ey0. cbn [bind].
  destruct (Downsample_shape T HT (128 * m0) b h w Hb) with (t := y0)
    as (x1 & E1 & S1); try lia; [exact Sy0|].
  rewrite E1. cbn [bind].
  (* level 1 *)
  destruct (R1 (Some (Net.Downsample_init T (128 * m1) true)) None b (h / 2) (w / 2) Hb)
    with (t := x1) as (y1 & Ey1 & Sy1); try lia; [exact S1|].
  rewrite Ey1. cbn [bind].
  destruct (Downsample_shape T HT (128 * m1) b (h / 2) (w / 2) Hb) with (t := y1)
    as (x2 & E2 & S2); try lia; [exact Sy1|].
  rewrite E2. cbn [bind].
  (* level 2 *)
  destruct (R2 (Some (Net.Downsample_init T (128 * m2) true)) None b
               (h / 2 / 2) (w / 2 / 2) Hb)
    with (t := x2) as (y2 & Ey2 & Sy2); try lia; [exact S2|].
  rewrite Ey2. cbn [bind].
  destruct (Downsample_shape T HT (128 * m2) b (h / 2 / 2) (w / 2 / 2) Hb)
    with (t := y2) as (x4 & E4 & S4); try lia; [exact Sy2|].
  rewrite E4. cbn [bind].
  rewrite !div_8 in S4.
  (* level 3 *)
  destruct (R4 None None b (h / 8) (w / 8) Hb Hh Hw x4 S4) as (y4 & Ey4 & Sy4).
  rewrite ?div_8. rewrite Ey4. cbn [bind].
  (* middle *)
  destruct (Hmid b (h / 8) (w / 8) Hb Hh Hw y4 Sy4) as (hm & Em & Sm).
  cbn [Net.foldM] in Em. rewrite Em. cbn [bind].
  (* heads *)
  assert (Hhead : Net.maps (fun x =>
              x <- Net.foldM (fun h blk => Net.FactorizedAdapter_forward T blk h) [fa] x ;;
              x <- nf x ;;
              Net.Conv2d T 512 zc 3 1 1 (nonlinearity x))
           [b; 512; h / 8; w / 8] [b; zc; w / 8; h / 8]).
  { apply head_shape; try assumption.
    - apply Hfa; try assumption. rewrite Hg. lia.
    - apply (Hnf b (w / 8) (h / 8)); assumption. }
  change (128 * 4) with 512 in *.
  destruct (Hhead hm Sm) as (o & Eo & So). cbv beta in Eo. cbn [Net.foldM] in Eo.
  destruct (Net.FactorizedAdapter_forward T fa hm)
    as [t1|e] eqn:Et1; cbn [bind] in Eo |- *; [|discriminate].
  destruct (nf t1) as [t2|e] eqn:Et2; cbn [bind] in Eo |- *; [|discriminate].
  rewrite Eo. cbn [bind]. exists o, o, o. repeat split; try apply So; reflexivity.
Qed.

Lemma Encoder_shapes_aux (ch_mult : list nat) (zc df : nat) :
  1 <= zc -> Forall (fun m => 1 <= m) ch_mult -> last ch_mult 0 = 4 ->
  (length ch_mult = 5 /\ df = 16) \/ (length ch_mult = 4 /\ df = 8) ->
  exists enc,
    Net.Encoder_init T 3 128 ch_mult 2 Net.group p true zc = Ok enc /\
    forall x b h w,
      1 <= b -> 1 <= h / df -> 1 <= w / df ->
      (h / df) * (w / df) = (256 / df) * (256 / df) ->
      Net.has_shape x [b; 3; h; w] ->
      exists h_vis h_mid h_high,
        Net.Encoder_forward T enc x = Ok (h_vis, h_mid, h_high) /\
        Net.has_shape h_vis [b; zc; w / df; h / df] /\
        Net.has_shape h_mid [b; zc; w / df; h / df] /\
        Net.has_shape h_high [b; zc; w / df; h / df].
Proof.
  intros Hz Hm Hlast [(Hl & ->) | (Hl & ->)].
  - destruct ch_mult as [|m0 [|m1 [|m2 [|m3 [|m4 [|? ?]]]]]]; try discriminate.
    cbn [last] in Hlast. subst m4.
    inversion Hm as [|? ? H0 Hm1]; subst. inversion Hm1 as [|? ? H1 Hm2]; subst.
    inversion Hm2 as [|? ? H2 Hm3]; subst. inversion Hm3 as [|? ? H3 _]; subst.
    now apply Encoder_shape_5.
  - destruct ch_mult as [|m0 [|m1 [|m2 [|m3 [|? ?]]]]]; try discriminate.
    cbn [last] in Hlast. subst m3.
    inversion Hm as [|? ? H0 Hm1]; subst. inversion Hm1 as [|? ? H1 Hm2]; subst.
    inversion Hm2 as [|? ? H2 _]; subst.
    now apply Encoder_shape_4.
Qed.
End EncoderShapes.

(** ** The stand-in layers have the shapes of torch's *)

Lemma zeros_shape (sh : list nat) : Net.has_shape (zeros sh) sh.
Proof. split; [reflexivity|]. apply repeat_length. Qed.

Lemma same_shape_maps (sh : list nat) : Net.maps same_shape sh sh.
Proof.
  intros t [Hs _]. exists (zeros (shape t)). split; [reflexivity|].
  rewrite Hs. apply zeros_shape.
Qed.

Lemma plain_torch_shapes : Net.TorchShapes plain_torch.
Proof.
  constructor; cbn [plain_torch Net.Conv2d Net.GroupNorm Net.Dropout Net.LayerNorm
                    Net.MultiheadAttention Net.Linear Net.GELU Net.ReLU Net.randn
                    Net.tensor_add Net.pad_0101 Net.avg_pool2d Net.interpolate].
  - intros cin cout k s p b h w _ _ _ Hs _ Hh Hw t [Ht _].
    unfold conv_zeros. rewrite Ht, Nat.eqb_refl.
    apply Nat.leb_le in Hh, Hw, Hs. rewrite Hh, Hw, Hs. cbn [andb].
    eexists. split; [reflexivity|]. apply zeros_shape.
  - intros g c _ Hc. apply Nat.eqb_eq in Hc. rewrite Hc.
    exists same_shape. split; [reflexivity|]. intros. apply same_shape_maps.
  - intros p H0 H1. cbn in H0, H1. rewrite H0, H1. cbn [orb].
    exists same_shape. split; [reflexivity|]. intros. apply same_shape_maps.
  - intros. apply same_shape_maps.
  - intros d n _ _ Hd. apply Nat.eqb_eq in Hd. rewrite Hd.
    exists same_shape. split; [reflexivity|]. intros. apply same_shape_maps.
  - intros i o sh t [Ht _]. unfold linear_zeros.
    rewrite Ht, rev_app_distr. cbn [rev app]. rewrite Nat.eqb_refl, rev_involutive.
    eexists. split; [reflexivity|]. apply zeros_shape.
  - intros. apply same_shape_maps.
  - intros. apply same_shape_maps.
  - intros. apply zeros_shape.
  - intros x y sh [Hx _] [Hy _]. unfold add_zeros. rewrite Hx, Hy.
    destruct (list_eq_dec Nat.eq_dec sh sh) as [_|N]; [|congruence].
    eexists. split; [reflexivity|]. apply zeros_shape.
  - intros x y b sh [Hx _] [Hy _]. unfold add_zeros. rewrite Hx, Hy. cbn [tl].
    destruct (list_eq_dec Nat.eq_dec (b :: sh) sh) as [_|_].
    + eexists. split; [reflexivity|]. apply zeros_shape.
    + destruct (list_eq_dec Nat.eq_dec sh sh) as [_|N]; [|congruence].
      eexists. split; [reflexivity|]. apply zeros_shape.
  - intros b c h w t [Ht _]. unfold resize_zeros. rewrite Ht.
    eexists. split; [reflexivity|]. replace (h + 1) with (S h) by lia.
    replace (w + 1) with (S w) by lia. apply zeros_shape.
  - intros b c h w _ _ t [Ht _]. unfold resize_zeros. rewrite Ht.
    eexists. split; [reflexivity|]. apply zeros_shape.
  - intros b c h w _ _ t [Ht _]. unfold resize_zeros. rewrite Ht.
    eexists. split; [reflexivity|]. apply zeros_shape.
Qed.

(** ** The encoder *)

(** X14. [Encoder.__init__] and [Encoder.forward] as [VQModel] uses them
    (3 input channels, 128 base channels, two residual blocks a level,
    group normalization, convolutional downsampling): with multipliers of
    at least 1 of which the last one is 4, five levels (down factor 16) or
    four (down factor 8), and a dropout probability in [0, 1], the encoder
    is built without error; on a batch of images of [h] by [w] pixels
    whose reduced map has as many positions as that of a 256 by 256 image,
    [(h / df) * (w / df) = (256 / df) * (256 / df)], it returns three
    feature maps with [z_channels] channels, and each has the reduced
    width [w / df] as its height and the reduced height [h / df] as its
    width: the adapters read [x.shape[-1]], the width, as the height of
    the map they put together again. *)
Theorem Encoder_shapes {F : Type} {SF : Scalar F} (T : Net.Torch (F := F)) (p : F)
    (ch_mult : list nat) (zc df : nat) (x : Tensor F) (b h w : nat) :
  Net.TorchShapes T -> Net.dropout_ok p ->
  1 <= zc -> Forall (fun m => 1 <= m) ch_mult -> last ch_mult 0 = 4 ->
  (length ch_mult = 5 /\ df = 16) \/ (length ch_mult = 4 /\ df = 8) ->
  1 <= b -> 1 <= h / df -> 1 <= w / df ->
  (h / df) * (w / df) = (256 / df) * (256 / df) ->
  Net.has_shape x [b; 3; h; w] ->
  exists enc h_vis h_sem_mid h_sem_high,
    Net.Encoder_init T 3 128 ch_mult 2 Net.group p true zc = Ok enc /\
    Net.Encoder_forward T enc x = Ok (h_vis, h_sem_mid, h_sem_high) /\
    Net.has_shape h_vis [b; zc; w / df; h / df] /\
    Net.has_shape h_sem_mid [b; zc; w / df; h / df] /\
    Net.has_shape h_sem_high [b; zc; w / df; h / df].
Proof.
  intros HT Hp Hz Hm Hlast Hlen Hb Hh Hw Hg Hx.
  destruct (Encoder_shapes_aux T HT p Hp ch_mult zc df Hz Hm Hlast Hlen)
    as (enc & Ei & Hf).
  destruct (Hf x b h w Hb Hh Hw Hg Hx) as (a1 & a2 & a3 & Ef & S1 & S2 & S3).
  exists enc, a1, a2, a3. repeat split; try assumption; try apply S1; try apply S2;
    apply S3.
Qed.

Lemma Encoder_shapes_witness :
  exists enc h_vis h_sem_mid h_sem_high,
    Net.Encoder_init plain_torch 3 128 [1; 1; 2; 2; 4] 2 Net.group 0%R true 8 = Ok enc /\
    Net.Encoder_forward plain_torch enc (zeros [2; 3; 128; 512])
    = Ok (h_vis, h_sem_mid, h_sem_high) /\
    Net.has_shape h_vis [2; 8; 32; 8] /\
    Net.has_shape h_sem_mid [2; 8; 32; 8] /\
    Net.has_shape h_sem_high [2; 8; 32; 8].
Proof.
  apply (Encoder_shapes plain_torch 0%R [1; 1; 2; 2; 4] 8 16
                        (zeros [2; 3; 128; 512]) 2 128 512).
  - exact plain_torch_shapes.
  - split; apply Rltb_false; cbn; lra.
  - lia.
  - repeat constructor.
  - reflexivity.
  - left. split; reflexivity.
  - lia.
  - cbv; lia.
  - cbv; lia.
  - reflexivity.
  - apply zeros_shape.
Defined.

(** ** The decoder *)

Lemma item_nth {A : Type} (l : list A) (i : nat) (d : A) :
  i < length l -> Net.item l i = Ok (nth i l d).
Proof.
  intros Hi. unfold Net.item.
  destruct (nth_error l i) as [a|] eqn:E.
  - now rewrite (nth_error_nth l i d E).
  - apply nth_error_None in E. lia.
Qed.

Lemma rev_seq_S (k : nat) : rev (seq 0 (S k)) = k :: rev (seq 0 k).
Proof. rewrite seq_S, rev_app_distr. reflexivity. Qed.

Section DecoderShapes.
Context {F : Type} {SF : Scalar F}.
Variable T : Net.Torch (F := F).
Hypothesis HT : Net.TorchShapes T.
Variable p : F.
Hypothesis Hp : Net.dropout_ok p.
Variable ch_mult : list nat.
Hypothesis Hm : Forall (fun m => 1 <= m) ch_mult.

Lemma mult_ok (i : nat) : i < length ch_mult -> Net.channels_ok (128 * nth i ch_mult 0).
Proof.
  intros Hi. apply channels_128.
  rewrite Forall_forall in Hm. apply Hm. now apply nth_In.
Qed.

(** The levels the loop of [Decoder.__init__] has still to build, from
    level [k] down to level 0, and what the loop of [Decoder.forward]
    does with them. *)
Lemma decoder_levels (k : nat) :
  k < length ch_mult ->
  forall cin acc, Net.channels_ok cin ->
  exists blocks,
    Net.foldM (fun '(block_in, conv_blocks) i_level =>
             m_out <- Net.item ch_mult i_level ;;
             let block_out := 128 * m_out in
             ' (block_in, res_block, attn_block) <-
               Net.build_level T block_in block_out (2 + 1)
                           (Net.is_last i_level (length ch_mult)) p Net.group ;;
             let upsample :=
               if negb (i_level =? 0)
               then Some (Net.Upsample_init T block_in true) else None in
             Ok (block_in,
                 conv_blocks ++ [Net.mkConvBlock res_block attn_block None upsample]))
          (rev (seq 0 (S k))) (cin, acc)
    = Ok (128 * nth 0 ch_mult 0, acc ++ blocks) /\
    length blocks = S k /\
    forall n j b h w, j + S k = n -> 1 <= b -> 1 <= h -> 1 <= w ->
      Net.maps (Net.foldM (fun h '(i_level, block) =>
                h <- Net.run_level T block (2 + 1) h ;;
                if negb (Net.is_last i_level n)
                then
                  match Net.cb_upsample block with
                  | Some u => Net.Upsample_forward T u h
                  | None => Err AttributeError
                  end
                else Ok h)
             (combine (seq j (S k)) blocks))
        [b; cin; h; w] [b; 128 * nth 0 ch_mult 0; 2 ^ k * h; 2 ^ k * w].
Proof.
  induction k as [|k IH]; intros Hk cin acc Hc.
  - pose proof (mult_ok 0 Hk) as C0.
    destruct (level_shape T HT p Hp 2 cin (128 * nth 0 ch_mult 0)
                (Net.is_last 0 (length ch_mult)) Hc C0) as (res & attn & B & R).
    cbn [seq rev app Net.foldM]. rewrite (item_nth ch_mult 0 0 Hk). cbn [bind].
    cbv zeta. change (2 + 1) with 3. rewrite B. cbn [bind Nat.eqb negb].
    eexists. split; [reflexivity|]. split; [reflexivity|].
    intros n j b h w Hn Hb Hh Hw x Hx.
    cbn [seq combine Net.foldM].
    destruct (R None None b h w Hb Hh Hw x Hx) as (y & Ey & Sy).
    change (2 + 1) with 3. rewrite Ey. cbn [bind].
    rewrite is_last_spec. replace (S j =? n) with true
      by (symmetry; apply Nat.eqb_eq; lia).
    cbn [negb bind]. exists y. split; [reflexivity|].
    cbn [Nat.pow]. now rewrite !Nat.mul_1_l.
  - assert (Hk' : k < length ch_mult) by lia.
    pose proof (mult_ok (S k) Hk) as Ck.
    destruct (level_shape T HT p Hp 2 cin (128 * nth (S k) ch_mult 0)
                (Net.is_last (S k) (length ch_mult)) Hc Ck) as (res & attn & B & R).
    rewrite rev_seq_S. cbn [Net.foldM].
    rewrite (item_nth ch_mult (S k) 0 Hk). cbn [bind].
    cbv zeta. change (2 + 1) with 3. rewrite B. cbn [bind Nat.eqb negb].
    destruct (IH Hk' (128 * nth (S k) ch_mult 0)
                 (acc ++ [Net.mkConvBlock res attn None
                            (Some (Net.Upsample_init T (128 * nth (S k) ch_mult 0) true))])
                 Ck) as (blocks & E & L & Hf).
    change (2 + 1) with 3 in E. cbv zeta in E. rewrite E.
    eexists. split; [rewrite <- app_assoc; reflexivity|].
    split; [cbn [app length]; now rewrite L|].
    intros n j b h w Hn Hb Hh Hw x Hx.
    cbn [seq combine app Net.foldM].
    destruct (R None (Some (Net.Upsample_init T (128 * nth (S k) ch_mult 0) true))
                b h w Hb Hh Hw x Hx) as (y & Ey & Sy).
    change (2 + 1) with 3. rewrite Ey. cbn [bind].
    rewrite is_last_spec. replace (S j =? n) with false
      by (symmetry; apply Nat.eqb_neq; lia).
    cbn [negb bind Net.cb_upsample].
    destruct (Upsample_shape T HT (128 * nth (S k) ch_mult 0) b h w) with (t := y)
      as (y1 & Ey1 & Sy1); try lia; try assumption.
    { destruct Ck as [Ck1 Ck2].
      destruct (128 * nth (S k) ch_mult 0); [cbn in Ck2; lia|lia]. }
    rewrite Ey1. cbn [bind].
    destruct (Hf n (S j) b (2 * h) (2 * w)) with (t := y1) as (o & Eo & So);
      try lia; try assumption.
    exists o. split; [exact Eo|].
    replace (2 ^ S k * h) with (2 ^ k * (2 * h)) by (cbn [Nat.pow]; lia).
    replace (2 ^ S k * w) with (2 ^ k * (2 * w)) by (cbn [Nat.pow]; lia).
    exact So.
Qed.

Lemma last_nth (l : list nat) : last l 0 = nth (length l - 1) l 0.
Proof.
  induction l as [|a [|a' l] IH]; try reflexivity.
  change (last (a :: a' :: l) 0) with (last (a' :: l) 0). rewrite IH.
  cbn [length]. replace (S (S (length l)) - 1) with (S (S (length l) - 1)) by lia.
  reflexivity.
Qed.

Lemma Decoder_shapes_aux (zc : nat) :
  ch_mult <> [] ->
  exists dec,
    Net.Decoder_init T zc 128 ch_mult 2 Net.group p true 3 = Ok dec /\
    forall z b h w,
      1 <= zc -> 1 <= b -> 1 <= h -> 1 <= w -> Net.has_shape z [b; zc; h; w] ->
      exists out,
        Net.Decoder_forward T dec z = Ok out /\
        Net.has_shape out [b; 3; 2 ^ (length ch_mult - 1) * h;
                           2 ^ (length ch_mult - 1) * w].
Proof.
  intros Hne.
  assert (Hlen : 1 <= length ch_mult) by (destruct ch_mult; [congruence|cbn; lia]).
  assert (Hk : length ch_mult - 1 < length ch_mult) by lia.
  pose proof (mult_ok (length ch_mult - 1) Hk) as Cl. rewrite <- last_nth in Cl.
  pose proof (mult_ok 0 ltac:(lia)) as C0.
  destruct (mid_shape T HT p Hp _ Cl) as (mr & ma & Emr & Ema & Hmid).
  destruct (decoder_levels (length ch_mult - 1) Hk (128 * last ch_mult 0) [] Cl)
    as (blocks & Eb & Lb & Hf).
  replace (S (length ch_mult - 1)) with (length ch_mult) in Eb, Lb, Hf by lia.
  destruct (Normalize_shape T HT _ C0) as (nf & Enf & Hnf).
  unfold Net.Decoder_init.
  replace (match ch_mult with [] => Err IndexError | _ :: _ => Ok (last ch_mult 0) end)
    with (Ok (last ch_mult 0) : result nat) by (destruct ch_mult; [congruence|reflexivity]).
  cbn [bind]. cbv zeta. rewrite Emr. cbn [bind]. rewrite Ema. cbn [bind].
  match goal with
  | |- context [bind ?X _] =>
      replace X with (Ok (128 * nth 0 ch_mult 0, [] ++ blocks)
                      : result (nat * list Net.ConvBlock)) by (symmetry; exact Eb)
  end.
  cbn [bind app]. rewrite Enf. cbn [bind].
  eexists. split; [reflexivity|].
  intros z b h w Hz Hb Hh Hw Hx.
  unfold Net.Decoder_forward.
  cbn [Net.d_conv_in Net.d_mid Net.d_conv_blocks Net.d_num_res_blocks
       Net.d_num_resolutions Net.norm_out Net.conv_out].
  assert (P128 : 1 <= 128 * last ch_mult 0).
  { destruct Cl as [_ Cq]. destruct (128 * last ch_mult 0); [cbn in Cq; lia|lia]. }
  assert (P0 : 1 <= 128 * nth 0 ch_mult 0).
  { destruct C0 as [_ Cq]. destruct (128 * nth 0 ch_mult 0); [cbn in Cq; lia|lia]. }
  destruct (conv3_same T HT zc (128 * last ch_mult 0) b h w Hb Hz P128 Hh Hw z Hx)
    as (x0 & E0 & S0).
  rewrite E0. cbn [bind].
  destruct (Hmid b h w Hb Hh Hw x0 S0) as (x1 & E1 & S1).
  rewrite E1. cbn [bind].
  destruct (Hf (length ch_mult) 0 b h w ltac:(lia) Hb Hh Hw x1 S1) as (x2 & E2 & S2).
  unfold Net.enumerate. rewrite Lb.
  match goal with
  | |- context [bind ?X _] =>
      replace X with (Ok x2 : result (Tensor F)) by (symmetry; exact E2)
  end.
  cbn [bind].
  assert (Q : forall n : nat, 1 <= n -> 1 <= 2 ^ (length ch_mult - 1) * n).
  { intros n Hn. pose proof (Nat.pow_nonzero 2 (length ch_mult - 1) ltac:(lia)). nia. }
  destruct (Hnf b _ _ Hb (Q h Hh) (Q w Hw) x2 S2) as (x3 & E3 & S3).
  rewrite E3. cbn [bind].
  apply has_shape_nonlinearity in S3.
  exact (conv3_same T HT _ 3 b _ _ Hb P0 ltac:(lia) (Q h Hh) (Q w Hw) _ S3).
Qed.
End DecoderShapes.

(** X15. [Decoder.__init__] and [Decoder.forward] as [VQModel] uses them
    (128 base channels, two residual blocks a level and one more in the
    decoder, group normalization, convolutional upsampling, 3 output
    channels): with at least one level, multipliers of at least 1 and a
    dropout probability in [0, 1], the decoder is built without error, for
    any number of levels, and it turns a map of [z_channels] channels and
    [h] by [w] positions into an image of 3 channels in which each side is
    doubled once for every level but the last: [2 ^ (levels - 1) * h] by
    [2 ^ (levels - 1) * w]. *)
Theorem Decoder_shapes {F : Type} {SF : Scalar F} (T : Net.Torch (F := F)) (p : F)
    (ch_mult : list nat) (zc : nat) (z : Tensor F) (b h w : nat) :
  Net.TorchShapes T -> Net.dropout_ok p ->
  1 <= zc -> ch_mult <> [] -> Forall (fun m => 1 <= m) ch_mult ->
  1 <= b -> 1 <= h -> 1 <= w ->
  Net.has_shape z [b; zc; h; w] ->
  exists dec out,
    Net.Decoder_init T zc 128 ch_mult 2 Net.group p true 3 = Ok dec /\
    Net.Decoder_forward T dec z = Ok out /\
    Net.has_shape out [b; 3; 2 ^ (length ch_mult - 1) * h;
                       2 ^ (length ch_mult - 1) * w].
Proof.
  intros HT Hp Hz Hne Hm Hb Hh Hw Hx.
  destruct (Decoder_shapes_aux T HT p Hp ch_mult Hm zc Hne) as (dec & Ei & Hf).
  destruct (Hf z b h w Hz Hb Hh Hw Hx) as (out & Ef & So).
  exists dec, out. split; [exact Ei|]. split; [exact Ef|]. exact So.
Qed.

Lemma Decoder_shapes_witness :
  exists dec out,
    Net.Decoder_init plain_torch 8 128 [1; 2; 4] 2 Net.group 0%R true 3 = Ok dec /\
    Net.Decoder_forward plain_torch dec (zeros [2; 8; 4; 6]) = Ok out /\
    Net.has_shape out [2; 3; 16; 24].
Proof.
  apply (Decoder_shapes plain_torch 0%R [1; 2; 4] 8 (zeros [2; 8; 4; 6]) 2 4 6).
  - exact plain_torch_shapes.
  - split; apply Rltb_false; cbn; lra.
  - lia.
  - discriminate.
  - repeat constructor.
  - lia.
  - lia.
  - lia.
  - apply zeros_shape.
Defined.

(** ** Building the model *)

Lemma foldM_app {A S : Type} (f : S -> A -> result S) (l1 l2 : list A) (s : S) :
  Net.foldM f (l1 ++ l2) s = (s' <- Net.foldM f l1 s ;; Net.foldM f l2 s').
Proof.
  revert s. induction l1 as [|a l1 IH]; intros s; [reflexivity|].
  cbn [app Net.foldM]. destruct (f s a) as [s1|e]; cbn [bind]; [apply IH|reflexivity].
Qed.

Lemma mod_32_of_128 (m : nat) : (128 * m) mod 32 = 0.
Proof. replace (128 * m) with (4 * m * 32) by lia. apply Nat.Div0.mod_mul. Qed.

(** *** The constructors of the blocks *)

Section BlockInit.
Context {F : Type} {SF : Scalar F}.
Variable T : Net.Torch (F := F).
Hypothesis HT : Net.TorchShapes T.

(** [GroupNorm] with 32 groups takes every multiple of 32 channels. *)
Lemma Normalize_ok (c : nat) :
  c mod 32 = 0 -> exists f, Net.Normalize T c Net.group = Ok f.
Proof.
  intros Hc. destruct (Net.group_norm_shape T HT 32 c) as (f & E & _); [lia|exact Hc|].
  exists f. exact E.
Qed.

Lemma AttnBlock_init_ok (c : nat) :
  c mod 32 = 0 -> exists a, Net.AttnBlock_init T c Net.group = Ok a.
Proof.
  intros Hc. destruct (Normalize_ok c Hc) as (f & E).
  unfold Net.AttnBlock_init. rewrite E. cbn [bind]. eexists. reflexivity.
Qed.

Variable p : F.


Hypothesis Hp : Net.dropout_ok p.

Lemma ResnetBlock_init_ok (cin cout : nat) :
  cin mod 32 = 0 -> cout mod 32 = 0 ->
  exists r, Net.ResnetBlock_init T cin (Some cout) false p Net.group = Ok r.
Proof.
  intros Hi Ho.
  destruct (Normalize_ok cin Hi) as (n1 & E1). destruct (Normalize_ok cout Ho) as (n2 & E2).
  destruct Hp as (Hp0 & Hp1).
  destruct (Net.dropout_shape T HT p Hp0 Hp1) as (dr & Edr & _).
  unfold Net.ResnetBlock_init. rewrite E1. cbn [bind]. rewrite E2. cbn [bind].
  rewrite Edr. cbn [bind]. eexists. reflexivity.
Qed.

(** The residual and attention blocks of one level. *)
Lemma build_level_ok (cin cout n : nat) (last_level : bool) :
  cin mod 32 = 0 -> cout mod 32 = 0 ->
  exists res attn,
    Net.build_level T cin cout (S n) last_level p Net.group = Ok (cout, res, attn).
Proof.
  intros Hi Ho.
  destruct (ResnetBlock_init_ok cin cout Hi Ho) as (r1 & Er1).
  destruct (ResnetBlock_init_ok cout cout Ho Ho) as (r2 & Er2).
  destruct (AttnBlock_init_ok cout Ho) as (a & Ea).
  do 2 eexists. apply (build_level_eq T p cin cout r1 r2 a Er1 Er2 Ea).
Qed.
End BlockInit.

(** *** [Encoder.__init__] *)

Section EncoderInit.
Context {F : Type} {SF : Scalar F}.
Variable T : Net.Torch (F := F).

(** The stage check of [Encoder.__init__] comes after the levels and the
    middle blocks: with a schedule of neither 4 nor 5 stages the
    constructor raises, whatever its layers do. *)
Lemma Encoder_init_stage_count (ch_mult : list nat) (p : F) (zc : nat) :
  length ch_mult <> 4 -> length ch_mult <> 5 ->
  exists e, Net.Encoder_init T 3 128 ch_mult 2 Net.group p true zc = Err e.
Proof.
  intros H4 H5. unfold Net.Encoder_init.
  destruct (Net.foldM _ _ _) as [[bi blocks]|e]; cbn [bind]; [|eauto].
  destruct bi as [c|]; cbn [bind]; [|eauto].
  destruct (Net.ResnetBlock_init T c (Some c) false p Net.group) as [m1|e];
    cbn [bind]; [|eauto].
  destruct (Net.AttnBlock_init T c Net.group) as [m2|e]; cbn [bind]; [|eauto].
  unfold down_factor.
  replace (length ch_mult =? 5) with false by (symmetry; now apply Nat.eqb_neq).
  replace (length ch_mult =? 4) with false by (symmetry; now apply Nat.eqb_neq).
  cbn [bind]. eauto.
Qed.

Hypothesis HT : Net.TorchShapes T.
Variable ch_mult : list nat.
Variable p : F.


Hypothesis Hp : Net.dropout_ok p.

(** The loop over the levels in [Encoder.__init__]. *)
Lemma encoder_levels (k : nat) :
  k < length ch_mult ->
  forall s : option nat * list Net.ConvBlock,
  exists blocks,
    Net.foldM (fun '(_, conv_blocks) i_level =>
             m_in <- Net.item (1 :: ch_mult) i_level ;;
             m_out <- Net.item ch_mult i_level ;;
             let block_in := 128 * m_in in
             let block_out := 128 * m_out in
             ' (block_in, res_block, attn_block) <-
               Net.build_level T block_in block_out 2
                           (Net.is_last i_level (length ch_mult)) p Net.group ;;
             let downsample :=
               if negb (Net.is_last i_level (length ch_mult))
               then Some (Net.Downsample_init T block_in true) else None in
             Ok (Some block_in,
                 conv_blocks ++ [Net.mkConvBlock res_block attn_block downsample None]))
          (seq 0 (S k)) s
    = Ok (Some (128 * nth k ch_mult 0), blocks).
Proof.
  induction k as [|k IH]; intros Hk s.
  - destruct s as [bi blocks]. cbn [seq Net.foldM].
    rewrite (item_nth (1 :: ch_mult) 0 0) by (cbn; lia).
    rewrite (item_nth ch_mult 0 0 Hk). cbn [bind]. cbv zeta.
    destruct (build_level_ok T HT p Hp (128 * nth 0 (1 :: ch_mult) 0)
                (128 * nth 0 ch_mult 0) 1 (Net.is_last 0 (length ch_mult))
                (mod_32_of_128 _) (mod_32_of_128 _)) as (res & attn & B).
    rewrite B. cbn [bind]. eexists. reflexivity.
  - rewrite seq_S, foldM_app.
    destruct (IH ltac:(lia) s) as (blocks & E). rewrite E. cbn [bind Nat.add Net.foldM].
    rewrite (item_nth (1 :: ch_mult) (S k) 0) by (cbn; lia).
    rewrite (item_nth ch_mult (S k) 0 Hk). cbn [bind]. cbv zeta.
    destruct (build_level_ok T HT p Hp (128 * nth (S k) (1 :: ch_mult) 0)
                (128 * nth (S k) ch_mult 0) 1 (Net.is_last (S k) (length ch_mult))
                (mod_32_of_128 _) (mod_32_of_128 _)) as (res & attn & B).
    rewrite B. cbn [bind]. eexists. reflexivity.
Qed.

(** [Encoder.__init__] when its layers accept their arguments. *)
Lemma Encoder_init_cases (zc : nat) :
  (ch_mult = [] ->
   Net.Encoder_init T 3 128 ch_mult 2 Net.group p true zc = Err UnboundLocalError) /\
  (ch_mult <> [] -> length ch_mult <> 4 -> length ch_mult <> 5 ->
   Net.Encoder_init T 3 128 ch_mult 2 Net.group p true zc = Err NotImplementedError) /\
  (forall df, (length ch_mult = 5 /\ df = 16) \/ (length ch_mult = 4 /\ df = 8) ->
   exists enc fa,
     Net.Encoder_init T 3 128 ch_mult 2 Net.group p true zc = Ok enc /\
     Net.num_resolutions enc = length ch_mult /\
     Net.semantic_head_mid enc = [fa] /\
     Net.semantic_head_high enc = [fa] /\
     Net.visual_head enc = [fa] /\
     Net.fa_grid_size fa = 256 / df).
Proof.
  split; [intros ->; reflexivity|].
  assert (Hcommon : ch_mult <> [] ->
            exists blocks m1 m2 nf,
              Net.Encoder_init T 3 128 ch_mult 2 Net.group p true zc
              = (down_factor <- down_factor (length ch_mult) ;;
                 sem_mid <- Net.FactorizedAdapter_init T down_factor ;;
                 sem_high <- Net.FactorizedAdapter_init T down_factor ;;
                 vis <- Net.FactorizedAdapter_init T down_factor ;;
                 Ok (Net.mkEncoder (length ch_mult) 2 (Net.Conv2d T 3 128 3 1 1) blocks
                       [Net.MidResnet m1; Net.MidAttn m2; Net.MidResnet m1]
                       [sem_mid] [sem_high] [vis]
                       nf (Net.Conv2d T (128 * last ch_mult 0) zc 3 1 1)
                       nf (Net.Conv2d T (128 * last ch_mult 0) zc 3 1 1)
                       nf (Net.Conv2d T (128 * last ch_mult 0) zc 3 1 1)))).
  { intros Hne.
    assert (Hlen : 1 <= length ch_mult) by (destruct ch_mult; [congruence|cbn; lia]).
    assert (Hk : length ch_mult - 1 < length ch_mult) by lia.
    pose proof (mod_32_of_128 (last ch_mult 0)) as Cl.
    destruct (encoder_levels (length ch_mult - 1) Hk (None, [])) as (blocks & E).
    replace (S (length ch_mult - 1)) with (length ch_mult) in E by lia.
    rewrite <- last_nth in E.
    destruct (ResnetBlock_init_ok T HT p Hp _ _ Cl Cl) as (m1 & E1).
    destruct (AttnBlock_init_ok T HT _ Cl) as (m2 & E2).
    destruct (Normalize_ok T HT _ Cl) as (nf & Enf).
    exists blocks, m1, m2, nf.
    unfold Net.Encoder_init.
    match goal with
    | |- bind ?X _ = _ =>
        replace X with (Ok (Some (128 * last ch_mult 0), blocks)
                        : result (option nat * list Net.ConvBlock))
          by (symmetry; exact E)
    end.
    cbn [bind]. rewrite E1. cbn [bind]. rewrite E2. cbn [bind].
    destruct (down_factor (length ch_mult)) as [df|e]; cbn [bind]; [|reflexivity].
    destruct (Net.FactorizedAdapter_init T df) as [fa|e]; cbn [bind]; [|reflexivity].
    rewrite Enf. reflexivity. }
  split.
  - intros Hne H4 H5. destruct (Hcommon Hne) as (blocks & m1 & m2 & nf & E).
    rewrite E. unfold down_factor.
    replace (length ch_mult =? 5) with false by (symmetry; now apply Nat.eqb_neq).
    replace (length ch_mult =? 4) with false by (symmetry; now apply Nat.eqb_neq).
    reflexivity.
  - intros df Hn.
    assert (Hne : ch_mult <> []).
    { intros ->. cbn in Hn. lia. }
    destruct (Hcommon Hne) as (blocks & m1 & m2 & nf & E).
    assert (Ed : down_factor (length ch_mult) = Ok df).
    { destruct Hn as [(-> & ->)|(-> & ->)]; reflexivity. }
    destruct (FactorizedAdapter_shape T HT df) as (fa & Efa & Hg & _).
    { destruct Hn as [(_ & ->)|(_ & ->)]; lia. }
    rewrite E, Ed. cbn [bind]. rewrite Efa. cbn [bind].
    eexists. exists fa. split; [reflexivity|].
    cbn [Net.num_resolutions Net.semantic_head_mid Net.semantic_head_high
         Net.visual_head]. repeat split. exact Hg.
Qed.
End EncoderInit.

(** *** [Decoder.__init__] *)

Section DecoderInit.
Context {F : Type} {SF : Scalar F}.
Variable T : Net.Torch (F := F).
Hypothesis HT : Net.TorchShapes T.
Variable ch_mult : list nat.
Variable p : F.
Hypothesis Hp : Net.dropout_ok p.

(** The loop over the levels in [Decoder.__init__], from level [k] down
    to level 0. *)
Lemma decoder_levels_ok (k : nat) :
  k < length ch_mult ->
  forall cin acc, cin mod 32 = 0 ->
  exists blocks,
    Net.foldM (fun '(block_in, conv_blocks) i_level =>
             m_out <- Net.item ch_mult i_level ;;
             let block_out := 128 * m_out in
             ' (block_in, res_block, attn_block) <-
               Net.build_level T block_in block_out (2 + 1)
                           (Net.is_last i_level (length ch_mult)) p Net.group ;;
             let upsample :=
               if negb (i_level =? 0)
               then Some (Net.Upsample_init T block_in true) else None in
             Ok (block_in,
                 conv_blocks ++ [Net.mkConvBlock res_block attn_block None upsample]))
          (rev (seq 0 (S k))) (cin, acc)
    = Ok (128 * nth 0 ch_mult 0, blocks).
Proof.
  induction k as [|k IH]; intros Hk cin acc Hc.
  - cbn [seq rev app Net.foldM]. rewrite (item_nth ch_mult 0 0 Hk). cbn [bind].
    cbv zeta. change (2 + 1) with 3.
    destruct (build_level_ok T HT p Hp cin (128 * nth 0 ch_mult 0) 2
                (Net.is_last 0 (length ch_mult)) Hc (mod_32_of_128 _))
      as (res & attn & B).
    rewrite B. cbn [bind]. eexists. reflexivity.
  - rewrite rev_seq_S. cbn [Net.foldM].
    rewrite (item_nth ch_mult (S k) 0 Hk). cbn [bind]. cbv zeta. change (2 + 1) with 3.
    destruct (build_level_ok T HT p Hp cin (128 * nth (S k) ch_mult 0) 2
                (Net.is_last (S k) (length ch_mult)) Hc (mod_32_of_128 _))
      as (res & attn & B).
    rewrite B. cbn [bind].
    destruct (IH ltac:(lia) (128 * nth (S k) ch_mult 0)
                 (acc ++ [Net.mkConvBlock res attn None
                            (if negb (S k =? 0)
                             then Some (Net.Upsample_init T (128 * nth (S k) ch_mult 0) true)
                             else None)])
                 (mod_32_of_128 _)) as (blocks & E).
    change (2 + 1) with 3 in E. cbv zeta in E. rewrite E. eexists. reflexivity.
Qed.

(** [Decoder.__init__] when its layers accept their arguments: it needs
    one level and no more. *)
Lemma Decoder_init_cases (zc : nat) :
  (ch_mult = [] ->
   Net.Decoder_init T zc 128 ch_mult 2 Net.group p true 3 = Err IndexError) /\
  (ch_mult <> [] ->
   exists dec, Net.Decoder_init T zc 128 ch_mult 2 Net.group p true 3 = Ok dec).
Proof.
  split; [intros ->; reflexivity|].
  intros Hne.
  assert (Hlen : 1 <= length ch_mult) by (destruct ch_mult; [congruence|cbn; lia]).
  assert (Hk : length ch_mult - 1 < length ch_mult) by lia.
  pose proof (mod_32_of_128 (last ch_mult 0)) as Cl.
  destruct (ResnetBlock_init_ok T HT p Hp _ _ Cl Cl) as (m1 & E1).
  destruct (AttnBlock_init_ok T HT _ Cl) as (m2 & E2).
  destruct (decoder_levels_ok (length ch_mult - 1) Hk (128 * last ch_mult 0) [] Cl)
    as (blocks & Eb).
  replace (S (length ch_mult - 1)) with (length ch_mult) in Eb by lia.
  destruct (Normalize_ok T HT _ (mod_32_of_128 (nth 0 ch_mult 0))) as (nf & Enf).
  unfold Net.Decoder_init.
  replace (match ch_mult with [] => Err IndexError | _ :: _ => Ok (last ch_mult 0) end)
    with (Ok (last ch_mult 0) : result nat) by (destruct ch_mult; [congruence|reflexivity]).
  cbn [bind]. cbv zeta. rewrite E1. cbn [bind]. rewrite E2. cbn [bind].
  match goal with
  | |- context [bind ?X _] =>
      replace X with (Ok (128 * nth 0 ch_mult 0, blocks)
                      : result (nat * list Net.ConvBlock)) by (symmetry; exact Eb)
  end.
  cbn [bind]. rewrite Enf. cbn [bind]. eexists. reflexivity.
Qed.
End DecoderInit.

(** *** [VQModel.__init__] *)

Section ModelInit.
Context {F : Type} {SF : Scalar F}.
Variable T : Net.Torch (F := F).

Lemma VectorQuantizer_init_cases (cfg : ModelArgs F) (u : list (list F)) :
  VectorQuantizer_init (codebook_size cfg) (codebook_embed_dim cfg)
    (commit_loss_beta cfg) (args_entropy_loss_ratio cfg)
    (codebook_l2_norm cfg) (codebook_show_usage cfg) u
  = if codebook_size cfg =? 0 then Err ZeroDivisionError
    else Ok (fresh_quantizer cfg u).
Proof. reflexivity. Qed.

(** [VQModel.__init__] builds the encoder first: what the encoder raises,
    the model raises. *)
Lemma VQModel_init_encoder (cfg : ModelArgs F) (u_vis u_mid u_high : list (list F))
      (e : error) :
  Net.Encoder_init T 3 128 (encoder_ch_mult cfg) 2 Net.group (dropout_p cfg) true
                   (z_channels cfg) = Err e ->
  Net.VQModel_init T cfg u_vis u_mid u_high = Err e.
Proof. intros E. unfold Net.VQModel_init. rewrite E. reflexivity. Qed.

Lemma stage_count_of_encoder (cfg : ModelArgs F) (enc : Net.Encoder) :
  Net.Encoder_init T 3 128 (encoder_ch_mult cfg) 2 Net.group (dropout_p cfg) true
                   (z_channels cfg) = Ok enc ->
  exists df, down_factor (length (encoder_ch_mult cfg)) = Ok df /\ (df = 8 \/ df = 16).
Proof.
  intros E.
  destruct (Nat.eq_dec (length (encoder_ch_mult cfg)) 4) as [H4|H4];
    [rewrite H4; exists 8; split; [reflexivity|now left]|].
  destruct (Nat.eq_dec (length (encoder_ch_mult cfg)) 5) as [H5|H5];
    [rewrite H5; exists 16; split; [reflexivity|now right]|].
  destruct (Encoder_init_stage_count T (encoder_ch_mult cfg) (dropout_p cfg)
              (z_channels cfg) H4 H5) as (e & Ee).
  rewrite Ee in E. discriminate.
Qed.

Hypothesis HT : Net.TorchShapes T.

Lemma FeatPredHead_init_ok (input_dim width df : nat) :
  df <> 0 -> 1 <= width -> width mod 8 = 0 ->
  exists h,
    Net.FeatPredHead_init T input_dim width df = Ok h /\
    Net.fp_grid_size h = 256 / df.
Proof.
  intros Hdf Hw Hm.
  destruct (ResidualAttentionBlock_shape T HT width Hw Hm) as (r & Er & _).
  unfold Net.FeatPredHead_init, Net.grid_of.
  replace (df =? 0) with false by (symmetry; now apply Nat.eqb_neq).
  cbn [bind]. unfold Net.rsqrt_int.
  replace (width =? 0) with false by (symmetry; apply Nat.eqb_neq; lia).
  cbn [bind]. rewrite Er, build_layers_repeat. cbn [bind].
  eexists. split; reflexivity.
Qed.

(** [VQModel.__init__] once the encoder is built: the quantizers, the
    decoder, the feature heads. *)
Lemma VQModel_init_after_encoder (cfg : ModelArgs F)
      (u_vis u_mid u_high : list (list F)) (enc : Net.Encoder) :
  Net.Encoder_init T 3 128 (encoder_ch_mult cfg) 2 Net.group (dropout_p cfg) true
                   (z_channels cfg) = Ok enc ->
  Net.dropout_ok (dropout_p cfg) ->
  (codebook_size cfg = 0 ->
   Net.VQModel_init T cfg u_vis u_mid u_high = Err ZeroDivisionError) /\
  (codebook_size cfg <> 0 -> decoder_ch_mult cfg = [] ->
   Net.VQModel_init T cfg u_vis u_mid u_high = Err IndexError) /\
  (codebook_size cfg <> 0 -> decoder_ch_mult cfg <> [] ->
   exists net dec,
     Net.Decoder_init T (z_channels cfg) 128 (decoder_ch_mult cfg) 2 Net.group
                      (dropout_p cfg) true 3 = Ok dec /\
     Net.VQModel_init T cfg u_vis u_mid u_high
     = Ok (net, mkVQModel cfg (fresh_quantizer cfg u_vis) (fresh_quantizer cfg u_mid)
                          (fresh_quantizer cfg u_high) (length (encoder_ch_mult cfg))) /\
     encoder_forward net = Net.Encoder_forward T enc /\
     decoder_forward net = Net.Decoder_forward T dec).
Proof.
  intros Ee Hp.
  destruct (stage_count_of_encoder cfg enc Ee) as (df & Ed & Hdf).
  destruct (Decoder_init_cases T HT (decoder_ch_mult cfg) (dropout_p cfg) Hp
              (z_channels cfg)) as (Hdempty & Hdok).
  unfold Net.VQModel_init. rewrite Ee. cbn [bind]. rewrite !VectorQuantizer_init_cases.
  split; [|split].
  - intros ->. reflexivity.
  - intros H0 Hd. apply Nat.eqb_neq in H0. rewrite H0. cbn [bind].
    rewrite (Hdempty Hd). reflexivity.
  - intros H0 Hd. apply Nat.eqb_neq in H0. rewrite H0. cbn [bind].
    destruct (Hdok Hd) as (dec & Edec).
    rewrite Edec. cbn [bind]. rewrite Ed. cbn [bind].
    destruct (FeatPredHead_init_ok (codebook_embed_dim cfg) 384 df) as (fm & Efm & _);
      [destruct Hdf as [->| ->]; lia|lia|reflexivity|].
    destruct (FeatPredHead_init_ok (codebook_embed_dim cfg) 768 df) as (fh & Efh & _);
      [destruct Hdf as [->| ->]; lia|lia|reflexivity|].
    rewrite Efm, Efh.
    destruct (with_clip_supervision cfg); cbn [bind];
      do 2 eexists; (split; [reflexivity|]); (split; [reflexivity|]);
      split; reflexivity.
Qed.
End ModelInit.

(** C9. [VQModel.__init__] builds its encoder first, and
    [Encoder.__init__] checks the number of stages of its schedule after
    it has built the levels and the middle blocks.  With a schedule of
    neither 4 nor 5 stages the construction of the model fails, whatever
    the layers of torch do with their arguments; when these layers accept
    what their documentation says they accept and the dropout probability
    is in [0, 1], it fails with [NotImplementedError], or with an unbound
    [block_in] when the schedule is empty.  With 5 stages the
    down-sampling factor is 16 and with 4 stages it is 8: the three
    adapters of the encoder are built for a grid of [256 / 16] or
    [256 / 8] positions a side, and the model is built when its decoder
    schedule has a stage and its codebooks a code. *)
Theorem stage_count_check {F : Type} {SF : Scalar F} (T : Net.Torch (F := F))
    (cfg : ModelArgs F) (u_vis u_mid u_high : list (list F)) :
  let n := length (encoder_ch_mult cfg) in
  (n <> 4 -> n <> 5 ->
   exists e, Net.VQModel_init T cfg u_vis u_mid u_high = Err e) /\
  down_factor 5 = Ok 16 /\
  down_factor 4 = Ok 8 /\
  (Net.TorchShapes T -> Net.dropout_ok (dropout_p cfg) ->
   (n <> 4 -> n <> 5 ->
    Net.VQModel_init T cfg u_vis u_mid u_high
    = Err (if n =? 0 then UnboundLocalError else NotImplementedError)) /\
   (forall df, (n = 5 /\ df = 16) \/ (n = 4 /\ df = 8) ->
    exists enc fa,
      Net.Encoder_init T 3 128 (encoder_ch_mult cfg) 2 Net.group (dropout_p cfg) true
                       (z_channels cfg) = Ok enc /\
      Net.num_resolutions enc = n /\
      Net.semantic_head_mid enc = [fa] /\
      Net.semantic_head_high enc = [fa] /\
      Net.visual_head enc = [fa] /\
      Net.fa_grid_size fa = 256 / df /\
      (codebook_size cfg <> 0 -> decoder_ch_mult cfg <> [] ->
       exists net m,
         Net.VQModel_init T cfg u_vis u_mid u_high = Ok (net, m) /\
         num_resolutions m = n /\
         encoder_forward net = Net.Encoder_forward T enc))).
Proof.
  intros n. split; [|split; [reflexivity|split; [reflexivity|]]].
  - intros H4 H5.
    destruct (Encoder_init_stage_count T (encoder_ch_mult cfg) (dropout_p cfg)
                (z_channels cfg) H4 H5) as (e & E).
    exists e. now apply VQModel_init_encoder.
  - intros HT Hp.
    destruct (Encoder_init_cases T HT (encoder_ch_mult cfg) (dropout_p cfg) Hp
                (z_channels cfg)) as (Hempty & Hother & Hsupp).
    split.
    + intros H4 H5. apply VQModel_init_encoder.
      destruct (encoder_ch_mult cfg) as [|m0 l] eqn:El.
      * now apply Hempty.
      * replace (n =? 0) with false by (symmetry; apply Nat.eqb_neq; unfold n; cbn; lia).
        apply Hother; [discriminate|exact H4|exact H5].
    + intros df Hn.
      destruct (Hsupp df Hn) as (enc & fa & Ee & Hnum & H1 & H2 & H3 & Hg).
      exists enc, fa. repeat (split; [assumption|]).
      intros H0 Hd.
      destruct (VQModel_init_after_encoder T HT cfg u_vis u_mid u_high enc Ee Hp)
        as (_ & _ & Hok).
      destruct (Hok H0 Hd) as (net & dec & _ & Ei & Henc & _).
      do 2 eexists. split; [exact Ei|]. split; [reflexivity|exact Henc].
Qed.

Lemma default_dropout_ok : Net.dropout_ok (dropout_p (default_args (F := R))).
Proof. split; apply Rltb_false; cbn; lra. Defined.

Lemma stage_count_check_witness :
  Net.VQModel_init plain_torch (with_ch_mult default_args [1; 2; 4] [1; 2; 4]) [] [] []
  = Err NotImplementedError /\
  exists net m,
    Net.VQModel_init plain_torch default_args [] [] [] = Ok (net, m) /\
    num_resolutions m = 5.
Proof.
  split.
  - refine (proj1 (proj2 (proj2 (proj2
              (stage_count_check plain_torch
                 (with_ch_mult default_args [1; 2; 4] [1; 2; 4]) [] [] [])))
              plain_torch_shapes default_dropout_ok) _ _).
    + cbn. lia.
    + cbn. lia.
  - destruct (proj2 (proj2 (proj2 (proj2
                (stage_count_check plain_torch default_args [] [] [])))
                plain_torch_shapes default_dropout_ok)
              16 (or_introl (conj eq_refl eq_refl)))
      as (enc & fa & _ & _ & _ & _ & _ & _ & Hok).
    destruct Hok as (net & m & E & Hn & _).
    + cbn [codebook_size default_args]. lia.
    + discriminate.
    + exists net, m. split; [exact E|exact Hn].
Defined.


